(** * WebsitePool: a heap model of tracer/src/models/websitepool.py

    The pool is a Python object holding a reference to a mutable list of
    [Website] objects.  What a pool promises depends on aliasing (shallow
    copies share the list and the targets, deep copies share nothing), so the
    development keeps an explicit object store: every Python object lives at
    a location, and the methods of [WebsitePool] are functions in a small
    state-and-exception monad over that store. *)

From Stdlib Require Import ZArith.
From stdpp Require Import base option gmap strings list.

Open Scope string_scope.
Open Scope list_scope.

(** ** Objects and the store *)

Abbreviation loc := positive.

(** Modelled from the spec: class [Result] (tracer/src/models/result.py) is
    not part of the sources at hand.  The spec describes it as an immutable
    value with the identity of the originating target, an outcome status, an
    optional evidence payload and a creation time. *)
Inductive status := Found | NotFound | Failed.

Record Result := mkResult {
  r_identity : string;
  r_status   : status;
  r_payload  : option string;
  r_created  : nat
}.

(** Modelled from the spec: class [Website] (tracer/src/models/website.py) is
    not part of the sources at hand.  The spec gives a target a stable
    identity (its name), a mutable search parameter (the username) and an
    optional last-computed Result, which is an object of its own and is
    therefore held by reference. *)
Record Website := mkWebsite {
  w_name     : string;
  w_username : option string;
  w_result   : option loc
}.

(** The instance dictionary of a [WebsitePool]: the three name-mangled
    attributes [__sites], [__allow_duplicates] and [__name].  [__name] is
    bound by [set_name] only, after [__sites] and [__allow_duplicates]; an
    unbound attribute is [None]. *)
Record PoolObj := mkPool {
  p_sites            : loc;
  p_allow_duplicates : bool;
  p_name             : option string
}.

Record Heap := mkHeap {
  websites : gmap loc Website;
  results  : gmap loc Result;
  lists    : gmap loc (list loc);
  pools    : gmap loc PoolObj
}.

Definition empty_heap : Heap := mkHeap ∅ ∅ ∅ ∅.

(** Python values that reach the pool's methods as arguments or leave them as
    return values. *)
#[warnings="-register-all"]
Inductive value :=
| VNone
| VBool (b : bool)
| VInt (z : Z)
| VFloat (mantissa : Z) (exponent : Z)
| VStr (s : string)
| VWebsite (w : loc)
| VResult (r : loc)
| VPool (p : loc)
| VList (l : loc)
| VTuple (items : list value).

(** [type(v).__qualname__] *)
Definition qualname (v : value) : string :=
  match v with
  | VNone => "NoneType"
  | VBool _ => "bool"
  | VInt _ => "int"
  | VFloat _ _ => "float"
  | VStr _ => "str"
  | VWebsite _ => "Website"
  | VResult _ => "Result"
  | VPool _ => "WebsitePool"
  | VList _ => "list"
  | VTuple _ => "tuple"
  end.

Inductive exn :=
| TypeError (msg : string)
| AttributeError (msg : string)
| IndexError (msg : string).

(** ** The monad: state, exceptions, dangling references, fuel *)

(** A call returns a value or raises, and leaves a store behind in both
    cases.  [Stuck] is a read through a reference to no object, which no
    Python program can hold; [Diverge] is a loop that has used up its fuel. *)
Inductive res (A : Type) :=
| Ok (a : A) (h : Heap)
| Raise (e : exn) (h : Heap)
| Stuck
| Diverge.
Arguments Ok {A} a h.
Arguments Raise {A} e h.
Arguments Stuck {A}.
Arguments Diverge {A}.

Definition M (A : Type) : Type := Heap → res A.

Definition ret {A} (a : A) : M A := fun h => Ok a h.

Definition bind {A B} (k : A → M B) (m : M A) : M B := fun h =>
  match m h with
  | Ok a h' => k a h'
  | Raise e h' => Raise e h'
  | Stuck => Stuck
  | Diverge => Diverge
  end.

#[global] Instance M_ret : MRet M := @ret.
#[global] Instance M_bind : MBind M := @bind.

Definition raise {A} (e : exn) : M A := fun h => Raise e h.
Definition stuck {A} : M A := fun _ => Stuck.
Definition diverge {A} : M A := fun _ => Diverge.

Definition lift {A} (o : option A) : M A := fun h =>
  match o with Some a => Ok a h | None => Stuck end.

Definition read_website (w : loc) : M Website := fun h => lift (websites h !! w) h.
Definition read_result (r : loc) : M Result := fun h => lift (results h !! r) h.
Definition read_list (l : loc) : M (list loc) := fun h => lift (lists h !! l) h.
Definition read_pool (p : loc) : M PoolObj := fun h => lift (pools h !! p) h.

Definition with_websites (h : Heap) (m : gmap loc Website) : Heap :=
  mkHeap m (results h) (lists h) (pools h).
Definition with_results (h : Heap) (m : gmap loc Result) : Heap :=
  mkHeap (websites h) m (lists h) (pools h).
Definition with_lists (h : Heap) (m : gmap loc (list loc)) : Heap :=
  mkHeap (websites h) (results h) m (pools h).
Definition with_pools (h : Heap) (m : gmap loc PoolObj) : Heap :=
  mkHeap (websites h) (results h) (lists h) m.

Definition write_website (w : loc) (x : Website) : M unit := fun h =>
  match websites h !! w with
  | Some _ => Ok tt (with_websites h (<[w := x]> (websites h)))
  | None => Stuck
  end.

Definition write_list (l : loc) (x : list loc) : M unit := fun h =>
  match lists h !! l with
  | Some _ => Ok tt (with_lists h (<[l := x]> (lists h)))
  | None => Stuck
  end.

Definition write_pool (p : loc) (x : PoolObj) : M unit := fun h =>
  match pools h !! p with
  | Some _ => Ok tt (with_pools h (<[p := x]> (pools h)))
  | None => Stuck
  end.

Definition alloc_website (x : Website) : M loc := fun h =>
  let w := fresh (dom (websites h)) in
  Ok w (with_websites h (<[w := x]> (websites h))).

Definition alloc_result (x : Result) : M loc := fun h =>
  let r := fresh (dom (results h)) in
  Ok r (with_results h (<[r := x]> (results h))).

Definition alloc_list (x : list loc) : M loc := fun h =>
  let l := fresh (dom (lists h)) in
  Ok l (with_lists h (<[l := x]> (lists h))).

Definition alloc_pool (x : PoolObj) : M loc := fun h =>
  let p := fresh (dom (pools h)) in
  Ok p (with_pools h (<[p := x]> (pools h))).

Fixpoint forM_ {A} (xs : list A) (f : A → M unit) : M unit :=
  match xs with
  | [] => ret tt
  | x :: xs' => f x ;; forM_ xs' f
  end.

(** ** Collaborators *)

(** Modelled from the spec: [Website.__eq__].  "Two targets are equal iff
    their identities match"; the search parameter takes no part in it. *)
Definition Website_eq (a b : Website) : bool := bool_decide (w_name a = w_name b).

(** Modelled from the spec: [Website.set_username], called by the pool with a
    value it has already checked to be a [str]. *)
Definition Website_set_username (w : loc) (username : string) : M unit :=
  x ← read_website w;
  write_website w (mkWebsite (w_name x) (Some username) (w_result x)).

(** Modelled from the spec: truth value of a [Result].  The spec gives the
    class no length and no truth value of its own, so an instance is true. *)
Definition Result_bool (_ : Result) : bool := true.

(** ** WebsitePool *)

(** [__len__]: [len(self.__sites)] *)
Definition len (self : loc) : M nat :=
  P ← read_pool self;
  items ← read_list (p_sites P);
  ret (length items).

(** [w == obj] for two targets held by reference *)
Definition eq_websites (w obj : loc) : M bool :=
  a ← read_website w;
  b ← read_website obj;
  ret (Website_eq a b).

(** [any(map(lambda w: w == obj, self))]: stops at the first equal member *)
Fixpoint any_eq (items : list loc) (obj : loc) : M bool :=
  match items with
  | [] => ret false
  | w :: rest => b ← eq_websites w obj; if (b : bool) then ret true else any_eq rest obj
  end.

(** [__contains__] *)
Definition contains (self : loc) (obj : value) : M bool :=
  match obj with
  | VWebsite o =>
      P ← read_pool self;
      items ← read_list (p_sites P);
      any_eq items o
  | _ => ret false
  end.

Definition append (l : loc) (w : loc) : M unit :=
  items ← read_list l;
  write_list l (items ++ [w]).

(** [add] *)
Definition add (self : loc) (website : value) : M unit :=
  match website with
  | VWebsite w =>
      P ← read_pool self;
      dup ← (if negb (p_allow_duplicates P) then contains self website else ret false);
      if (dup : bool) then ret tt
      else append (p_sites P) w
  | _ =>
      raise (TypeError ("Expected type 'tracer.Website' instead of type '"
                          +:+ qualname website +:+ "'"))
  end.

(** [__iter__]: [yield from self.__sites].  The loops that go through the pool
    without changing any list read the items once. *)
Definition iter (self : loc) : M (list loc) :=
  P ← read_pool self;
  read_list (p_sites P).

(** The [sites] property: [tuple(self.__sites)].  A tuple never changes after
    its creation and is represented by the sequence of its items. *)
Definition sites (self : loc) : M (list loc) :=
  P ← read_pool self;
  read_list (p_sites P).

(** The [name] property *)
Definition name (self : loc) : M string :=
  P ← read_pool self;
  match p_name P with
  | Some s => ret s
  | None => raise (AttributeError "'WebsitePool' object has no attribute '_WebsitePool__name'")
  end.

(** [site.result] followed by its truth test, as in [... if site.result] *)
Definition result_if_true (site : loc) : M (option loc) :=
  x ← read_website site;
  match w_result x with
  | None => ret None
  | Some r => R ← read_result r; ret (if Result_bool R then Some r else None)
  end.

Fixpoint collect_results (items : list loc) : M (list loc) :=
  match items with
  | [] => ret []
  | site :: rest =>
      o ← result_if_true site;
      rs ← collect_results rest;
      ret (match (o : option loc) with Some r => r :: rs | None => rs end)
  end.

(** The [results] property: [tuple([site.result for site in self if site.result])] *)
Definition results_view (self : loc) : M (list loc) :=
  items ← iter self;
  collect_results items.

(** The [is_empty] property: [not bool(self)], where [bool] goes through [__len__] *)
Definition is_empty (self : loc) : M bool :=
  n ← len self;
  ret (negb (negb (Nat.eqb n 0))).

(** [set_name] *)
Definition set_name (self : loc) (name : value) : M unit :=
  match name with
  | VStr s =>
      P ← read_pool self;
      write_pool self (mkPool (p_sites P) (p_allow_duplicates P) (Some s))
  | _ =>
      raise (TypeError ("Expected type 'str' instead of type '" +:+ qualname name +:+ "'"))
  end.

(** [set_username] *)
Definition set_username (self : loc) (username : value) : M unit :=
  match username with
  | VStr u =>
      items ← sites self;
      forM_ items (fun site => Website_set_username site u)
  | _ =>
      raise (TypeError ("Expected type 'str' instead of type '" +:+ qualname username +:+ "'"))
  end.

(** ** [copy.copy] and [copy.deepcopy] *)

(** The memo dictionary of [copy.deepcopy], keyed by object identity.  The
    store keeps one map per class, and so does the memo. *)
Record Memo := mkMemo {
  m_websites : gmap loc loc;
  m_results  : gmap loc loc;
  m_lists    : gmap loc loc;
  m_pools    : gmap loc loc
}.

Definition empty_memo : Memo := mkMemo ∅ ∅ ∅ ∅.

(** [copy.deepcopy(r, memo)] for a Result: an object found in the memo is
    reused, any other is rebuilt and recorded. *)
Definition deepcopy_result (memo : Memo) (r : loc) : M (loc * Memo) :=
  match m_results memo !! r with
  | Some r' => ret (r', memo)
  | None =>
      x ← read_result r;
      r' ← alloc_result x;
      ret (r', mkMemo (m_websites memo) (<[r := r']> (m_results memo))
                      (m_lists memo) (m_pools memo))
  end.

(** Modelled from the spec: [copy.deepcopy(site, memo)] for a [Website], which
    the spec requires to go through the visited map so that an object
    reachable from several targets is copied once.  The copy is entered in
    the memo before its attributes are copied. *)
Definition deepcopy_website (memo : Memo) (w : loc) : M (loc * Memo) :=
  match m_websites memo !! w with
  | Some w' => ret (w', memo)
  | None =>
      x ← read_website w;
      w' ← alloc_website x;
      let memo1 := mkMemo (<[w := w']> (m_websites memo)) (m_results memo)
                          (m_lists memo) (m_pools memo) in
      match w_result x with
      | None => ret (w', memo1)
      | Some r =>
          '(r', memo2) ← deepcopy_result memo1 r;
          write_website w' (mkWebsite (w_name x) (w_username x) (Some r'));;
          ret (w', memo2)
      end
  end.

Fixpoint deepcopy_items (memo : Memo) (items : list loc) : M (list loc * Memo) :=
  match items with
  | [] => ret ([], memo)
  | a :: rest =>
      '(a', memo1) ← deepcopy_website memo a;
      '(rest', memo2) ← deepcopy_items memo1 rest;
      ret (a' :: rest', memo2)
  end.

(** [copy.deepcopy(x, memo)] for the list of targets: the new list is entered
    in the memo, then filled with the copies of the items in order. *)
Definition deepcopy_list (memo : Memo) (l : loc) : M (loc * Memo) :=
  match m_lists memo !! l with
  | Some l' => ret (l', memo)
  | None =>
      items ← read_list l;
      l' ← alloc_list [];
      let memo1 := mkMemo (m_websites memo) (m_results memo)
                          (<[l := l']> (m_lists memo)) (m_pools memo) in
      '(items', memo2) ← deepcopy_items memo1 items;
      write_list l' items';;
      ret (l', memo2)
  end.

(** [__copy__]: a new object whose dictionary holds the same three values *)
Definition copy_pool (self : loc) : M loc :=
  P ← read_pool self;
  alloc_pool P.

(** [__deepcopy__]: the new object is entered in the memo, then each
    attribute is set to the deep copy of the original's; [bool] and [str]
    values are their own deep copies. *)
Definition deepcopy_method (self : loc) (memo : Memo) : M (loc * Memo) :=
  P ← read_pool self;
  pool ← alloc_pool P;
  let memo1 := mkMemo (m_websites memo) (m_results memo) (m_lists memo)
                      (<[self := pool]> (m_pools memo)) in
  '(l', memo2) ← deepcopy_list memo1 (p_sites P);
  write_pool pool (mkPool l' (p_allow_duplicates P) (p_name P));;
  ret (pool, memo2).

(** [copy.deepcopy(pool)] *)
Definition deepcopy_pool (self : loc) : M loc :=
  '(pool, _) ← deepcopy_method self empty_memo;
  ret pool.

(** ** [extend], [remove], [get], [get_by_name], [__init__] *)

(** [copy.deepcopy(site) if _deepcopy else site]; the deep copy starts from an
    empty memo at every call. *)
Definition copy_if (_deepcopy : bool) (site : loc) : M loc :=
  if _deepcopy
  then '(c, _) ← deepcopy_website empty_memo site; ret c
  else ret site.

(** The [for site in pool] loop of [extend].  The iterator walks the list
    object of [pool] by index and sees what [add] appends to it when both
    pools hold the same list. *)
Fixpoint extend_loop (fuel : nat) (self : loc) (source : loc) (_deepcopy : bool)
    (i : nat) : M unit :=
  match fuel with
  | O => diverge
  | S fuel' =>
      items ← read_list source;
      match (items : list loc) !! i with
      | None => ret tt
      | Some site =>
          site' ← copy_if _deepcopy site;
          add self (VWebsite site');;
          extend_loop fuel' self source _deepcopy (S i)
      end
  end.

Definition extend (fuel : nat) (self : loc) (pool : value) (_deepcopy : bool) : M unit :=
  match pool with
  | VPool q =>
      Q ← read_pool q;
      extend_loop fuel self (p_sites Q) _deepcopy 0
  | _ =>
      raise (TypeError ("Expected type 'tracer.WebsitePool' instead of type '"
                          +:+ qualname pool +:+ "'"))
  end.

(** A callable [Callable[[Website], bool]]: it is handed a target and may look
    at which object it is and at its attributes. *)
Definition predicate : Type := loc → Website → bool.

Definition call (where_ : predicate) (w : loc) : M bool :=
  x ← read_website w;
  ret (where_ w x).

Fixpoint filterM (f : loc → M bool) (items : list loc) : M (list loc) :=
  match items with
  | [] => ret []
  | w :: rest =>
      b ← f w;
      kept ← filterM f rest;
      ret (if (b : bool) then w :: kept else kept)
  end.

(** [remove]: [self.__sites = list(filter(lambda w: not where(w), self.sites))] *)
Definition remove (self : loc) (where_ : predicate) : M unit :=
  snapshot ← sites self;
  kept ← filterM (fun w => b ← call where_ w; ret (negb b)) snapshot;
  l ← alloc_list kept;
  P ← read_pool self;
  write_pool self (mkPool l (p_allow_duplicates P) (p_name P)).

(** [get]: [tuple(filter(where, self))] *)
Definition get (self : loc) (where_ : predicate) : M (list loc) :=
  items ← iter self;
  filterM (call where_) items.

(** [w.name == name]: a [str] equals no value of another type *)
Definition name_is (n : value) : predicate := fun _ x =>
  match n with
  | VStr s => bool_decide (w_name x = s)
  | _ => false
  end.

(** [get_by_name] *)
Definition get_by_name (self : loc) (n : value) : M (option loc) :=
  result ← get self (name_is n);
  ret (match (result : list loc) with w :: _ => Some w | [] => None end).

(** [__init__(self, *sites, name=None, allow_duplicates=False)] *)
Definition init (sites_ : list value) (name_ : value) (allow_duplicates : bool) : M loc :=
  l ← alloc_list [];
  self ← alloc_pool (mkPool l allow_duplicates None);
  set_name self name_;;
  forM_ sites_ (add self);;
  ret self.

(** The defaults of the keyword arguments *)
Definition default_name : value := VNone.
Definition default_allow_duplicates : bool := false.

(** ** Reading the store *)

(** The items of the list a pool holds *)
Definition pool_items (h : Heap) (p : loc) : option (list loc) :=
  P ← pools h !! p; lists h !! p_sites P.

Definition name_of (h : Heap) (w : loc) : option string :=
  w_name <$> websites h !! w.

(** [m == o] holds in store [h] *)
Definition equal_in (h : Heap) (m o : loc) : Prop :=
  ∃ x y, websites h !! m = Some x ∧ websites h !! o = Some y ∧ Website_eq x y = true.

(** The value of [where(w)] in store [h] *)
Definition holds (h : Heap) (f : predicate) (w : loc) : bool :=
  match websites h !! w with
  | Some x => f w x
  | None => false
  end.

(** No reference dangles: a pool holds a list, a list holds targets, a target
    holds a Result or nothing. *)
Record wf (h : Heap) : Prop := mk_wf {
  wf_pool : ∀ p P, pools h !! p = Some P → is_Some (lists h !! p_sites P);
  wf_list : ∀ l items w,
    lists h !! l = Some items → w ∈ items → is_Some (websites h !! w);
  wf_result : ∀ w x r,
    websites h !! w = Some x → w_result x = Some r → is_Some (results h !! r)
}.

Definition all_present (h : Heap) (items : list loc) : Prop :=
  ∀ w, w ∈ items → is_Some (websites h !! w).

(** ** Stepping through the monad *)

Lemma bind_Ok {A B} (m : M A) (k : A → M B) h a h' :
  m h = Ok a h' → (m ≫= k) h = k a h'.
Proof. intros E. unfold mbind, M_bind, bind. by rewrite E. Qed.

Lemma read_website_Ok h w x : websites h !! w = Some x → read_website w h = Ok x h.
Proof. intros E. unfold read_website. by rewrite E. Qed.

Lemma read_result_Ok h r x : results h !! r = Some x → read_result r h = Ok x h.
Proof. intros E. unfold read_result. by rewrite E. Qed.

Lemma read_list_Ok h l x : lists h !! l = Some x → read_list l h = Ok x h.
Proof. intros E. unfold read_list. by rewrite E. Qed.

Lemma read_pool_Ok h p x : pools h !! p = Some x → read_pool p h = Ok x h.
Proof. intros E. unfold read_pool. by rewrite E. Qed.

Lemma write_list_Ok h l x : is_Some (lists h !! l) →
  write_list l x h = Ok tt (with_lists h (<[l := x]> (lists h))).
Proof. intros [y E]. unfold write_list. by rewrite E. Qed.

Lemma write_pool_Ok h p x : is_Some (pools h !! p) →
  write_pool p x h = Ok tt (with_pools h (<[p := x]> (pools h))).
Proof. intros [y E]. unfold write_pool. by rewrite E. Qed.

Lemma write_website_Ok h w x : is_Some (websites h !! w) →
  write_website w x h = Ok tt (with_websites h (<[w := x]> (websites h))).
Proof. intros [y E]. unfold write_website. by rewrite E. Qed.

Lemma Website_eq_name x y : Website_eq x y = true ↔ w_name x = w_name y.
Proof. unfold Website_eq. by rewrite bool_decide_eq_true. Qed.

Lemma equal_in_names h m o :
  equal_in h m o ↔ is_Some (name_of h m) ∧ name_of h m = name_of h o.
Proof.
  unfold equal_in, name_of. split.
  - intros (x & y & -> & -> & E). apply Website_eq_name in E. simpl.
    split; [by eexists | by rewrite E].
  - intros [[n Hn] E]. rewrite Hn in E.
    destruct (websites h !! m) as [x|]; [|done].
    destruct (websites h !! o) as [y|]; [|done].
    simpl in *. exists x, y. split_and!; try done.
    apply Website_eq_name. congruence.
Qed.

(** [any(map(lambda w: w == obj, self))] is a membership test on names. *)
Lemma any_eq_Ok h items o :
  all_present h items → is_Some (websites h !! o) →
  ∃ b, any_eq items o h = Ok b h ∧ (b = true ↔ ∃ m, m ∈ items ∧ equal_in h m o).
Proof.
  intros Hall [y Hy]. induction items as [|w rest IH]; simpl.
  - exists false. split; [done|]. split; [done|]. intros (m & Hm & _). by apply elem_of_nil in Hm.
  - destruct (Hall w) as [x Hx]; [by left|].
    assert (eq_websites w o h = Ok (Website_eq x y) h) as E.
    { unfold eq_websites. rewrite (bind_Ok _ _ _ _ _ (read_website_Ok _ _ _ Hx)).
      by rewrite (bind_Ok _ _ _ _ _ (read_website_Ok _ _ _ Hy)). }
    rewrite (bind_Ok _ _ _ _ _ E).
    destruct (Website_eq x y) eqn:Exy.
    + exists true. split; [done|]. split; [|done]. intros _. exists w. split; [by left|].
      by exists x, y.
    + destruct IH as (b & Hb & Hiff).
      { intros m Hm. apply Hall. by right. }
      exists b. split; [done|]. rewrite Hiff. split.
      * intros (m & Hm & He). exists m. split; [by right | done].
      * intros (m & Hm & He). apply elem_of_cons in Hm as [->|Hm].
        -- destruct He as (x' & y' & Hx' & Hy' & He). congruence.
        -- by exists m.
Qed.

Lemma iter_Ok h self P items :
  pools h !! self = Some P → lists h !! p_sites P = Some items →
  iter self h = Ok items h.
Proof.
  intros HP HL. unfold iter.
  rewrite (bind_Ok _ _ _ _ _ (read_pool_Ok _ _ _ HP)). by apply read_list_Ok.
Qed.

Lemma sites_Ok h self P items :
  pools h !! self = Some P → lists h !! p_sites P = Some items →
  sites self h = Ok items h.
Proof. apply iter_Ok. Qed.

Lemma len_Ok h self P items :
  pools h !! self = Some P → lists h !! p_sites P = Some items →
  len self h = Ok (length items) h.
Proof.
  intros HP HL. unfold len.
  rewrite (bind_Ok _ _ _ _ _ (read_pool_Ok _ _ _ HP)).
  by rewrite (bind_Ok _ _ _ _ _ (read_list_Ok _ _ _ HL)).
Qed.

Lemma contains_Ok h self P items o :
  pools h !! self = Some P → lists h !! p_sites P = Some items →
  all_present h items → is_Some (websites h !! o) →
  ∃ b, contains self (VWebsite o) h = Ok b h ∧
       (b = true ↔ ∃ m, m ∈ items ∧ equal_in h m o).
Proof.
  intros HP HL Hall Ho. simpl.
  rewrite (bind_Ok _ _ _ _ _ (read_pool_Ok _ _ _ HP)).
  rewrite (bind_Ok _ _ _ _ _ (read_list_Ok _ _ _ HL)).
  by apply any_eq_Ok.
Qed.

Lemma append_Ok h l items w :
  lists h !! l = Some items →
  append l w h = Ok tt (with_lists h (<[l := items ++ [w]]> (lists h))).
Proof.
  intros HL. unfold append.
  rewrite (bind_Ok _ _ _ _ _ (read_list_Ok _ _ _ HL)).
  apply write_list_Ok. by eexists.
Qed.

(** What [add] does to a store in which the pool and the new target exist:
    nothing when duplicates are rejected and an equal member is there, an
    append to the pool's list otherwise. *)
Lemma add_Ok h self P items o :
  pools h !! self = Some P → lists h !! p_sites P = Some items →
  all_present h items → is_Some (websites h !! o) →
  (p_allow_duplicates P = false → (∃ m, m ∈ items ∧ equal_in h m o) →
     add self (VWebsite o) h = Ok tt h) ∧
  (p_allow_duplicates P = true ∨ ¬ (∃ m, m ∈ items ∧ equal_in h m o) →
     add self (VWebsite o) h
     = Ok tt (with_lists h (<[p_sites P := items ++ [o]]> (lists h)))).
Proof.
  intros HP HL Hall Ho.
  destruct (contains_Ok h self P items o HP HL Hall Ho) as (b & Hb & Hiff).
  unfold add. rewrite (bind_Ok _ _ _ _ _ (read_pool_Ok _ _ _ HP)).
  destruct (p_allow_duplicates P) eqn:Ea; simpl.
  - split; [done|]. intros _. by apply append_Ok.
  - rewrite (bind_Ok _ _ _ _ _ Hb). split.
    + intros _ Hex. apply Hiff in Hex. by subst b.
    + intros [?|Hno]; [done|]. destruct b.
      * exfalso. apply Hno. by apply Hiff.
      * by apply append_Ok.
Qed.

(** ** Membership and [add] *)

(** C10: [x in pool] is [False], and no error, for every value [x] that is not
    a Website; it is [True] exactly when [x] is a Website equal to some
    member of the pool. *)
Theorem contains_membership (h : Heap) (self : loc) (P : PoolObj) (items : list loc)
    (obj : value) :
  pools h !! self = Some P → lists h !! p_sites P = Some items →
  all_present h items → (∀ o, obj = VWebsite o → is_Some (websites h !! o)) →
  ∃ b, contains self obj h = Ok b h ∧
       (b = true ↔ ∃ o m, obj = VWebsite o ∧ m ∈ items ∧ equal_in h m o) ∧
       ((∀ o, obj ≠ VWebsite o) → b = false).
Proof.
  intros HP HL Hall Hobj.
  destruct obj as [| | | | |o| | | |];
    try (exists false; split; [reflexivity|]; split;
         [split; [discriminate | by intros (? & ? & ? & _)] | done]).
  destruct (contains_Ok h self P items o HP HL Hall (Hobj o eq_refl)) as (b & Hb & Hiff).
  exists b. split; [done|]. split.
  - rewrite Hiff. split.
    + intros (m & Hm & He). by exists o, m.
    + intros (o' & m & [= <-] & Hm & He). by exists m.
  - intros Hne. by destruct (Hne o).
Qed.

(** C3: [add(w)] raises [TypeError] when [w] is not a Website; when
    duplicates are rejected and an equal target is present it does nothing
    and the length stays the same; otherwise [w] goes to the end of the pool
    and the length grows by one. *)
Theorem add_spec (h : Heap) (self : loc) (P : PoolObj) (items : list loc) (w : value) :
  pools h !! self = Some P → lists h !! p_sites P = Some items →
  all_present h items → (∀ o, w = VWebsite o → is_Some (websites h !! o)) →
  ((∀ o, w ≠ VWebsite o) → ∃ msg, add self w h = Raise (TypeError msg) h) ∧
  (∀ o, w = VWebsite o →
     p_allow_duplicates P = false → (∃ m, m ∈ items ∧ equal_in h m o) →
     add self w h = Ok tt h ∧ len self h = Ok (length items) h) ∧
  (∀ o, w = VWebsite o →
     p_allow_duplicates P = true ∨ ¬ (∃ m, m ∈ items ∧ equal_in h m o) →
     ∃ h', add self w h = Ok tt h' ∧
           pool_items h' self = Some (items ++ [o]) ∧
           len self h' = Ok (S (length items)) h').
Proof.
  intros HP HL Hall Hw. split_and!.
  - intros Hne. destruct w; try (eexists; reflexivity). by destruct (Hne w).
  - intros o -> Ea Hex.
    destruct (add_Ok h self P items o HP HL Hall (Hw o eq_refl)) as [H1 _].
    split; [by apply H1 | by eapply len_Ok].
  - intros o -> Hcase.
    destruct (add_Ok h self P items o HP HL Hall (Hw o eq_refl)) as [_ H2].
    eexists. split; [by apply H2|].
    assert (lists (with_lists h (<[p_sites P:=items ++ [o]]> (lists h))) !! p_sites P
            = Some (items ++ [o])) as HL' by apply lookup_insert_eq.
    split.
    + unfold pool_items. simpl. rewrite HP. simpl. apply lookup_insert_eq.
    + rewrite (len_Ok _ self P (items ++ [o])); [|done|done].
      rewrite length_app. simpl. f_equal. lia.
Qed.

(** ** [remove] and [get] *)

Lemma call_Ok h f w : is_Some (websites h !! w) → call f w h = Ok (holds h f w) h.
Proof.
  intros [x Hx]. unfold call, holds. rewrite Hx.
  by rewrite (bind_Ok _ _ _ _ _ (read_website_Ok _ _ _ Hx)).
Qed.

Lemma filterM_Ok (g : loc → M bool) (gp : loc → bool) h (items : list loc) :
  (∀ w, w ∈ items → g w h = Ok (gp w) h) →
  filterM g items h = Ok (filter (λ w, gp w = true) items) h.
Proof.
  induction items as [|w rest IH]; intros Hg; simpl; [done|].
  rewrite (bind_Ok _ _ _ _ _ (Hg w ltac:(by left))).
  rewrite (bind_Ok _ _ _ _ _ (IH (λ m Hm, Hg m ltac:(by right)))).
  rewrite filter_cons. by destruct (gp w).
Qed.

Lemma fresh_list_None (h : Heap) : lists h !! fresh (dom (lists h)) = None.
Proof. apply not_elem_of_dom, is_fresh. Qed.

Lemma fresh_pool_None (h : Heap) : pools h !! fresh (dom (pools h)) = None.
Proof. apply not_elem_of_dom, is_fresh. Qed.

Lemma fresh_website_None (h : Heap) : websites h !! fresh (dom (websites h)) = None.
Proof. apply not_elem_of_dom, is_fresh. Qed.

Lemma fresh_result_None (h : Heap) : results h !! fresh (dom (results h)) = None.
Proof. apply not_elem_of_dom, is_fresh. Qed.

Lemma holds_same_websites h h' f w :
  websites h' = websites h → holds h' f w = holds h f w.
Proof. intros E. unfold holds. by rewrite E. Qed.

Lemma get_Ok h self P items f :
  pools h !! self = Some P → lists h !! p_sites P = Some items →
  all_present h items →
  get self f h = Ok (filter (λ w, holds h f w = true) items) h.
Proof.
  intros HP HL Hall. unfold get.
  rewrite (bind_Ok _ _ _ _ _ (iter_Ok _ _ _ _ HP HL)).
  apply filterM_Ok. intros w Hw. by apply call_Ok, Hall.
Qed.

(** The store [remove] leaves behind: a new list with the survivors, and the
    pool rebound to it. *)
Definition removed (h : Heap) (self : loc) (P : PoolObj) (kept : list loc) : Heap :=
  let l := fresh (dom (lists h)) in
  with_pools (with_lists h (<[l := kept]> (lists h)))
             (<[self := mkPool l (p_allow_duplicates P) (p_name P)]> (pools h)).

Lemma remove_Ok h self P items f :
  pools h !! self = Some P → lists h !! p_sites P = Some items →
  all_present h items →
  remove self f h
  = Ok tt (removed h self P (filter (λ w, holds h f w = false) items)).
Proof.
  intros HP HL Hall. unfold remove.
  rewrite (bind_Ok _ _ _ _ _ (sites_Ok _ _ _ _ HP HL)).
  assert (filterM (λ w, b ← call f w; ret (negb b)) items h
          = Ok (filter (λ w, holds h f w = false) items) h) as Hkept.
  { rewrite (filterM_Ok _ (λ w, negb (holds h f w))).
    - f_equal. apply list_filter_iff. intros w. by destruct (holds h f w).
    - intros w Hw. by rewrite (bind_Ok _ _ _ _ _ (call_Ok h f w (Hall w Hw))). }
  rewrite (bind_Ok _ _ _ _ _ Hkept).
  unfold mbind at 1, M_bind, bind, alloc_list.
  erewrite bind_Ok; [|by apply read_pool_Ok].
  rewrite write_pool_Ok; [done | by eexists].
Qed.

Lemma filter_none {A} (Q : A → Prop) `{!∀ x, Decision (Q x)} (l : list A) :
  (∀ x, x ∈ l → ¬ Q x) → filter Q l = [].
Proof.
  induction l as [|x l IH]; intros Hno; [done|].
  rewrite filter_cons_False; [|apply Hno; by left].
  apply IH. intros y Hy. apply Hno. by right.
Qed.

(** C4: [remove(f)] keeps exactly the targets on which [f] is false, in their
    original order; [f] is applied to a snapshot, and the list the pool held
    before is left as it was; [get(f)] right after [remove(f)] is empty. *)
Theorem remove_then_get (h : Heap) (self : loc) (P : PoolObj) (items : list loc)
    (f : predicate) :
  pools h !! self = Some P → lists h !! p_sites P = Some items →
  all_present h items →
  ∃ h' kept,
    remove self f h = Ok tt h' ∧
    pool_items h' self = Some kept ∧
    kept = filter (λ w, holds h f w = false) items ∧
    kept `sublist_of` items ∧
    (∀ w, w ∈ kept ↔ w ∈ items ∧ holds h f w = false) ∧
    websites h' = websites h ∧
    lists h' !! p_sites P = Some items ∧
    get self f h' = Ok [] h'.
Proof.
  intros HP HL Hall.
  set (kept := filter (λ w, holds h f w = false) items).
  exists (removed h self P kept), kept.
  assert (p_sites P ≠ fresh (dom (lists h))) as Hne.
  { intros E. pose proof (fresh_list_None h) as Hf. rewrite <- E in Hf. congruence. }
  assert (∀ w, w ∈ kept ↔ w ∈ items ∧ holds h f w = false) as Hkept.
  { intros w. unfold kept. rewrite list_elem_of_filter. tauto. }
  split_and!; try done.
  - by apply remove_Ok.
  - unfold pool_items, removed. simpl. rewrite lookup_insert_eq. simpl.
    apply lookup_insert_eq.
  - apply sublist_filter.
  - unfold removed. simpl. by rewrite lookup_insert_ne.
  - erewrite (get_Ok _ self _ kept).
    + f_equal. apply filter_none. intros w Hw.
      rewrite (holds_same_websites h) by done.
      apply Hkept in Hw as [_ ->]. done.
    + unfold removed; simpl. apply lookup_insert_eq.
    + simpl. apply lookup_insert_eq.
    + intros w Hw. apply Hall. by apply Hkept in Hw as [Hw _].
Qed.

(** ** Arguments of the wrong type, and the constructor *)

(** [isinstance(v, Website)], [isinstance(v, str)], [isinstance(v, WebsitePool)] *)
Definition is_Website (v : value) : bool :=
  match v with VWebsite _ => true | _ => false end.
Definition is_str (v : value) : bool :=
  match v with VStr _ => true | _ => false end.
Definition is_WebsitePool (v : value) : bool :=
  match v with VPool _ => true | _ => false end.

(** C6: [add], [extend], [set_username] and [set_name] called with a value of
    the wrong type raise [TypeError] at once and leave the whole store, and
    with it the pool's list, its targets and its name, as it was. *)
Theorem type_errors_keep_state (h : Heap) (self : loc) (v : value) (fuel : nat)
    (_deepcopy : bool) :
  (is_Website v = false → ∃ msg, add self v h = Raise (TypeError msg) h) ∧
  (is_WebsitePool v = false →
     ∃ msg, extend fuel self v _deepcopy h = Raise (TypeError msg) h) ∧
  (is_str v = false → ∃ msg, set_username self v h = Raise (TypeError msg) h) ∧
  (is_str v = false → ∃ msg, set_name self v h = Raise (TypeError msg) h).
Proof.
  split_and!; intros Hv; destruct v; try discriminate Hv; eexists; reflexivity.
Qed.

(** C7 (the constructor as written): a call of [WebsitePool] with the default
    [name=None], or with [name=None] spelled out, hands [None] to [set_name],
    whose type check raises [TypeError]; no pool is returned.  The signature
    and the docstrings declare the name [Optional[str]], "by default None". *)
Theorem init_without_name_raises (sites_ : list value) (allow_duplicates : bool)
    (h : Heap) :
  ∃ h', init sites_ default_name allow_duplicates h
        = Raise (TypeError "Expected type 'str' instead of type 'NoneType'") h'.
Proof. eexists. reflexivity. Qed.

(** ** The [sites] and [results] views *)

(** The Result a target holds, if any *)
Definition last_result (h : Heap) (w : loc) : option loc :=
  x ← websites h !! w; w_result x.

(** The in-place operations of Python's sequences *)
Inductive mutator :=
| Append (x : value)
| Extend (xs : list value)
| Insert (i : nat) (x : value)
| SetItem (i : nat) (x : value)
| DelItem (i : nat)
| Pop
| Clear
| Reverse.

Definition mutator_name (m : mutator) : string :=
  match m with
  | Append _ => "append"
  | Extend _ => "extend"
  | Insert _ _ => "insert"
  | Pop => "pop"
  | Clear => "clear"
  | Reverse => "reverse"
  | SetItem _ _ => "__setitem__"
  | DelItem _ => "__delitem__"
  end.

(** The targets among a sequence of values, or nothing when some value is no
    target: the lists of the store hold targets only. *)
Fixpoint as_websites (xs : list value) : option (list loc) :=
  match xs with
  | [] => Some []
  | VWebsite w :: rest => ws ← as_websites rest; Some (w :: ws)
  | _ :: _ => None
  end.

Definition mutate_list (l : loc) (m : mutator) : M unit :=
  items ← read_list l;
  match m with
  | Append x =>
      match as_websites [x] with
      | Some ws => write_list l (items ++ ws)
      | None => stuck
      end
  | Extend xs =>
      match as_websites xs with
      | Some ws => write_list l (items ++ ws)
      | None => stuck
      end
  | Insert i x =>
      match as_websites [x] with
      | Some ws => write_list l (take i items ++ ws ++ drop i items)
      | None => stuck
      end
  | SetItem i x =>
      match as_websites [x] with
      | Some [w] =>
          if decide (i < length items) then write_list l (<[i := w]> items)
          else raise (IndexError "list assignment index out of range")
      | _ => stuck
      end
  | DelItem i =>
      if decide (i < length items) then write_list l (delete i items)
      else raise (IndexError "list assignment index out of range")
  | Pop =>
      match items with
      | [] => raise (IndexError "pop from empty list")
      | _ => write_list l (removelast items)
      end
  | Clear => write_list l []
  | Reverse => write_list l (reverse items)
  end.

(** A tuple has item access only: assignment and deletion of an item are type
    errors, and the methods that change a list do not exist on it. *)
Definition mutate_tuple (m : mutator) : M unit :=
  match m with
  | SetItem _ _ => raise (TypeError "'tuple' object does not support item assignment")
  | DelItem _ => raise (TypeError "'tuple' object doesn't support item deletion")
  | _ => raise (AttributeError
                  ("'tuple' object has no attribute '" +:+ mutator_name m +:+ "'"))
  end.

Definition mutate (target : value) (m : mutator) : M unit :=
  match target with
  | VList l => mutate_list l m
  | VTuple _ => mutate_tuple m
  | _ => raise (AttributeError
                  ("'" +:+ qualname target +:+ "' object has no attribute '"
                       +:+ mutator_name m +:+ "'"))
  end.

(** What the caller of [pool.sites] receives: [tuple(self.__sites)], a new
    tuple of the targets the list holds at the time of the call. *)
Definition sites_property (self : loc) : M value :=
  P ← read_pool self;
  items ← read_list (p_sites P);
  ret (VTuple (VWebsite <$> items)).

(** What the caller of [pool.results] receives: the tuple made of the list
    that the comprehension builds. *)
Definition results_property (self : loc) : M value :=
  rs ← results_view self;
  ret (VTuple (VResult <$> rs)).

Lemma result_if_true_Ok h site :
  wf h → is_Some (websites h !! site) →
  result_if_true site h = Ok (last_result h site) h.
Proof.
  intros Hwf [x Hx]. unfold result_if_true, last_result. rewrite Hx. simpl.
  rewrite (bind_Ok _ _ _ _ _ (read_website_Ok _ _ _ Hx)).
  destruct (w_result x) as [r|] eqn:Er; [|done].
  destruct (wf_result h Hwf site x r Hx Er) as [R HR].
  by rewrite (bind_Ok _ _ _ _ _ (read_result_Ok _ _ _ HR)).
Qed.

Lemma collect_results_Ok h (items : list loc) :
  wf h → all_present h items →
  collect_results items h = Ok (omap (last_result h) items) h.
Proof.
  intros Hwf. induction items as [|w rest IH]; intros Hall; simpl; [done|].
  rewrite (bind_Ok _ _ _ _ _ (result_if_true_Ok h w Hwf (Hall w ltac:(by left)))).
  rewrite (bind_Ok _ _ _ _ _ (IH (λ m Hm, Hall m ltac:(by right)))).
  by destruct (last_result h w).
Qed.

(** C8: [results] is the tuple of the Results held by the targets that hold
    one, in pool order.  The object that [sites] and that [results] return
    to the caller is a tuple of these items and not the list of the pool: in
    whatever store the holder of that object attempts an in-place operation
    on it, the operation raises and the store, and so the pool, is as it
    was. *)
Theorem views_are_snapshots (h : Heap) (self : loc) (P : PoolObj) (items : list loc) :
  wf h → pools h !! self = Some P → lists h !! p_sites P = Some items →
  ∃ rs,
    results_view self h = Ok rs h ∧
    rs = omap (last_result h) items ∧
    (∀ r, r ∈ rs ↔ ∃ w, w ∈ items ∧ last_result h w = Some r) ∧
    sites self h = Ok items h ∧
    sites_property self h = Ok (VTuple (VWebsite <$> items)) h ∧
    results_property self h = Ok (VTuple (VResult <$> rs)) h ∧
    (∀ v h1,
       sites_property self h = Ok v h1 ∨ results_property self h = Ok v h1 →
       v ≠ VList (p_sites P) ∧
       ∀ m h', ∃ e, mutate v m h' = Raise e h').
Proof.
  intros Hwf HP HL.
  assert (all_present h items) as Hall.
  { intros w Hw. by eapply wf_list. }
  assert (results_view self h = Ok (omap (last_result h) items) h) as Hres.
  { unfold results_view. rewrite (bind_Ok _ _ _ _ _ (iter_Ok _ _ _ _ HP HL)).
    by apply collect_results_Ok. }
  assert (sites_property self h = Ok (VTuple (VWebsite <$> items)) h) as Hsites.
  { unfold sites_property.
    rewrite (bind_Ok _ _ _ _ _ (read_pool_Ok _ _ _ HP)).
    by rewrite (bind_Ok _ _ _ _ _ (read_list_Ok _ _ _ HL)). }
  assert (results_property self h
          = Ok (VTuple (VResult <$> omap (last_result h) items)) h) as Hresults.
  { unfold results_property. by rewrite (bind_Ok _ _ _ _ _ Hres). }
  exists (omap (last_result h) items). split_and!; try done.
  - intros r. rewrite list_elem_of_omap. naive_solver.
  - by eapply sites_Ok.
  - intros v h1 [Hv|Hv]; [rewrite Hsites in Hv|rewrite Hresults in Hv];
      injection Hv as <- <-; (split; [done|]);
      intros m h'; destruct m; eexists; reflexivity.
Qed.

(** The list itself, had a view handed it out, would let its holder change the
    pool. *)
Lemma list_mutation_reaches_pool h self P items :
  pools h !! self = Some P → lists h !! p_sites P = Some items →
  ∃ h', mutate (VList (p_sites P)) Clear h = Ok tt h' ∧ pool_items h' self = Some [].
Proof.
  intros HP HL. eexists. split.
  - simpl. unfold mutate_list. rewrite (bind_Ok _ _ _ _ _ (read_list_Ok _ _ _ HL)).
    apply write_list_Ok. by eexists.
  - unfold pool_items. simpl. rewrite HP. simpl. apply lookup_insert_eq.
Qed.

(** ** Deep copies *)

Definition memo_websites (memo : Memo) (m : gmap loc loc) : Memo :=
  mkMemo m (m_results memo) (m_lists memo) (m_pools memo).
Definition memo_results (memo : Memo) (m : gmap loc loc) : Memo :=
  mkMemo (m_websites memo) m (m_lists memo) (m_pools memo).

(** What holds of the store [h] and the memo while a deep copy that started
    in store [h0] is under way: [h] has the objects of [h0] and, besides
    them, one new object per entry of the memo, which is the copy of the
    entry's key. *)
Record copying (h0 h : Heap) (memo : Memo) : Prop := mk_copying {
  cp_websites : websites h0 ⊆ websites h;
  cp_results : results h0 ⊆ results h;
  cp_origin : ∀ w' x', websites h !! w' = Some x' →
    websites h0 !! w' = Some x' ∨ ∃ w, m_websites memo !! w = Some w';
  cp_memo_w : ∀ w w', m_websites memo !! w = Some w' →
    websites h0 !! w' = None ∧
    ∃ x x', websites h0 !! w = Some x ∧ websites h !! w' = Some x' ∧
      w_name x' = w_name x ∧ w_username x' = w_username x ∧
      match w_result x with
      | None => w_result x' = None
      | Some r => ∃ r', m_results memo !! r = Some r' ∧ w_result x' = Some r'
      end;
  cp_memo_r : ∀ r r', m_results memo !! r = Some r' →
    results h0 !! r' = None ∧
    ∃ x, results h0 !! r = Some x ∧ results h !! r' = Some x;
  cp_inj_w : ∀ a b c,
    m_websites memo !! a = Some c → m_websites memo !! b = Some c → a = b;
  cp_inj_r : ∀ a b c,
    m_results memo !! a = Some c → m_results memo !! b = Some c → a = b
}.

Lemma copying_start h0 m_l m_p : copying h0 h0 (mkMemo ∅ ∅ m_l m_p).
Proof.
  split; simpl; try done.
  - intros w' x' Hx. by left.
Qed.

Lemma copying_add_result h0 h memo r x :
  copying h0 h memo → results h0 !! r = Some x → m_results memo !! r = None →
  copying h0 (with_results h (<[fresh (dom (results h)) := x]> (results h)))
             (memo_results memo (<[r := fresh (dom (results h))]> (m_results memo))).
Proof.
  intros [Hw Hr Ho Hmw Hmr Hiw Hir] Hx Hnone.
  pose proof (fresh_result_None h) as Hf.
  set (r' := fresh (dom (results h))) in *.
  split; simpl; try done.
  - etrans; [exact Hr|]. by apply insert_subseteq.
  - intros w w' Hm. destruct (Hmw w w' Hm) as (H0 & y & y' & Hy & Hy' & Hn & Hu & Hres).
    split; [done|]. exists y, y'. split_and!; try done.
    destruct (w_result y) as [r0|]; [|done].
    destruct Hres as (r0' & Hr0 & Hy'r). exists r0'. split; [|done].
    rewrite lookup_insert_ne; [done|]. intros <-. congruence.
  - intros r1 r1' Hm. apply lookup_insert_Some in Hm as [[<- <-]|[Hne Hm]].
    + split.
      * destruct (results h0 !! r') eqn:E; [|done].
        eapply lookup_weaken in E; [|exact Hr]. congruence.
      * exists x. split; [done|]. apply lookup_insert_eq.
    + destruct (Hmr r1 r1' Hm) as (H0 & y & Hy & Hy'). split; [done|].
      exists y. split; [done|]. rewrite lookup_insert_ne; [done|].
      intros <-. congruence.
  - intros a b c Ha Hb.
    apply lookup_insert_Some in Ha as [[<- <-]|[Hnea Ha]];
      apply lookup_insert_Some in Hb as [[<- Hc]|[Hneb Hb]]; try done.
    + destruct (Hmr b r' Hb) as (_ & y & _ & Hy). congruence.
    + subst c. destruct (Hmr a r' Ha) as (_ & y & _ & Hy). congruence.
    + by eapply Hir.
Qed.

Lemma copying_add_website h0 h memo w x rr :
  copying h0 h memo → websites h0 !! w = Some x → m_websites memo !! w = None →
  match w_result x with
  | None => rr = None
  | Some r => ∃ r', m_results memo !! r = Some r' ∧ rr = Some r'
  end →
  copying h0
    (with_websites h (<[fresh (dom (websites h)) := mkWebsite (w_name x) (w_username x) rr]>
                        (websites h)))
    (memo_websites memo (<[w := fresh (dom (websites h))]> (m_websites memo))).
Proof.
  intros [Hw Hr Ho Hmw Hmr Hiw Hir] Hx Hnone Hrr.
  pose proof (fresh_website_None h) as Hf.
  set (w' := fresh (dom (websites h))) in *.
  assert (websites h0 !! w' = None) as Hf0.
  { destruct (websites h0 !! w') eqn:E; [|done].
    eapply lookup_weaken in E; [|exact Hw]. congruence. }
  split; simpl; try done.
  - etrans; [exact Hw|]. by apply insert_subseteq.
  - intros w1 x1 H1. apply lookup_insert_Some in H1 as [[<- <-]|[Hne H1]].
    + right. exists w. apply lookup_insert_eq.
    + destruct (Ho w1 x1 H1) as [?|[w2 H2]]; [by left|].
      right. exists w2. rewrite lookup_insert_ne; [done|]. intros <-. congruence.
  - intros w1 w1' Hm. apply lookup_insert_Some in Hm as [[<- <-]|[Hne Hm]].
    + split; [done|]. exists x. eexists. split; [done|].
      split; [apply lookup_insert_eq|]. simpl. by split_and!.
    + destruct (Hmw w1 w1' Hm) as (H0 & y & y' & Hy & Hy' & Hrest).
      split; [done|]. exists y, y'. split; [done|]. split; [|done].
      rewrite lookup_insert_ne; [done|]. intros <-. congruence.
  - intros a b c Ha Hb.
    apply lookup_insert_Some in Ha as [[<- <-]|[Hnea Ha]];
      apply lookup_insert_Some in Hb as [[<- Hc]|[Hneb Hb]]; try done.
    + destruct (Hmw b w' Hb) as (_ & y & y' & _ & Hy & _). congruence.
    + subst c. destruct (Hmw a w' Ha) as (_ & y & y' & _ & Hy & _). congruence.
    + by eapply Hiw.
Qed.

Record memo_le (m m' : Memo) : Prop := mk_memo_le {
  le_websites : m_websites m ⊆ m_websites m';
  le_results : m_results m ⊆ m_results m';
  le_lists : m_lists m' = m_lists m;
  le_pools : m_pools m' = m_pools m
}.

Lemma memo_le_refl m : memo_le m m.
Proof. by split. Qed.

Lemma memo_le_trans m1 m2 m3 : memo_le m1 m2 → memo_le m2 m3 → memo_le m1 m3.
Proof.
  intros [A1 B1 C1 D1] [A2 B2 C2 D2]. split; [by etrans|by etrans|congruence|congruence].
Qed.

Lemma deepcopy_result_run memo r h x :
  results h !! r = Some x →
  deepcopy_result memo r h =
    match m_results memo !! r with
    | Some r' => Ok (r', memo) h
    | None =>
        Ok (fresh (dom (results h)),
            memo_results memo (<[r := fresh (dom (results h))]> (m_results memo)))
           (with_results h (<[fresh (dom (results h)) := x]> (results h)))
    end.
Proof.
  intros Hx. unfold deepcopy_result. destruct (m_results memo !! r); [done|].
  by rewrite (bind_Ok _ _ _ _ _ (read_result_Ok _ _ _ Hx)).
Qed.

Lemma Website_eta x : mkWebsite (w_name x) (w_username x) (w_result x) = x.
Proof. by destruct x. Qed.

Lemma deepcopy_website_Ok h0 h memo w :
  wf h0 → copying h0 h memo → is_Some (websites h0 !! w) →
  ∃ w' memo' h',
    deepcopy_website memo w h = Ok (w', memo') h' ∧
    copying h0 h' memo' ∧ memo_le memo memo' ∧
    m_websites memo' !! w = Some w' ∧
    lists h' = lists h ∧ pools h' = pools h.
Proof.
  intros Hwf Hcp [x Hx0]. unfold deepcopy_website.
  destruct (m_websites memo !! w) as [w'|] eqn:Hm.
  { exists w', memo, h. split_and!; first [done | apply memo_le_refl]. }
  assert (websites h !! w = Some x) as Hx by (eapply lookup_weaken; [done|apply Hcp]).
  rewrite (bind_Ok _ _ _ _ _ (read_website_Ok _ _ _ Hx)).
  unfold mbind at 1, M_bind, bind, alloc_website.
  set (w' := fresh (dom (websites h))).
  destruct (w_result x) as [r|] eqn:Er.
  - destruct (wf_result h0 Hwf w x r Hx0 Er) as [R HR0].
    assert (results h !! r = Some R) as HR by (eapply lookup_weaken; [done|apply Hcp]).
    unfold mbind, M_bind, bind.
    rewrite (deepcopy_result_run _ r _ R) by done. simpl.
    destruct (m_results memo !! r) as [r'|] eqn:Hmr.
    + rewrite write_website_Ok by (simpl; by rewrite lookup_insert_eq).
      eexists _, _, _. split; [reflexivity|].
      split_and!; simpl; try done.
      * unfold with_websites at 1. simpl. rewrite insert_insert_eq.
        apply (copying_add_website h0 h memo w x (Some r') Hcp Hx0 Hm).
        rewrite Er. by exists r'.
      * split; simpl; try done. by apply insert_subseteq.
      * apply lookup_insert_eq.
    + rewrite write_website_Ok by (simpl; by rewrite lookup_insert_eq).
      eexists _, _, _. split; [reflexivity|].
      split_and!; simpl; try done.
      * unfold with_websites at 1. simpl. rewrite insert_insert_eq.
        pose proof (copying_add_result h0 h memo r R Hcp HR0 Hmr) as Hcp1.
        apply (copying_add_website h0 _ _ w x (Some (fresh (dom (results h)))) Hcp1 Hx0 Hm).
        rewrite Er. eexists. split; [|done]. simpl. apply lookup_insert_eq.
      * split; simpl; try done; by apply insert_subseteq.
      * apply lookup_insert_eq.
  - eexists _, _, _. split; [reflexivity|].
    split_and!; simpl; try done.
    + pose proof (copying_add_website h0 h memo w x None Hcp Hx0 Hm) as Hcp1.
      rewrite Er in Hcp1. specialize (Hcp1 eq_refl).
      rewrite <- Er in Hcp1. by rewrite Website_eta in Hcp1.
    + split; simpl; try done. by apply insert_subseteq.
    + apply lookup_insert_eq.
Qed.

Lemma deepcopy_items_Ok h0 (items : list loc) : ∀ h memo,
  wf h0 → copying h0 h memo → (∀ w, w ∈ items → is_Some (websites h0 !! w)) →
  ∃ items' memo' h',
    deepcopy_items memo items h = Ok (items', memo') h' ∧
    copying h0 h' memo' ∧ memo_le memo memo' ∧
    Forall2 (λ w w', m_websites memo' !! w = Some w') items items' ∧
    lists h' = lists h ∧ pools h' = pools h.
Proof.
  induction items as [|a rest IH]; intros h memo Hwf Hcp Hall; simpl.
  - exists [], memo, h. split_and!; first [done | apply memo_le_refl].
  - destruct (deepcopy_website_Ok h0 h memo a Hwf Hcp (Hall a ltac:(by left)))
      as (a' & memo1 & h1 & Ha & Hcp1 & Hle1 & Hma & HL1 & HP1).
    rewrite (bind_Ok _ _ _ _ _ Ha).
    destruct (IH h1 memo1 Hwf Hcp1 (λ m Hm, Hall m ltac:(by right)))
      as (rest' & memo2 & h2 & Hrest & Hcp2 & Hle2 & HF & HL2 & HP2).
    rewrite (bind_Ok _ _ _ _ _ Hrest).
    exists (a' :: rest'), memo2, h2. split_and!; try done.
    + by eapply memo_le_trans.
    + constructor; [|done]. eapply lookup_weaken; [done|apply Hle2].
    + congruence.
    + congruence.
Qed.

Lemma copying_same_objects h0 h h' memo :
  websites h' = websites h → results h' = results h →
  copying h0 h memo → copying h0 h' memo.
Proof. intros Ew Er [? ? ? ? ? ? ?]. split; rewrite ?Ew, ?Er; done. Qed.

Lemma copying_init h0 h memo :
  websites h = websites h0 → results h = results h0 →
  m_websites memo = ∅ → m_results memo = ∅ → copying h0 h memo.
Proof.
  intros Ew Er Emw Emr. split; rewrite ?Ew, ?Er, ?Emw, ?Emr; try done.
  intros w' x' Hx. by left.
Qed.

(** The username the pool sets on a target *)
Definition with_username (u : string) (x : Website) : Website :=
  mkWebsite (w_name x) (Some u) (w_result x).

Lemma Website_set_username_Ok h w x u :
  websites h !! w = Some x →
  Website_set_username w u h
  = Ok tt (with_websites h (<[w := with_username u x]> (websites h))).
Proof.
  intros Hx. unfold Website_set_username.
  rewrite (bind_Ok _ _ _ _ _ (read_website_Ok _ _ _ Hx)).
  apply write_website_Ok. by eexists.
Qed.

Lemma set_all_usernames_Ok u (items : list loc) : ∀ h,
  all_present h items →
  ∃ h', forM_ items (λ site, Website_set_username site u) h = Ok tt h' ∧
        results h' = results h ∧ lists h' = lists h ∧ pools h' = pools h ∧
        ∀ w, websites h' !! w
             = if decide (w ∈ items) then with_username u <$> websites h !! w
               else websites h !! w.
Proof.
  induction items as [|a rest IH]; intros h Hall; simpl.
  - exists h. by split_and!.
  - destruct (Hall a ltac:(by left)) as [x Hx].
    rewrite (bind_Ok _ _ _ _ _ (Website_set_username_Ok h a x u Hx)).
    set (h1 := with_websites h (<[a:=with_username u x]> (websites h))).
    destruct (IH h1) as (h' & Hrun & Hr & Hl & Hp & Hw).
    { intros w Hw. destruct (Hall w ltac:(by right)) as [y Hy]. simpl.
      apply lookup_insert_is_Some. destruct (decide (a = w)); [by left|right]. by split. }
    exists h'. split_and!; try done.
    intros w. rewrite Hw. simpl.
    destruct (decide (a = w)) as [<-|Hne].
    + rewrite lookup_insert_eq, Hx. simpl.
      rewrite (decide_True (P:=a ∈ a :: rest)) by (by left). by case_decide.
    + rewrite lookup_insert_ne by done.
      case_decide as H1; case_decide as H2; try done.
      * exfalso. apply H2. by right.
      * apply elem_of_cons in H2 as [->|?]; done.
Qed.

Lemma set_username_Ok h self P items u :
  pools h !! self = Some P → lists h !! p_sites P = Some items →
  all_present h items →
  ∃ h', set_username self (VStr u) h = Ok tt h' ∧
        results h' = results h ∧ lists h' = lists h ∧ pools h' = pools h ∧
        ∀ w, websites h' !! w
             = if decide (w ∈ items) then with_username u <$> websites h !! w
               else websites h !! w.
Proof.
  intros HP HL Hall. simpl.
  rewrite (bind_Ok _ _ _ _ _ (sites_Ok _ _ _ _ HP HL)).
  by apply set_all_usernames_Ok.
Qed.

Lemma deepcopy_pool_Ok h self P items :
  wf h → pools h !! self = Some P → lists h !! p_sites P = Some items →
  ∃ h' items' memo,
    deepcopy_pool self h = Ok (fresh (dom (pools h))) h' ∧
    pools h' = <[fresh (dom (pools h)) :=
                   mkPool (fresh (dom (lists h))) (p_allow_duplicates P) (p_name P)]>
                 (pools h) ∧
    lists h' = <[fresh (dom (lists h)) := items']> (lists h) ∧
    copying h h' memo ∧
    Forall2 (λ w w', m_websites memo !! w = Some w') items items'.
Proof.
  intros Hwf HP HL.
  unfold deepcopy_pool, deepcopy_method, deepcopy_list, mbind, M_bind, bind.
  rewrite (read_pool_Ok _ _ _ HP). unfold alloc_pool. simpl. rewrite lookup_empty.
  set (q := fresh (dom (pools h))). set (l' := fresh (dom (lists h))).
  rewrite (read_list_Ok _ _ items) by done. unfold alloc_list. simpl. fold l'.
  match goal with |- context [deepcopy_items ?m items ?hh] =>
    destruct (deepcopy_items_Ok h items hh m Hwf) as
      (items' & memo' & h3 & Hrun & Hcp & Hle & HF & HL3 & HP3) end.
  { by apply copying_init. }
  { intros w Hw. by eapply wf_list. }
  rewrite Hrun. simpl in HL3, HP3.
  rewrite write_list_Ok by (rewrite HL3; by rewrite lookup_insert_eq).
  unfold ret at 1. cbn beta iota.
  rewrite write_pool_Ok by (simpl; rewrite HP3; by rewrite lookup_insert_eq).
  exists (with_pools (with_lists h3 (<[l':=items']> (lists h3)))
            (<[q:=mkPool l' (p_allow_duplicates P) (p_name P)]> (pools h3))), items', memo'.
  split_and!; simpl; try done.
  - rewrite HP3. apply insert_insert_eq.
  - rewrite HL3. apply insert_insert_eq.
  - by apply (copying_same_objects h h3).
Qed.

Definition username_of (h : Heap) (w : loc) : option (option string) :=
  w_username <$> websites h !! w.

(** The copy [w'] of target [w], made from store [h] into store [h1]: a new
    object with the same name and username, holding nothing if [w] holds
    nothing, and otherwise a new Result with the same content. *)
Definition copy_of (h h1 : Heap) (w w' : loc) : Prop :=
  websites h !! w' = None ∧
  name_of h1 w' = name_of h w ∧ is_Some (name_of h w) ∧
  username_of h1 w' = username_of h w ∧
  match last_result h w with
  | None => last_result h1 w' = None
  | Some r => ∃ r', last_result h1 w' = Some r' ∧ results h !! r' = None ∧
                    is_Some (results h !! r) ∧ results h1 !! r' = results h !! r
  end.

Lemma copying_copy_of h h1 memo w w' :
  copying h h1 memo → m_websites memo !! w = Some w' → copy_of h h1 w w'.
Proof.
  intros Hcp Hm.
  destruct (cp_memo_w _ _ _ Hcp w w' Hm) as (Hf & x & x' & Hx & Hx' & Hn & Hu & Hres).
  unfold copy_of, name_of, username_of, last_result. rewrite Hx, Hx'. simpl.
  split_and!; try done; try congruence.
  destruct (w_result x) as [r|]; [|done].
  destruct Hres as (r' & Hr & ->).
  destruct (cp_memo_r _ _ _ Hcp r r' Hr) as (Hrf & R & HR & HR').
  exists r'. rewrite HR, HR'. by split_and!.
Qed.

Lemma copying_sharing h h1 memo a b a' b' :
  copying h h1 memo →
  m_websites memo !! a = Some a' → m_websites memo !! b = Some b' →
  (a = b ↔ a' = b') ∧
  (last_result h a = last_result h b ↔ last_result h1 a' = last_result h1 b').
Proof.
  intros Hcp Ha Hb. split.
  - split; [intros ->; congruence|]. intros ->. by eapply cp_inj_w.
  - destruct (cp_memo_w _ _ _ Hcp a a' Ha) as (_ & x & x' & Hx & Hx' & _ & _ & Hra).
    destruct (cp_memo_w _ _ _ Hcp b b' Hb) as (_ & y & y' & Hy & Hy' & _ & _ & Hrb).
    unfold last_result. rewrite Hx, Hy, Hx', Hy'. simpl.
    destruct (w_result x) as [ra|], (w_result y) as [rb|].
    + destruct Hra as (ra' & Hma & ->). destruct Hrb as (rb' & Hmb & ->).
      split; intros [= E]; f_equal.
      * congruence.
      * subst. by eapply cp_inj_r.
    + destruct Hra as (ra' & Hma & ->). rewrite Hrb. done.
    + destruct Hrb as (rb' & Hmb & ->). rewrite Hra. done.
    + by rewrite Hra, Hrb.
Qed.

(** C9: a deep copy is a new pool with a new list of new targets, each the
    copy of the target at the same place; two places hold one target, or two
    targets hold one Result, in the copy exactly when they do in the
    original; setting the username through either pool leaves every target of
    the other as it was.  A shallow copy is a new pool on the same list and
    targets: a username set through either pool shows through the other. *)
Theorem copies_share_or_not (h : Heap) (self : loc) (P : PoolObj) (items : list loc)
    (u : string) :
  wf h → pools h !! self = Some P → lists h !! p_sites P = Some items →
  (∃ q h1 items',
     deepcopy_pool self h = Ok q h1 ∧
     pools h !! q = None ∧
     pool_items h1 q = Some items' ∧ pool_items h1 self = Some items ∧
     (∀ Q, pools h1 !! q = Some Q → lists h !! p_sites Q = None) ∧
     Forall2 (copy_of h h1) items items' ∧
     (∀ i j a b a' b',
        items !! i = Some a → items !! j = Some b →
        items' !! i = Some a' → items' !! j = Some b' →
        (a = b ↔ a' = b') ∧
        (last_result h a = last_result h b ↔ last_result h1 a' = last_result h1 b')) ∧
     (∃ h2, set_username q (VStr u) h1 = Ok tt h2 ∧
            ∀ w, is_Some (websites h !! w) → websites h2 !! w = websites h !! w) ∧
     (∃ h2, set_username self (VStr u) h1 = Ok tt h2 ∧
            ∀ w', w' ∈ items' → websites h2 !! w' = websites h1 !! w')) ∧
  (∃ q h1,
     copy_pool self h = Ok q h1 ∧
     pools h !! q = None ∧
     pool_items h1 q = Some items ∧ pool_items h1 self = Some items ∧
     (∃ h2, set_username q (VStr u) h1 = Ok tt h2 ∧
            pool_items h2 self = Some items ∧
            ∀ w, w ∈ items → username_of h2 w = Some (Some u)) ∧
     (∃ h2, set_username self (VStr u) h1 = Ok tt h2 ∧
            pool_items h2 q = Some items ∧
            ∀ w, w ∈ items → username_of h2 w = Some (Some u))).
Proof.
  intros Hwf HP HL.
  assert (all_present h items) as Hall by (intros w Hw; by eapply wf_list).
  pose proof (fresh_pool_None h) as Hq. pose proof (fresh_list_None h) as Hl.
  assert (self ≠ fresh (dom (pools h))) as Hne_q by (intros E; congruence).
  assert (p_sites P ≠ fresh (dom (lists h))) as Hne_l by (intros E; congruence).
  split.
  - destruct (deepcopy_pool_Ok h self P items Hwf HP HL)
      as (h1 & items' & memo & Hrun & HP1 & HL1 & Hcp & HF).
    set (q := fresh (dom (pools h))) in *. set (l' := fresh (dom (lists h))) in *.
    assert (pools h1 !! q = Some (mkPool l' (p_allow_duplicates P) (p_name P))) as HQ
      by (rewrite HP1; apply lookup_insert_eq).
    assert (lists h1 !! l' = Some items') as HL' by (rewrite HL1; apply lookup_insert_eq).
    assert (pools h1 !! self = Some P) as HP' by (rewrite HP1, lookup_insert_ne; done).
    assert (lists h1 !! p_sites P = Some items) as HLs
      by (rewrite HL1, lookup_insert_ne; done).
    assert (∀ w', w' ∈ items' → ∃ w, w ∈ items ∧ m_websites memo !! w = Some w') as Hsrc.
    { intros w' Hw'. apply list_elem_of_lookup in Hw' as [i Hi].
      destruct (Forall2_lookup_r _ _ _ _ _ HF Hi) as (w & Hw & Hm).
      exists w. split; [|done]. apply list_elem_of_lookup. by exists i. }
    assert (all_present h1 items') as Hall'.
    { intros w' Hw'. destruct (Hsrc w' Hw') as (w & _ & Hm).
      destruct (cp_memo_w _ _ _ Hcp w w' Hm) as (_ & x & x' & _ & Hx' & _). by eexists. }
    assert (all_present h1 items) as Hall1.
    { intros w Hw. destruct (Hall w Hw) as [x Hx]. exists x.
      eapply lookup_weaken; [done|apply Hcp]. }
    exists q, h1, items'. split_and!; try done.
    + unfold pool_items. rewrite HQ. done.
    + unfold pool_items. rewrite HP'. done.
    + intros Q HQ'. rewrite HQ in HQ'. by injection HQ' as <-.
    + eapply Forall2_impl; [exact HF|]. intros w w' Hm. by eapply copying_copy_of.
    + intros i j a b a' b' Ha Hb Ha' Hb'.
      eapply copying_sharing; [done| |].
      * exact (Forall2_lookup_lr (λ w w', m_websites memo !! w = Some w')
                 _ _ i _ _ HF Ha Ha').
      * exact (Forall2_lookup_lr (λ w w', m_websites memo !! w = Some w')
                 _ _ j _ _ HF Hb Hb').
    + destruct (set_username_Ok h1 q _ items' u HQ HL' Hall') as (h2 & Hset & _ & _ & _ & Hw2).
      exists h2. split; [done|]. intros w [x Hx]. rewrite Hw2.
      rewrite decide_False.
      * pose proof (lookup_weaken _ _ _ _ Hx (cp_websites _ _ _ Hcp)) as Hx1.
        by rewrite Hx, Hx1.
      * intros Hin. destruct (Hsrc w Hin) as (w0 & _ & Hm).
        destruct (cp_memo_w _ _ _ Hcp w0 w Hm) as (Hf & _). congruence.
    + destruct (set_username_Ok h1 self _ items u HP' HLs Hall1) as (h2 & Hset & _ & _ & _ & Hw2).
      exists h2. split; [done|]. intros w' Hin. rewrite Hw2.
      rewrite decide_False; [done|]. intros Hin0.
      destruct (Hsrc w' Hin) as (w0 & _ & Hm).
      destruct (cp_memo_w _ _ _ Hcp w0 w' Hm) as (Hf & _).
      destruct (Hall w' Hin0) as [x Hx]. congruence.
  - set (q := fresh (dom (pools h))) in *.
    set (h1 := with_pools h (<[q := P]> (pools h))).
    assert (copy_pool self h = Ok q h1) as Hrun.
    { unfold copy_pool. by rewrite (bind_Ok _ _ _ _ _ (read_pool_Ok _ _ _ HP)). }
    assert (pools h1 !! q = Some P) as HQ by apply lookup_insert_eq.
    assert (pools h1 !! self = Some P) as HP' by (simpl; rewrite lookup_insert_ne; done).
    assert (∀ p h2, pools h2 = pools h1 → lists h2 = lists h1 →
                    pools h1 !! p = Some P → pool_items h2 p = Some items) as Hitems.
    { intros p h2 E1 E2 Hp. unfold pool_items. rewrite E1, Hp. simpl. by rewrite E2. }
    assert (∀ p, pools h1 !! p = Some P →
              ∃ h2, set_username p (VStr u) h1 = Ok tt h2 ∧
                    pools h2 = pools h1 ∧ lists h2 = lists h1 ∧
                    ∀ w, w ∈ items → username_of h2 w = Some (Some u)) as Hset.
    { intros p Hp.
      destruct (set_username_Ok h1 p P items u Hp HL Hall) as (h2 & Hset & _ & E2 & E1 & Hw2).
      exists h2. split_and!; try done. intros w Hw. unfold username_of. rewrite Hw2.
      rewrite decide_True by done. destruct (Hall w Hw) as [x Hx]. simpl. by rewrite Hx. }
    exists q, h1. split_and!; try done.
    + by apply (Hitems q h1).
    + by apply (Hitems self h1).
    + destruct (Hset q HQ) as (h2 & Hrun2 & E1 & E2 & Hu). exists h2.
      split_and!; try done. by apply Hitems.
    + destruct (Hset self HP') as (h2 & Hrun2 & E1 & E2 & Hu). exists h2.
      split_and!; try done. by apply Hitems.
Qed.

(** ** The invariant of the store *)

(** No two targets at different places of [items] are equal. *)
Definition no_equal_targets (h : Heap) (items : list loc) : Prop :=
  ∀ i j a b, i ≠ j → items !! i = Some a → items !! j = Some b → ¬ equal_in h a b.

Definition names (h : Heap) (items : list loc) : list (option string) :=
  name_of h <$> items.

(** The invariant: no reference dangles; a pool that rejects duplicates holds
    targets with pairwise different names; pools that hold the same list
    object agree on the duplicate policy. *)
Record inv (h : Heap) : Prop := mk_inv {
  inv_wf : wf h;
  inv_unique : ∀ p P items,
    pools h !! p = Some P → p_allow_duplicates P = false →
    lists h !! p_sites P = Some items → NoDup (names h items);
  inv_policy : ∀ p q P Q,
    pools h !! p = Some P → pools h !! q = Some Q → p_sites P = p_sites Q →
    p_allow_duplicates P = p_allow_duplicates Q
}.

Lemma name_of_is_Some h w : is_Some (name_of h w) ↔ is_Some (websites h !! w).
Proof. unfold name_of. by rewrite fmap_is_Some. Qed.

Lemma NoDup_names_no_equal h items :
  NoDup (names h items) → no_equal_targets h items.
Proof.
  intros Hnd i j a b Hij Ha Hb He. apply equal_in_names in He as [_ He].
  apply Hij. eapply NoDup_lookup; [exact Hnd| |]; unfold names.
  - rewrite list_lookup_fmap, Ha. done.
  - rewrite list_lookup_fmap, Hb. simpl. by rewrite He.
Qed.

Lemma names_frame h h' (items : list loc) :
  all_present h items →
  (∀ w, is_Some (websites h !! w) → name_of h' w = name_of h w) →
  names h' items = names h items.
Proof.
  intros Hall Hn. unfold names. apply list_fmap_ext. intros i w Hw.
  apply Hn, Hall. apply list_elem_of_lookup. by exists i.
Qed.

Lemma inv_empty : inv empty_heap.
Proof. split; [split|..]; simpl; intros *; by rewrite lookup_empty. Qed.

Lemma inv_frame h h' :
  inv h → lists h' = lists h → pools h' = pools h →
  (∀ w, is_Some (websites h !! w) → name_of h' w = name_of h w) →
  (∀ w x r, websites h' !! w = Some x → w_result x = Some r →
            is_Some (results h' !! r)) →
  inv h'.
Proof.
  intros [Hwf Hu Hp] EL EP Hn Hres. split; [split|..].
  - intros p P. rewrite EP, EL. apply Hwf.
  - intros l items w. rewrite EL. intros Hl Hw.
    assert (is_Some (websites h !! w)) as Hin by (by eapply wf_list).
    apply name_of_is_Some. rewrite Hn by done. by apply name_of_is_Some.
  - done.
  - intros p P items. rewrite EP, EL. intros HP Ha HL.
    rewrite (names_frame h h'); [by eapply Hu| |done].
    intros w Hw. by eapply wf_list.
  - intros p q P Q. rewrite EP. apply Hp.
Qed.

Lemma inv_add h self P items o :
  inv h → pools h !! self = Some P → lists h !! p_sites P = Some items →
  is_Some (websites h !! o) →
  p_allow_duplicates P = true ∨ ¬ (∃ m, m ∈ items ∧ equal_in h m o) →
  inv (with_lists h (<[p_sites P := items ++ [o]]> (lists h))).
Proof.
  intros [Hwf Hu Hp] HP HL Ho Hcase. split; [split|..]; simpl.
  - intros p P' HP'. apply lookup_insert_is_Some'. right. by eapply wf_pool.
  - intros l its w Hl Hw. apply lookup_insert_Some in Hl as [[<- <-]|[Hne Hl]].
    + apply elem_of_app in Hw as [Hw|Hw]; [by eapply wf_list|].
      apply list_elem_of_singleton in Hw. by subst.
    + by eapply wf_list.
  - apply Hwf.
  - intros p P' its HP' Ha Hl. apply lookup_insert_Some in Hl as [[E <-]|[Hne Hl]].
    + assert (p_allow_duplicates P = false) as HaP.
      { rewrite <- Ha. by eapply Hp. }
      destruct Hcase as [?|Hno]; [congruence|].
      unfold names. rewrite fmap_app. apply NoDup_app. split_and!.
      * by eapply (Hu self).
      * intros n Hn Hn'. simpl in Hn'. apply list_elem_of_singleton in Hn'. subst n.
        apply list_elem_of_fmap in Hn as (m & Hm & Hin). apply Hno. exists m.
        split; [done|]. apply equal_in_names. split; [|done].
        apply name_of_is_Some. by eapply wf_list.
      * simpl. apply NoDup_singleton.
    + by eapply Hu.
  - done.
Qed.

(** References held in a value point to objects of the store. *)
Definition valid_value (h : Heap) (v : value) : Prop :=
  match v with
  | VWebsite w => is_Some (websites h !! w)
  | VResult r => is_Some (results h !! r)
  | VPool p => is_Some (pools h !! p)
  | VList l => is_Some (lists h !! l)
  | _ => True
  end.

Lemma add_total h self P items o :
  inv h → pools h !! self = Some P → lists h !! p_sites P = Some items →
  is_Some (websites h !! o) →
  add self (VWebsite o) h = Ok tt h ∨
  (add self (VWebsite o) h
   = Ok tt (with_lists h (<[p_sites P := items ++ [o]]> (lists h))) ∧
   inv (with_lists h (<[p_sites P := items ++ [o]]> (lists h))) ∧
   (p_allow_duplicates P = true ∨ ¬ (∃ m, m ∈ items ∧ equal_in h m o))).
Proof.
  intros Hinv HP HL Hv.
  assert (all_present h items) as Hall.
  { intros w Hw. eapply wf_list; [apply Hinv|done..]. }
  destruct (add_Ok h self P items o HP HL Hall Hv) as [H1 H2].
  destruct (p_allow_duplicates P) eqn:Ea.
  - right. split; [apply H2; by left|].
    split; [|by left]. eapply inv_add; eauto.
  - destruct (contains_Ok h self P items o HP HL Hall Hv) as (b & _ & Hiff).
    destruct b.
    + left. apply H1; [done|]. by apply Hiff.
    + assert (¬ ∃ m, m ∈ items ∧ equal_in h m o) as Hno.
      { intros Hex. apply Hiff in Hex. done. }
      right. split; [apply H2; by right|].
      split; [|by right]. eapply inv_add; eauto.
Qed.

Lemma inv_pool_like h q p0 P0 P' :
  inv h → pools h !! p0 = Some P0 →
  p_sites P' = p_sites P0 → p_allow_duplicates P' = p_allow_duplicates P0 →
  inv (with_pools h (<[q := P']> (pools h))).
Proof.
  intros [Hwf Hu Hp] HP0 Es Ea.
  assert (∀ p P, <[q:=P']> (pools h) !! p = Some P →
            ∃ p1 P1, pools h !! p1 = Some P1 ∧ p_sites P = p_sites P1 ∧
                     p_allow_duplicates P = p_allow_duplicates P1) as Hlike.
  { intros p P HP. apply lookup_insert_Some in HP as [[<- <-]|[Hne HP]].
    - by exists p0, P0.
    - by exists p, P. }
  split; [split|..]; simpl.
  - intros p P HP. destruct (Hlike p P HP) as (p1 & P1 & H1 & -> & _). by eapply wf_pool.
  - apply Hwf.
  - apply Hwf.
  - intros p P items HP Ha HL. destruct (Hlike p P HP) as (p1 & P1 & H1 & E1 & E2).
    eapply (Hu p1 P1); [done|congruence|]. by rewrite <- E1.
  - intros p p' P Q HP HQ E.
    destruct (Hlike p P HP) as (p1 & P1 & H1 & E1 & E2).
    destruct (Hlike p' Q HQ) as (p2 & P2 & H2 & E3 & E4).
    rewrite E2, E4. eapply Hp; [done..|]. congruence.
Qed.

Lemma inv_rebind h p l' items' a n :
  inv h → lists h !! l' = None → all_present h items' →
  (a = false → NoDup (names h items')) →
  inv (with_pools (with_lists h (<[l' := items']> (lists h)))
                  (<[p := mkPool l' a n]> (pools h))).
Proof.
  intros [Hwf Hu Hp] Hl' Hall Hnd.
  assert (∀ q Q, pools h !! q = Some Q → p_sites Q ≠ l') as Hold.
  { intros q Q HQ E. destruct (wf_pool h Hwf q Q HQ) as [x Hx]. congruence. }
  split; [split|..]; simpl.
  - intros q Q HQ. apply lookup_insert_is_Some'.
    apply lookup_insert_Some in HQ as [[<- <-]|[Hne HQ]]; [by left|].
    right. by eapply wf_pool.
  - intros l items w HL Hw. apply lookup_insert_Some in HL as [[<- <-]|[Hne HL]].
    + by apply Hall.
    + by eapply wf_list.
  - apply Hwf.
  - intros q Q items HQ Ha HL.
    apply lookup_insert_Some in HQ as [[<- <-]|[Hne HQ]]; simpl in *.
    + rewrite lookup_insert_eq in HL. injection HL as <-. by apply Hnd.
    + rewrite lookup_insert_ne in HL by (intros E; by eapply Hold). by eapply Hu.
  - intros q q' Q Q' HQ HQ' E.
    apply lookup_insert_Some in HQ as [[<- <-]|[Hne HQ]];
      apply lookup_insert_Some in HQ' as [[<- <-]|[Hne' HQ']]; simpl in *; try done.
    + exfalso. by eapply Hold.
    + exfalso. by eapply Hold.
    + by eapply Hp.
Qed.

Lemma copying_inv h h1 memo :
  inv h → copying h h1 memo → lists h1 = lists h → pools h1 = pools h → inv h1.
Proof.
  intros Hinv Hcp EL EP. apply (inv_frame h h1 Hinv EL EP).
  - intros w [x Hx]. unfold name_of. rewrite Hx.
    by rewrite (lookup_weaken _ _ _ _ Hx (cp_websites _ _ _ Hcp)).
  - intros w' x' r' Hx' Hr'.
    destruct (cp_origin _ _ _ Hcp w' x' Hx') as [H0|[w Hm]].
    + destruct (wf_result h (inv_wf h Hinv) w' x' r' H0 Hr') as [R HR].
      exists R. eapply lookup_weaken; [done|apply Hcp].
    + destruct (cp_memo_w _ _ _ Hcp w w' Hm) as (_ & x & x'' & Hx & Hx'' & _ & _ & Hres).
      assert (x'' = x') as -> by congruence.
      destruct (w_result x) as [r|]; [|congruence].
      destruct Hres as (r'' & Hmr & Hr''). assert (r'' = r') as -> by congruence.
      destruct (cp_memo_r _ _ _ Hcp r r' Hmr) as (_ & R & _ & HR). by exists R.
Qed.

Lemma Heap_eq (h1 h2 : Heap) :
  websites h1 = websites h2 → results h1 = results h2 →
  lists h1 = lists h2 → pools h1 = pools h2 → h1 = h2.
Proof. destruct h1, h2. simpl. by intros -> -> -> ->. Qed.

Lemma copy_names h h1 memo (items items' : list loc) :
  copying h h1 memo →
  Forall2 (λ w w', m_websites memo !! w = Some w') items items' →
  names h1 items' = names h items.
Proof.
  intros Hcp HF. unfold names. induction HF as [|w w' ws ws' Hm _ IH]; [done|].
  simpl. f_equal; [|done]. by destruct (copying_copy_of h h1 memo w w' Hcp Hm) as (_ & ? & _).
Qed.

Lemma inv_deepcopy h self P items :
  inv h → pools h !! self = Some P → lists h !! p_sites P = Some items →
  ∃ q h', deepcopy_pool self h = Ok q h' ∧ inv h'.
Proof.
  intros Hinv HP HL.
  destruct (deepcopy_pool_Ok h self P items (inv_wf h Hinv) HP HL)
    as (h' & items' & memo & Hrun & HP' & HL' & Hcp & HF).
  exists (fresh (dom (pools h))), h'. split; [done|].
  set (hm := mkHeap (websites h') (results h') (lists h) (pools h)).
  assert (inv hm) as Hm.
  { apply (copying_inv h hm memo Hinv); [|done..].
    by apply (copying_same_objects h h'). }
  assert (h' = with_pools (with_lists hm (<[fresh (dom (lists h)) := items']> (lists hm)))
                 (<[fresh (dom (pools h)) :=
                      mkPool (fresh (dom (lists h))) (p_allow_duplicates P) (p_name P)]>
                    (pools hm))) as Eh.
  { by apply Heap_eq. }
  rewrite Eh. apply inv_rebind; [done|apply (fresh_list_None h)| |].
  - intros w' Hw'. apply list_elem_of_lookup in Hw' as [i Hi].
    destruct (Forall2_lookup_r _ _ _ _ _ HF Hi) as (w & _ & Hmw).
    destruct (cp_memo_w _ _ _ Hcp w w' Hmw) as (_ & x & x' & _ & Hx' & _).
    by exists x'.
  - intros Ha.
    assert (names hm items' = names h' items') as -> by done.
    rewrite (copy_names h h' memo items items' Hcp HF).
    by eapply (inv_unique h Hinv self P).
Qed.

Lemma copy_if_Ok h _deepcopy site :
  inv h → is_Some (websites h !! site) →
  ∃ site' h1,
    copy_if _deepcopy site h = Ok site' h1 ∧ inv h1 ∧
    lists h1 = lists h ∧ pools h1 = pools h ∧
    (∀ w, is_Some (websites h !! w) → name_of h1 w = name_of h w) ∧
    is_Some (websites h1 !! site') ∧ name_of h1 site' = name_of h site.
Proof.
  intros Hinv Hs. destruct _deepcopy; simpl.
  - destruct (deepcopy_website_Ok h h empty_memo site (inv_wf h Hinv)
                (copying_start h ∅ ∅) Hs)
      as (site' & memo' & h1 & Hrun & Hcp & _ & Hm & EL & EP).
    exists site', h1. rewrite (bind_Ok _ _ _ _ _ Hrun).
    destruct (copying_copy_of h h1 memo' site site' Hcp Hm) as (_ & Hn & Hsome & _).
    split_and!; try done.
    + by eapply copying_inv.
    + intros w [x Hx]. unfold name_of. rewrite Hx.
      by rewrite (lookup_weaken _ _ _ _ Hx (cp_websites _ _ _ Hcp)).
    + apply name_of_is_Some. by rewrite Hn.
  - exists site, h. by split_and!.
Qed.

Lemma equal_in_refl h w : is_Some (websites h !! w) → equal_in h w w.
Proof. intros [x Hx]. exists x, x. split_and!; try done. by apply Website_eq_name. Qed.

(** One turn of the loop of [extend]: the target, or its copy, is appended to
    the pool's list or left out. *)
Lemma extend_step h self P _deepcopy site :
  inv h → pools h !! self = Some P → is_Some (websites h !! site) →
  ∃ site' h1 h2 items,
    copy_if _deepcopy site h = Ok site' h1 ∧
    add self (VWebsite site') h1 = Ok tt h2 ∧
    inv h2 ∧ pools h2 = pools h ∧ lists h !! p_sites P = Some items ∧
    (lists h2 = lists h ∨
     (lists h2 = <[p_sites P := items ++ [site']]> (lists h) ∧
      (p_allow_duplicates P = true ∨ ¬ (∃ m, m ∈ items ∧ equal_in h m site)))).
Proof.
  intros Hinv HP Hs.
  destruct (copy_if_Ok h _deepcopy site Hinv Hs)
    as (site' & h1 & Hcopy & Hinv1 & EL & EP & Hn & Hs' & Hns).
  destruct (wf_pool h (inv_wf h Hinv) self P HP) as [items HL].
  assert (pools h1 !! self = Some P) as HP1 by by rewrite EP.
  assert (lists h1 !! p_sites P = Some items) as HL1 by by rewrite EL.
  assert (add self (VWebsite site') h1 = Ok tt h1 ∨
          (add self (VWebsite site') h1
           = Ok tt (with_lists h1 (<[p_sites P := items ++ [site']]> (lists h1))) ∧
           inv (with_lists h1 (<[p_sites P := items ++ [site']]> (lists h1))) ∧
           (p_allow_duplicates P = true ∨ ¬ (∃ m, m ∈ items ∧ equal_in h1 m site'))))
    as [Hadd|(Hadd & Hinv2 & Hcase)].
  { apply (add_total h1 self P items site' Hinv1 HP1 HL1 Hs'). }
  - exists site', h1, h1, items. by split_and!; try done; left.
  - eexists site', h1, _, items. split_and!; try done. right. simpl. rewrite EL.
    split; [done|]. destruct Hcase as [?|Hno]; [by left|right].
    intros (m & Hm & He). apply Hno. exists m. split; [done|].
    apply equal_in_names. apply equal_in_names in He as [Hsome He].
    assert (is_Some (websites h !! m)) as Hpm by by apply name_of_is_Some.
    rewrite (Hn m Hpm), Hns. done.
Qed.

Lemma extend_loop_inv self P source _deepcopy : ∀ fuel i h,
  inv h → pools h !! self = Some P → is_Some (lists h !! source) →
  match extend_loop fuel self source _deepcopy i h with
  | Ok _ h' => inv h' ∧ pools h' = pools h
  | Raise _ _ | Stuck => False
  | Diverge => True
  end.
Proof.
  induction fuel as [|fuel IH]; intros i h Hinv HP [src Hsrc]; simpl; [done|].
  rewrite (bind_Ok _ _ _ _ _ (read_list_Ok _ _ _ Hsrc)).
  destruct (src !! i) as [site|] eqn:Hi; [|done].
  assert (is_Some (websites h !! site)) as Hs.
  { eapply wf_list; [apply Hinv|done|]. apply list_elem_of_lookup. by exists i. }
  destruct (extend_step h self P _deepcopy site Hinv HP Hs)
    as (site' & h1 & h2 & items & Hcopy & Hadd & Hinv2 & EP & HL & Hlists).
  rewrite (bind_Ok _ _ _ _ _ Hcopy), (bind_Ok _ _ _ _ _ Hadd).
  assert (pools h2 !! self = Some P) as HP2 by by rewrite EP.
  assert (is_Some (lists h2 !! source)) as Hsrc2.
  { destruct Hlists as [->|[-> _]]; [by eexists|].
    apply lookup_insert_is_Some'. right. by eexists. }
  specialize (IH (S i) h2 Hinv2 HP2 Hsrc2).
  destruct (extend_loop fuel self source _deepcopy (S i) h2); try done.
  destruct IH as [? ?]. split; [done|congruence].
Qed.

(** With enough fuel the loop ends, unless the pool extends itself while it
    allows duplicates. *)
Lemma extend_loop_Ok self P source src _deepcopy : ∀ fuel i h,
  inv h → pools h !! self = Some P → lists h !! source = Some src →
  (source = p_sites P → p_allow_duplicates P = false) →
  length src - i < fuel →
  ∃ h', extend_loop fuel self source _deepcopy i h = Ok tt h' ∧
        lists h' !! source = Some src.
Proof.
  induction fuel as [|fuel IH]; intros i h Hinv HP Hsrc Halias Hfuel; [lia|]. simpl.
  rewrite (bind_Ok _ _ _ _ _ (read_list_Ok _ _ _ Hsrc)).
  destruct (src !! i) as [site|] eqn:Hi; [|by exists h].
  assert (site ∈ src) as Hin by (apply list_elem_of_lookup; by exists i).
  assert (is_Some (websites h !! site)) as Hs.
  { eapply wf_list; [apply Hinv|done..]. }
  destruct (extend_step h self P _deepcopy site Hinv HP Hs)
    as (site' & h1 & h2 & items & Hcopy & Hadd & Hinv2 & EP & HL & Hlists).
  rewrite (bind_Ok _ _ _ _ _ Hcopy), (bind_Ok _ _ _ _ _ Hadd).
  assert (pools h2 !! self = Some P) as HP2 by by rewrite EP.
  assert (lists h2 !! source = Some src) as Hsrc2.
  { destruct Hlists as [->|[-> Hcase]]; [done|].
    destruct (decide (source = p_sites P)) as [E|Hne].
    - exfalso. specialize (Halias E). destruct Hcase as [?|Hno]; [congruence|].
      apply Hno. exists site. subst source. assert (items = src) as -> by congruence.
      split; [done|]. by apply equal_in_refl.
    - by rewrite lookup_insert_ne. }
  apply (IH (S i) h2 Hinv2 HP2 Hsrc2 Halias).
  apply lookup_lt_Some in Hi. lia.
Qed.

(** ** Programs over pools *)

(** What a program does with targets and pools.  [OpWebsite] and [OpResult]
    stand for the collaborators: a target is built, a probe leaves its Result
    on its target. *)
Inductive op :=
| OpWebsite (n : string)
| OpResult (w : loc) (r : Result)
| OpInit (sites_ : list value) (name_ : value) (allow_duplicates : bool)
| OpAdd (self : loc) (website : value)
| OpExtend (self : loc) (pool : value) (_deepcopy : bool)
| OpRemove (self : loc) (where_ : predicate)
| OpSetName (self : loc) (name_ : value)
| OpSetUsername (self : loc) (username : value)
| OpCopy (self : loc)
| OpDeepcopy (self : loc).

Definition store_result (w : loc) (r : Result) : M unit :=
  x ← read_website w;
  r' ← alloc_result r;
  write_website w (mkWebsite (w_name x) (w_username x) (Some r')).

Definition run_op (fuel : nat) (o : op) : M unit :=
  match o with
  | OpWebsite n => alloc_website (mkWebsite n None None);; ret tt
  | OpResult w r => store_result w r
  | OpInit sites_ name_ allow_duplicates => init sites_ name_ allow_duplicates;; ret tt
  | OpAdd self website => add self website
  | OpExtend self pool _deepcopy => extend fuel self pool _deepcopy
  | OpRemove self where_ => remove self where_
  | OpSetName self name_ => set_name self name_
  | OpSetUsername self username => set_username self username
  | OpCopy self => copy_pool self;; ret tt
  | OpDeepcopy self => deepcopy_pool self;; ret tt
  end.

(** The objects an operation names exist. *)
Definition valid_op (h : Heap) (o : op) : Prop :=
  match o with
  | OpWebsite _ => True
  | OpResult w _ => is_Some (websites h !! w)
  | OpInit sites_ _ _ => Forall (valid_value h) sites_
  | OpAdd self v | OpExtend self v _ | OpSetName self v | OpSetUsername self v =>
      is_Some (pools h !! self) ∧ valid_value h v
  | OpRemove self _ | OpCopy self | OpDeepcopy self => is_Some (pools h !! self)
  end.

Definition outcome_inv {A} (r : res A) : Prop :=
  match r with
  | Ok _ h' | Raise _ h' => inv h'
  | Stuck | Diverge => False
  end.

Lemma outcome_inv_then_ret {A} (m : M A) h :
  outcome_inv (m h) → outcome_inv ((m ;; ret tt) h).
Proof. unfold mbind, M_bind, bind. by destruct (m h). Qed.

(** The targets among the values exist. *)
Definition targets_exist (h : Heap) (vs : list value) : Prop :=
  ∀ o, VWebsite o ∈ vs → is_Some (websites h !! o).

Lemma valid_targets_exist h vs : Forall (valid_value h) vs → targets_exist h vs.
Proof. intros HF o Ho. by apply (proj1 (Forall_forall _ _) HF (VWebsite o)). Qed.

Lemma add_all_inv self P : ∀ (sites_ : list value) h,
  inv h → pools h !! self = Some P → targets_exist h sites_ →
  outcome_inv (forM_ sites_ (add self) h).
Proof.
  induction sites_ as [|v rest IH]; intros h Hinv HP Hval; simpl; [done|].
  assert (targets_exist h rest) as Hrest.
  { intros o Ho. apply Hval. by right. }
  destruct (wf_pool h (inv_wf h Hinv) self P HP) as [items HL].
  destruct v as [| | | | |o| | | |]; try exact Hinv.
  assert (is_Some (websites h !! o)) as Hv by (apply Hval; by left).
  destruct (add_total h self P items o Hinv HP HL Hv) as [Hadd|(Hadd & Hinv' & _)];
    rewrite (bind_Ok _ _ _ _ _ Hadd).
  - by apply IH.
  - by apply IH.
Qed.

Lemma init_inv sites_ name_ allow_duplicates h :
  inv h → Forall (valid_value h) sites_ →
  outcome_inv (init sites_ name_ allow_duplicates h).
Proof.
  intros Hinv Hval. unfold init.
  unfold mbind at 1, M_bind at 1, bind at 1, alloc_list.
  unfold mbind at 1, M_bind at 1, bind at 1, alloc_pool. cbn [lists pools with_lists].
  set (l := fresh (dom (lists h))). set (p := fresh (dom (pools h))).
  set (h2 := with_pools (with_lists h (<[l:=[]]> (lists h)))
               (<[p:=mkPool l allow_duplicates None]> (pools h))).
  assert (inv h2) as Hinv2.
  { apply inv_rebind; [done|apply fresh_list_None| |].
    - intros w Hw. by apply elem_of_nil in Hw.
    - intros _. apply NoDup_nil_2. }
  assert (pools h2 !! p = Some (mkPool l allow_duplicates None)) as HP2
    by apply lookup_insert_eq.
  destruct name_ as [| | | |s| | | | |]; try exact Hinv2.
  set (h3 := with_pools h2 (<[p:=mkPool l allow_duplicates (Some s)]> (pools h2))).
  assert (set_name p (VStr s) h2 = Ok tt h3) as Hset.
  { unfold set_name. rewrite (bind_Ok _ _ _ _ _ (read_pool_Ok _ _ _ HP2)).
    apply write_pool_Ok. by eexists. }
  rewrite (bind_Ok _ _ _ _ _ Hset).
  assert (inv h3) as Hinv3.
  { by apply (inv_pool_like h2 p p (mkPool l allow_duplicates None)). }
  assert (outcome_inv (forM_ sites_ (add p) h3)) as Hout.
  { apply (add_all_inv p (mkPool l allow_duplicates (Some s))); [done| |].
    - apply lookup_insert_eq.
    - exact (valid_targets_exist h sites_ Hval). }
  unfold mbind, M_bind, bind. by destruct (forM_ sites_ (add p) h3).
Qed.

(** A pool that allows duplicates and extends itself never comes to the end
    of its list: every turn of the loop appends one more target to the list
    the loop walks. *)
Lemma extend_self_diverges self P _deepcopy : ∀ fuel i h items,
  inv h → pools h !! self = Some P → p_allow_duplicates P = true →
  lists h !! p_sites P = Some items → i < length items →
  extend_loop fuel self (p_sites P) _deepcopy i h = Diverge.
Proof.
  induction fuel as [|fuel IH]; intros i h items Hinv HP Ha HL Hi; [done|]. simpl.
  rewrite (bind_Ok _ _ _ _ _ (read_list_Ok _ _ _ HL)).
  destruct (lookup_lt_is_Some_2 items i Hi) as [site Hsite]. rewrite Hsite.
  assert (is_Some (websites h !! site)) as Hs.
  { eapply wf_list; [apply Hinv|done|]. apply list_elem_of_lookup. by exists i. }
  destruct (copy_if_Ok h _deepcopy site Hinv Hs)
    as (site' & h1 & Hcopy & Hinv1 & EL & EP & _ & Hs' & _).
  rewrite (bind_Ok _ _ _ _ _ Hcopy).
  assert (pools h1 !! self = Some P) as HP1 by by rewrite EP.
  assert (lists h1 !! p_sites P = Some items) as HL1 by by rewrite EL.
  assert (all_present h1 items) as Hall1.
  { intros w Hw. eapply wf_list; [apply Hinv1|done..]. }
  destruct (add_Ok h1 self P items site' HP1 HL1 Hall1 Hs') as [_ Hadd].
  rewrite (bind_Ok _ _ _ _ _ (Hadd (or_introl Ha))).
  apply (IH (S i) _ (items ++ [site'])); try done.
  - eapply inv_add; eauto.
  - simpl. apply lookup_insert_eq.
  - rewrite length_app. simpl. lia.
Qed.

Lemma website_inv h n : inv h → inv (with_websites h (<[fresh (dom (websites h)) :=
                                                      mkWebsite n None None]> (websites h))).
Proof.
  intros Hinv. pose proof (fresh_website_None h) as Hf.
  apply (inv_frame h); [done..| |]; simpl.
  - intros w [x Hx]. unfold name_of. simpl. rewrite lookup_insert_ne; [done|].
    intros <-. congruence.
  - intros w x r Hx Hr. apply lookup_insert_Some in Hx as [[<- <-]|[_ Hx]]; [done|].
    by eapply wf_result; [apply Hinv|..].
Qed.

Lemma store_result_inv h w r :
  inv h → is_Some (websites h !! w) → outcome_inv (store_result w r h).
Proof.
  intros Hinv [x Hx]. unfold store_result.
  rewrite (bind_Ok _ _ _ _ _ (read_website_Ok _ _ _ Hx)).
  unfold mbind, M_bind, bind, alloc_result.
  rewrite write_website_Ok by (by eexists). simpl.
  pose proof (fresh_result_None h) as Hf.
  apply (inv_frame h); [done..| |]; simpl.
  - intros w' [x' Hx']. unfold name_of. simpl.
    destruct (decide (w = w')) as [<-|Hne].
    + rewrite lookup_insert_eq, Hx. done.
    + by rewrite lookup_insert_ne.
  - intros w' x' r' Hx' Hr'. apply lookup_insert_Some in Hx' as [[<- <-]|[_ Hx']].
    + simpl in Hr'. injection Hr' as <-. rewrite lookup_insert_eq. by eexists.
    + destruct (wf_result h (inv_wf h Hinv) w' x' r' Hx' Hr') as [R HR].
      exists R. rewrite lookup_insert_ne; [done|]. intros <-. congruence.
Qed.

Lemma remove_inv h self f :
  inv h → is_Some (pools h !! self) → outcome_inv (remove self f h).
Proof.
  intros Hinv [P HP]. destruct (wf_pool h (inv_wf h Hinv) self P HP) as [items HL].
  assert (all_present h items) as Hall.
  { intros w Hw. eapply wf_list; [apply Hinv|done..]. }
  rewrite (remove_Ok h self P items f HP HL Hall). simpl.
  apply inv_rebind; [done|apply fresh_list_None| |].
  - intros w Hw. apply Hall. by apply list_elem_of_filter in Hw as [_ Hw].
  - intros Ha. eapply sublist_NoDup; [by eapply (inv_unique h Hinv self P)|].
    apply fmap_sublist, sublist_filter.
Qed.

Lemma set_name_inv h self v :
  inv h → is_Some (pools h !! self) → outcome_inv (set_name self v h).
Proof.
  intros Hinv [P HP]. destruct v as [| | | |s| | | | |]; try exact Hinv.
  unfold set_name. rewrite (bind_Ok _ _ _ _ _ (read_pool_Ok _ _ _ HP)).
  rewrite write_pool_Ok by (by eexists). simpl.
  by apply (inv_pool_like h self self P).
Qed.

Lemma set_username_inv h self v :
  inv h → is_Some (pools h !! self) → outcome_inv (set_username self v h).
Proof.
  intros Hinv [P HP]. destruct v as [| | | |u| | | | |]; try exact Hinv.
  destruct (wf_pool h (inv_wf h Hinv) self P HP) as [items HL].
  assert (all_present h items) as Hall.
  { intros w Hw. eapply wf_list; [apply Hinv|done..]. }
  destruct (set_username_Ok h self P items u HP HL Hall) as (h' & Hrun & ER & EL & EP & Hw).
  rewrite Hrun. simpl. apply (inv_frame h); [done..| |].
  - intros w [x Hx]. unfold name_of. rewrite Hw, Hx. by case_decide.
  - intros w x r Hx Hr. rewrite Hw in Hx. rewrite ER.
    destruct (websites h !! w) as [y|] eqn:Hy.
    + eapply (wf_result h (inv_wf h Hinv) w y r Hy).
      case_decide; simpl in Hx; injection Hx as <-; done.
    + by case_decide.
Qed.

Lemma copy_pool_inv h self :
  inv h → is_Some (pools h !! self) → outcome_inv (copy_pool self h).
Proof.
  intros Hinv [P HP]. unfold copy_pool.
  rewrite (bind_Ok _ _ _ _ _ (read_pool_Ok _ _ _ HP)). simpl.
  by apply (inv_pool_like h _ self P).
Qed.

Lemma add_inv h self v :
  inv h → is_Some (pools h !! self) → valid_value h v → outcome_inv (add self v h).
Proof.
  intros Hinv [P HP] Hv. destruct (wf_pool h (inv_wf h Hinv) self P HP) as [items HL].
  destruct v as [| | | | |o| | | |]; try exact Hinv.
  by destruct (add_total h self P items o Hinv HP HL Hv) as [->|(-> & ? & _)].
Qed.

(** Every operation on a store that satisfies the invariant ends in a store
    that satisfies it, whether it returns or raises; only [extend] can run
    out of fuel. *)
Lemma step_inv fuel o h :
  inv h → valid_op h o →
  match run_op fuel o h with
  | Ok _ h' | Raise _ h' => inv h'
  | Stuck => False
  | Diverge => ∃ self q d, o = OpExtend self (VPool q) d
  end.
Proof.
  intros Hinv Hval.
  assert (∀ r : res unit, outcome_inv r →
            match r with
            | Ok _ h' | Raise _ h' => inv h'
            | Stuck => False
            | Diverge => ∃ self q d, o = OpExtend self (VPool q) d
            end) as Hweak by (by intros []).
  destruct o as [n|w r|ss nm a|self v|self v d|self f|self v|self v|self|self]; simpl in *.
  - by apply website_inv.
  - by apply Hweak, store_result_inv.
  - by apply Hweak, outcome_inv_then_ret, init_inv.
  - destruct Hval. by apply Hweak, add_inv.
  - destruct Hval as [[P HP] Hv].
    destruct v as [| | | | | | |q| |]; try exact Hinv.
    destruct Hv as [Q HQ]. unfold extend.
    rewrite (bind_Ok _ _ _ _ _ (read_pool_Ok _ _ _ HQ)).
    pose proof (extend_loop_inv self P (p_sites Q) d fuel 0 h Hinv HP
                  (wf_pool h (inv_wf h Hinv) q Q HQ)) as Hloop.
    destruct (extend_loop fuel self (p_sites Q) d 0 h); try done.
    + by destruct Hloop.
    + by exists self, q, d.
  - by apply Hweak, remove_inv.
  - destruct Hval. by apply Hweak, set_name_inv.
  - destruct Hval. by apply Hweak, set_username_inv.
  - by apply Hweak, outcome_inv_then_ret, copy_pool_inv.
  - destruct Hval as [P HP].
    destruct (wf_pool h (inv_wf h Hinv) self P HP) as [items HL].
    destruct (inv_deepcopy h self P items Hinv HP HL) as (q & h' & Hrun & Hinv').
    by rewrite (bind_Ok _ _ _ _ _ Hrun).
Qed.

(** The stores a program can reach from the empty one.  An operation that
    raises leaves a store behind as well, and the program may go on. *)
Inductive reachable : Heap → Prop :=
| reachable_empty : reachable empty_heap
| reachable_returns h fuel o a h' :
    reachable h → valid_op h o → run_op fuel o h = Ok a h' → reachable h'
| reachable_raises h fuel o e h' :
    reachable h → valid_op h o → run_op fuel o h = Raise e h' → reachable h'.

Lemma reachable_inv h : reachable h → inv h.
Proof.
  induction 1 as [|h fuel o a h' _ IH Hval Hrun|h fuel o e h' _ IH Hval Hrun].
  - apply inv_empty.
  - pose proof (step_inv fuel o h IH Hval) as Hstep. by rewrite Hrun in Hstep.
  - pose proof (step_inv fuel o h IH Hval) as Hstep. by rewrite Hrun in Hstep.
Qed.

(** The store after an operation, whether it returned or raised *)
Definition after (fuel : nat) (o : op) (h : Heap) : Heap :=
  match run_op fuel o h with
  | Ok _ h' | Raise _ h' => h'
  | Stuck | Diverge => h
  end.

Lemma reachable_after fuel o h : reachable h → valid_op h o → reachable (after fuel o h).
Proof.
  intros Hr Hval. unfold after. destruct (run_op fuel o h) as [a h'|e h'| |] eqn:Hrun.
  - by eapply reachable_returns.
  - by eapply reachable_raises.
  - done.
  - done.
Qed.

(** Every operation ends, given fuel, unless it is an [extend] of a pool that
    allows duplicates. *)
Lemma run_op_total h o :
  inv h → valid_op h o →
  (∀ self v d P, o = OpExtend self v d → pools h !! self = Some P →
                 p_allow_duplicates P = false) →
  ∃ fuel h', (∃ a, run_op fuel o h = Ok a h') ∨ (∃ e, run_op fuel o h = Raise e h').
Proof.
  intros Hinv Hval Hrej.
  assert ((∀ self q d, o ≠ OpExtend self (VPool q) d) →
          ∃ fuel h', (∃ a, run_op fuel o h = Ok a h') ∨ (∃ e, run_op fuel o h = Raise e h'))
    as Hother.
  { intros Hne. exists 0. pose proof (step_inv 0 o h Hinv Hval) as Hstep.
    destruct (run_op 0 o h) as [a h'|e h'| |]; [by eauto|by eauto|done|].
    destruct Hstep as (self & q & d & ->). by destruct (Hne self q d). }
  destruct o as [| | | |self v d| | | | |]; try (by apply Hother).
  destruct v as [| | | | | | |q| |]; try (by apply Hother).
  destruct Hval as [[P HP] [Q HQ]].
  destruct (wf_pool h (inv_wf h Hinv) q Q HQ) as [src Hsrc].
  destruct (extend_loop_Ok self P (p_sites Q) src d (S (length src)) 0 h Hinv HP Hsrc)
    as (h' & Hrun & _).
  { intros _. by eapply Hrej. }
  { lia. }
  exists (S (length src)), h'. left. exists tt. unfold run_op, extend.
  by rewrite (bind_Ok _ _ _ _ _ (read_pool_Ok _ _ _ HQ)).
Qed.

(** C5: in every store a program reaches by building targets and pools and
    calling [add], [extend] (with or without copies), [remove], the setters
    and the copies, a pool that rejects duplicates holds no two equal
    targets; and every operation on such a store ends, in a store where this
    holds again, unless it extends a pool that allows duplicates. *)
Theorem reject_pools_hold_no_equal_targets (h : Heap) :
  reachable h →
  (∀ p P items,
     pools h !! p = Some P → p_allow_duplicates P = false →
     lists h !! p_sites P = Some items → no_equal_targets h items) ∧
  (∀ o, valid_op h o →
     (∀ self v d P, o = OpExtend self v d → pools h !! self = Some P →
                    p_allow_duplicates P = false) →
     ∃ fuel h', ((∃ a, run_op fuel o h = Ok a h') ∨ (∃ e, run_op fuel o h = Raise e h')) ∧
                reachable h').
Proof.
  intros Hr. pose proof (reachable_inv h Hr) as Hinv. split.
  - intros p P items HP Ha HL. apply NoDup_names_no_equal. by eapply inv_unique.
  - intros o Hval Hrej.
    destruct (run_op_total h o Hinv Hval Hrej) as (fuel & h' & [[a Hrun]|[e Hrun]]);
      exists fuel, h'; (split; [by eauto|]).
    + by eapply reachable_returns.
    + by eapply reachable_raises.
Qed.

(** * [start_requests]: the dispatch protocol

    The generator and the probes are coroutines on one event loop: each runs
    until it awaits, and the loop picks who runs next.  The model is a
    transition system over what the generator shares with the probes (the
    queue, the tasks behind [asyncio.gather]) and what the caller has
    received; an event is what the loop lets happen next. *)
Module Dispatch.

#[local] Open Scope nat_scope.

(** Modelled from the spec: [Website.send_request(session, timeout, callback)],
    which is not part of the sources at hand.  The spec has a probe invoke
    its callback at most once and then return, or raise. *)
Inductive ending := Returns | Raises.

Record plan := mkPlan {
  emits : option Result;
  ends  : ending
}.

(** A child of [asyncio.gather], one per coroutine of [requests] *)
Inductive task :=
| Pending (emit : option Result) (e : ending)
| Finished
| Raised.

(** The generator, as its caller and the event loop see it *)
Inductive consumer_state :=
| Suspended
| Polling
| Exhausted.

Record state := mkState {
  queue    : list Result;
  tasks    : list task;
  consumer : consumer_state;
  yielded  : list Result
}.

Definition settled (t : task) : bool :=
  match t with Pending _ _ => false | Finished | Raised => true end.

Definition raised (t : task) : bool :=
  match t with Raised => true | Pending _ _ | Finished => false end.

(** [requests.done()].  The future of [asyncio.gather] without
    [return_exceptions] is done when the last child has finished, or as soon
    as a child raises: the first exception is set on the future at once, and
    the other children run on. *)
Definition done (ts : list task) : bool :=
  existsb raised ts || forallb settled ts.

(** [results.empty()] *)
Definition empty (q : list Result) : bool :=
  match q with [] => true | _ :: _ => false end.

(** The head of [while not (results.empty() and requests.done())]: the
    generator ends, or awaits [asyncio.wait_for(results.get(), timeout=0.25)]. *)
Definition loop_head (s : state) : state :=
  mkState (queue s) (tasks s)
          (if negb (empty (queue s) && done (tasks s)) then Polling else Exhausted)
          (yielded s).

(** The first [__anext__] runs the body up to its first await: the queue is
    created, one coroutine per target is wrapped in a task by
    [asyncio.gather], and the loop is entered. *)
Definition start_requests (plans : list plan) : state :=
  loop_head (mkState [] ((λ p, Pending (emits p) (ends p)) <$> plans) Suspended []).

Inductive event :=
| Advance (i : nat)
| Deliver
| Expire
| Next.

(** The next step of a task: [await callback(result)] puts the result in the
    unbounded queue; then the coroutine returns or raises. *)
Definition advance (i : nat) (s : state) : option state :=
  match tasks s !! i with
  | Some (Pending (Some r) e) =>
      Some (mkState (queue s ++ [r]) (<[i := Pending None e]> (tasks s))
                    (consumer s) (yielded s))
  | Some (Pending None Returns) =>
      Some (mkState (queue s) (<[i := Finished]> (tasks s)) (consumer s) (yielded s))
  | Some (Pending None Raises) =>
      Some (mkState (queue s) (<[i := Raised]> (tasks s)) (consumer s) (yielded s))
  | Some Finished | Some Raised | None => None
  end.

(** One event.  [Deliver]: [results.get()] completes within the timeout and
    its value is yielded.  [Expire]: the queue stayed empty for the timeout,
    [wait_for] raises [TimeoutError], [except Exception] takes it and the
    condition of the loop is checked again.  [Next]: the caller asks for the
    next item and the generator resumes after its [yield]. *)
Definition step (ev : event) (s : state) : option state :=
  match ev with
  | Advance i => advance i s
  | Deliver =>
      match consumer s, queue s with
      | Polling, r :: q => Some (mkState q (tasks s) Suspended (yielded s ++ [r]))
      | _, _ => None
      end
  | Expire =>
      match consumer s, queue s with
      | Polling, [] => Some (loop_head s)
      | _, _ => None
      end
  | Next =>
      match consumer s with
      | Suspended => Some (loop_head s)
      | _ => None
      end
  end.

Fixpoint exec (evs : list event) (s : state) : option state :=
  match evs with
  | [] => Some s
  | ev :: rest =>
      match step ev s with
      | Some s' => exec rest s'
      | None => None
      end
  end.

(** [start_requests] on the pool [self] of store [h], where [send_request]
    tells how the probe of each target behaves *)
Definition dispatch (send_request : loc → plan) (h : Heap) (self : loc) : option state :=
  items ← pool_items h self;
  Some (start_requests (send_request <$> items)).

(** The results held by tasks that have not handed them over yet *)
Definition in_flight (ts : list task) : list Result :=
  omap (λ t, match t with Pending (Some r) _ => Some r | _ => None end) ts.

(** Events other than the expiry of a wait *)
Definition productive (ev : event) : bool :=
  match ev with Expire => false | _ => true end.

(** What is left to do: a task that has not put its result has four steps
    ahead (its put, its end, the delivery and the resumption), a queued
    result two, a suspended generator one. *)
Definition task_weight (t : task) : nat :=
  match t with
  | Pending (Some _) _ => 4
  | Pending None _ => 1
  | Finished | Raised => 0
  end.

Definition weight (s : state) : nat :=
  sum_list (task_weight <$> tasks s) + 2 * length (queue s)
  + match consumer s with Suspended => 1 | _ => 0 end.

(** ** What the caller receives *)

Lemma in_flight_put (ts : list task) i r e :
  ts !! i = Some (Pending (Some r) e) →
  in_flight ts ≡ₚ r :: in_flight (<[i := Pending None e]> ts).
Proof.
  unfold in_flight. revert i.
  induction ts as [|t ts IH]; intros [|i] Hi; simplify_eq/=; [done|].
  destruct t as [[r'|] e'| |]; simpl; rewrite (IH i Hi); [apply Permutation_swap|done..].
Qed.

Lemma in_flight_end (ts : list task) i e t' :
  ts !! i = Some (Pending None e) → in_flight [t'] = [] →
  in_flight (<[i := t']> ts) = in_flight ts.
Proof.
  unfold in_flight. revert i.
  induction ts as [|t ts IH]; intros [|i] Hi Ht'; simplify_eq/=.
  - by destruct t' as [[?|] ?| |].
  - by rewrite (IH i Hi Ht').
Qed.

(** A step moves results from the tasks to the queue and from the queue to
    the caller; it makes none and loses none. *)
Lemma step_conserves ev s s' :
  step ev s = Some s' →
  yielded s' ++ queue s' ++ in_flight (tasks s')
  ≡ₚ yielded s ++ queue s ++ in_flight (tasks s).
Proof.
  destruct ev as [i| | |]; simpl.
  - unfold advance. destruct (tasks s !! i) as [[[r|] []| |]|] eqn:Hi; intros [= <-]; simpl.
    + rewrite (in_flight_put (tasks s) i r Returns Hi). rewrite <- app_assoc. simpl.
      by rewrite <- Permutation_middle.
    + rewrite (in_flight_put (tasks s) i r Raises Hi). rewrite <- app_assoc. simpl.
      by rewrite <- Permutation_middle.
    + by rewrite (in_flight_end (tasks s) i Returns Finished Hi).
    + by rewrite (in_flight_end (tasks s) i Raises Raised Hi).
  - destruct (consumer s), (queue s) as [|r q] eqn:Hq; intros [= <-]; simpl.
    by rewrite <- app_assoc.
  - destruct (consumer s), (queue s) eqn:Hq; intros [= <-]; simpl. by rewrite Hq.
  - destruct (consumer s); by intros [= <-].
Qed.

Lemma exec_conserves evs : ∀ s s',
  exec evs s = Some s' →
  yielded s' ++ queue s' ++ in_flight (tasks s')
  ≡ₚ yielded s ++ queue s ++ in_flight (tasks s).
Proof.
  induction evs as [|ev evs IH]; intros s s'; simpl; [by intros [= <-]|].
  destruct (step ev s) as [s1|] eqn:Hstep; [|done].
  intros Hexec. rewrite (IH s1 s' Hexec). by apply (step_conserves ev).
Qed.

Lemma in_flight_start (plans : list plan) :
  in_flight ((λ p, Pending (emits p) (ends p)) <$> plans) = omap emits plans.
Proof.
  unfold in_flight. induction plans as [|p plans IH]; [done|]. csimpl.
  rewrite IH. by destruct (emits p).
Qed.

Lemma in_flight_settled (ts : list task) : forallb settled ts = true → in_flight ts = [].
Proof.
  unfold in_flight. induction ts as [|t ts IH]; [done|]. intros Hall.
  simpl in Hall. apply andb_prop in Hall as [Ht Hts]. csimpl.
  rewrite (IH Hts). by destruct t.
Qed.

(** ** Runs in which no probe raises *)

Definition sound (t : task) : Prop :=
  match t with
  | Pending _ Returns | Finished => True
  | Pending _ Raises | Raised => False
  end.

Lemma sound_done (ts : list task) : Forall sound ts → done ts = forallb settled ts.
Proof.
  intros HF. unfold done. replace (existsb raised ts) with false; [done|].
  induction HF as [|t ts Ht _ IH]; [done|]. simpl. rewrite <- IH.
  by destruct t as [? []| |].
Qed.

Lemma settled_no_advance (ts : list task) i q c y :
  forallb settled ts = true → advance i (mkState q ts c y) = None.
Proof.
  intros Hall. unfold advance. simpl. destruct (ts !! i) as [t|] eqn:Hi; [|done].
  assert (settled t = true) as Ht.
  { rewrite forallb_forall in Hall. apply Hall. apply list_elem_of_In.
    apply list_elem_of_lookup. by exists i. }
  by destruct t.
Qed.

(** The generator of a run without faults is exhausted only when the queue
    is empty and every task is over. *)
Definition drained (s : state) : Prop :=
  Forall sound (tasks s) ∧
  (consumer s = Exhausted → queue s = [] ∧ forallb settled (tasks s) = true).

Lemma loop_head_drained s :
  Forall sound (tasks s) → drained (loop_head s).
Proof.
  intros HF. split; [done|]. simpl. rewrite (sound_done _ HF).
  destruct (queue s); simpl; [|done]. by destruct (forallb settled (tasks s)).
Qed.

Lemma step_drained ev s s' : drained s → step ev s = Some s' → drained s'.
Proof.
  intros [HF Hex]. destruct ev as [i| | |]; simpl.
  - unfold advance.
    destruct (tasks s !! i) as [[[r|] []| |]|] eqn:Hi; intros [= <-]; simpl.
    + split; simpl.
      * apply Forall_insert; [done|]. done.
      * intros Hc. destruct (Hex Hc) as [_ Hall].
        pose proof (settled_no_advance (tasks s) i (queue s) (consumer s) (yielded s) Hall)
          as Hno. unfold advance in Hno. simpl in Hno. by rewrite Hi in Hno.
    + exfalso. by apply (Forall_lookup_1 _ _ _ _ HF Hi).
    + split; simpl.
      * by apply Forall_insert.
      * intros Hc. destruct (Hex Hc) as [Hq Hall]. split; [done|].
        pose proof (settled_no_advance (tasks s) i (queue s) (consumer s) (yielded s) Hall)
          as Hno. unfold advance in Hno. simpl in Hno. by rewrite Hi in Hno.
    + exfalso. by apply (Forall_lookup_1 _ _ _ _ HF Hi).
  - destruct (consumer s), (queue s) as [|r q]; intros [= <-]. by split.
  - destruct (consumer s), (queue s); intros [= <-]. by apply loop_head_drained.
  - destruct (consumer s); intros [= <-]. by apply loop_head_drained.
Qed.

Lemma exec_drained evs : ∀ s s', drained s → exec evs s = Some s' → drained s'.
Proof.
  induction evs as [|ev evs IH]; intros s s' Hd; simpl; [by intros [= <-]|].
  destruct (step ev s) as [s1|] eqn:Hstep; [|done].
  apply IH. by eapply step_drained.
Qed.

Lemma drained_no_step s ev :
  drained s → consumer s = Exhausted → step ev s = None.
Proof.
  intros [_ Hex] Hc. destruct (Hex Hc) as [Hq Hall].
  destruct ev as [i| | |]; simpl; rewrite ?Hc; try done.
  destruct s as [q ts c y]. by apply settled_no_advance.
Qed.

(** ** Termination *)

Fixpoint productive_steps (evs : list event) : nat :=
  match evs with
  | [] => 0
  | ev :: rest => (if productive ev then 1 else 0) + productive_steps rest
  end.

Lemma weight_insert (ts : list task) i t t' :
  ts !! i = Some t →
  sum_list (task_weight <$> <[i := t']> ts) + task_weight t
  = sum_list (task_weight <$> ts) + task_weight t'.
Proof.
  revert i. induction ts as [|t0 ts IH]; intros [|i] Hi; simplify_eq/=; [lia|].
  specialize (IH i Hi). lia.
Qed.

(** Every event but the expiry of a wait takes one unit off the weight; an
    expiry leaves it as it is. *)
Lemma step_weight ev s s' :
  step ev s = Some s' → weight s' + (if productive ev then 1 else 0) = weight s.
Proof.
  unfold weight. destruct ev as [i| | |]; simpl.
  - unfold advance.
    destruct (tasks s !! i) as [[[r|] []| |]|] eqn:Hi; intros [= <-]; simpl;
      pose proof (weight_insert (tasks s) i _ (Pending None Returns) Hi) as H1;
      pose proof (weight_insert (tasks s) i _ (Pending None Raises) Hi) as H2;
      pose proof (weight_insert (tasks s) i _ Finished Hi) as H3;
      pose proof (weight_insert (tasks s) i _ Raised Hi) as H4;
      simpl in *; rewrite ?length_app; simpl; lia.
  - destruct (consumer s), (queue s) as [|r q]; intros [= <-]; simpl. lia.
  - destruct (consumer s) eqn:Hc, (queue s) eqn:Hq; intros [= <-]; simpl.
    rewrite Hq. simpl. destruct (done (tasks s)); simpl; lia.
  - destruct (consumer s) eqn:Hc; intros [= <-]; simpl.
    destruct (negb _); lia.
Qed.

Lemma exec_weight evs : ∀ s s',
  exec evs s = Some s' → weight s' + productive_steps evs = weight s.
Proof.
  induction evs as [|ev evs IH]; intros s s'; simpl; [intros [= <-]; lia|].
  destruct (step ev s) as [s1|] eqn:Hstep; [|done].
  intros Hexec. specialize (IH s1 s' Hexec). pose proof (step_weight ev s s1 Hstep). lia.
Qed.

Lemma weight_start (plans : list plan) : weight (start_requests plans) ≤ 4 * length plans.
Proof.
  unfold weight, start_requests. simpl.
  assert (sum_list (task_weight <$> ((λ p, Pending (emits p) (ends p)) <$> plans))
          ≤ 4 * length plans) as Hsum.
  { induction plans as [|p plans IH]; csimpl; [lia|]. destruct (emits p); simpl; lia. }
  destruct (negb _); lia.
Qed.

Lemma unsettled_task (ts : list task) :
  forallb settled ts = false → ∃ i emit e, ts !! i = Some (Pending emit e).
Proof.
  induction ts as [|t ts IH]; [done|]. simpl. destruct t as [emit e| |]; simpl.
  - intros _. by exists 0, emit, e.
  - intros Hts. destruct (IH Hts) as (i & emit & e & Hi). by exists (S i), emit, e.
  - intros Hts. destruct (IH Hts) as (i & emit & e & Hi). by exists (S i), emit, e.
Qed.

Lemma advance_pending s i emit e :
  tasks s !! i = Some (Pending emit e) → is_Some (advance i s).
Proof. intros Hi. unfold advance. rewrite Hi. destruct emit, e; by eexists. Qed.

(** From every state some schedule ends the generator, in no more events
    than the weight of the state plus one. *)
Lemma can_finish : ∀ n s,
  weight s ≤ n →
  ∃ evs s', exec evs s = Some s' ∧ consumer s' = Exhausted ∧ length evs ≤ S (weight s).
Proof.
  induction n as [|n IH]; intros s Hn.
  - destruct (consumer s) eqn:Hc.
    + exfalso. unfold weight in Hn. rewrite Hc in Hn. lia.
    + destruct (forallb settled (tasks s)) eqn:Hall.
      * destruct (queue s) as [|r q] eqn:Hq.
        -- exists [Expire]. eexists. simpl. rewrite Hc, Hq. split; [done|].
           simpl. rewrite Hq. unfold done. rewrite Hall, orb_true_r. simpl.
           split; [done|lia].
        -- exfalso. unfold weight in Hn. rewrite Hq in Hn. simpl in Hn. lia.
      * exfalso. destruct (unsettled_task _ Hall) as (i & emit & e & Hi).
        destruct (advance_pending s i emit e Hi) as [s1 Hs1].
        pose proof (step_weight (Advance i) s s1 Hs1) as Hw. simpl in Hw. lia.
    + exists [], s. simpl. split_and!; [done|done|lia].
  - assert (∀ ev s1, productive ev = true → step ev s = Some s1 →
              ∃ evs s', exec evs s = Some s' ∧ consumer s' = Exhausted
                        ∧ length evs ≤ S (weight s)) as Hgo.
    { intros ev s1 Hprod Hstep. pose proof (step_weight ev s s1 Hstep) as Hw.
      rewrite Hprod in Hw.
      destruct (IH s1 ltac:(lia)) as (evs & s' & Hexec & Hc' & Hlen).
      exists (ev :: evs), s'. simpl. rewrite Hstep. split_and!; [done|done|lia]. }
    destruct (forallb settled (tasks s)) eqn:Hall.
    + destruct (consumer s) eqn:Hc.
      * apply (Hgo Next (loop_head s)); [done|]. simpl. by rewrite Hc.
      * destruct (queue s) as [|r q] eqn:Hq.
        -- exists [Expire]. eexists. simpl. rewrite Hc, Hq. split; [done|].
           simpl. rewrite Hq. unfold done. rewrite Hall, orb_true_r. simpl.
           split; [done|lia].
        -- eapply (Hgo Deliver); [done|]. simpl. by rewrite Hc, Hq.
      * exists [], s. simpl. split_and!; [done|done|lia].
    + destruct (unsettled_task _ Hall) as (i & emit & e & Hi).
      destruct (advance_pending s i emit e Hi) as [s1 Hs1].
      by apply (Hgo (Advance i) s1).
Qed.

(** When nothing but the expiry of the wait can happen, the expiry ends the
    generator: every task is over and the queue is empty. *)
Lemma stalled_ends s :
  consumer s ≠ Exhausted →
  (∀ ev, productive ev = true → step ev s = None) →
  ∃ s', step Expire s = Some s' ∧ consumer s' = Exhausted.
Proof.
  intros Hc Hstall.
  destruct (forallb settled (tasks s)) eqn:Hall.
  - destruct (consumer s) eqn:Ec; [| |done].
    + specialize (Hstall Next eq_refl). simpl in Hstall. by rewrite Ec in Hstall.
    + destruct (queue s) as [|r q] eqn:Hq.
      * eexists. simpl. rewrite Ec, Hq. split; [done|]. simpl.
        rewrite Hq. unfold done. by rewrite Hall, orb_true_r.
      * specialize (Hstall Deliver eq_refl). simpl in Hstall. by rewrite Ec, Hq in Hstall.
  - destruct (unsettled_task _ Hall) as (i & emit & e & Hi).
    destruct (advance_pending s i emit e Hi) as [s1 Hs1].
    specialize (Hstall (Advance i) eq_refl). simpl in Hstall. congruence.
Qed.

(** An exhausted generator stays exhausted and yields nothing more, whatever
    the tasks still do. *)
Lemma exhausted_forever evs : ∀ s s',
  consumer s = Exhausted → exec evs s = Some s' →
  consumer s' = Exhausted ∧ yielded s' = yielded s.
Proof.
  induction evs as [|ev evs IH]; intros s s' Hc; simpl; [by intros [= <-]|].
  destruct (step ev s) as [s1|] eqn:Hstep; [|done]. intros Hexec.
  assert (consumer s1 = Exhausted ∧ yielded s1 = yielded s) as [Hc1 Hy1].
  { destruct ev as [i| | |]; simpl in Hstep; rewrite ?Hc in Hstep; try done.
    unfold advance in Hstep.
    destruct (tasks s !! i) as [[[r|] []| |]|]; by simplify_eq/=. }
  destruct (IH s1 s' Hc1 Hexec) as [? ?]. split; [done|congruence].
Qed.

(** ** Dispatch with and without faults *)

(** Every target's probe succeeds: it hands one Result, which carries the
    identity of its target, to the callback and returns. *)
Definition all_succeed (send_request : loc → plan) (h : Heap) (items : list loc) : Prop :=
  ∀ w, w ∈ items →
    ∃ r, send_request w = mkPlan (Some r) Returns ∧ name_of h w = Some (r_identity r).

Lemma all_succeed_expected send_request h (items : list loc) :
  all_succeed send_request h items →
  length (omap emits (send_request <$> items)) = length items ∧
  (λ r, Some (r_identity r)) <$> omap emits (send_request <$> items) = names h items ∧
  Forall sound ((λ p, Pending (emits p) (ends p)) <$> (send_request <$> items)).
Proof.
  induction items as [|w items IH]; intros Hall; [done|].
  destruct (Hall w ltac:(by left)) as (r & Hr & Hn).
  destruct (IH (λ m Hm, Hall m ltac:(by right))) as (Hlen & Hnames & Hsound).
  csimpl. rewrite Hr. csimpl. split_and!.
  - by rewrite Hlen.
  - unfold names in *. csimpl. by rewrite Hnames, Hn.
  - by constructor.
Qed.

(** C1: when every target's probe succeeds, the generator of [start_requests]
    on a pool of N targets has handed out at most N Results at any time;
    under every schedule at most 4N events other than expired waits happen;
    from every state some schedule ends the generator, and when only an
    expired wait can happen, that expiry ends it; at its end it has yielded
    exactly N Results whose identities are those of the pool's members, and
    nothing happens any more; on an empty pool it ends at once with no
    Result. *)
Theorem dispatch_all_succeed (send_request : loc → plan) (h : Heap) (self : loc)
    (items : list loc) :
  pool_items h self = Some items →
  all_succeed send_request h items →
  ∃ s0,
    dispatch send_request h self = Some s0 ∧
    (items = [] → consumer s0 = Exhausted ∧ yielded s0 = []) ∧
    ∀ evs s, exec evs s0 = Some s →
      productive_steps evs ≤ 4 * length items ∧
      length (yielded s) ≤ length items ∧
      (∃ evs' s', exec evs' s = Some s' ∧ consumer s' = Exhausted ∧
                  length evs' ≤ S (weight s)) ∧
      ((∀ ev, productive ev = true → step ev s = None) →
         consumer s = Exhausted ∨
         ∃ s', step Expire s = Some s' ∧ consumer s' = Exhausted) ∧
      (consumer s = Exhausted →
         length (yielded s) = length items ∧
         yielded s ≡ₚ omap emits (send_request <$> items) ∧
         (∀ n, n ∈ r_identity <$> yielded s ↔ Some n ∈ names h items) ∧
         (∀ ev, step ev s = None)).
Proof.
  intros Hitems Hall.
  destruct (all_succeed_expected send_request h items Hall) as (Hlen & Hnames & Hsound).
  set (plans := send_request <$> items) in *.
  exists (start_requests plans). split_and!.
  - unfold dispatch. by rewrite Hitems.
  - by intros ->.
  - intros evs s Hexec.
    pose proof (exec_conserves evs _ s Hexec) as Hperm. simpl in Hperm.
    rewrite in_flight_start in Hperm.
    assert (drained s) as Hdr.
    { eapply exec_drained; [|exact Hexec]. by apply loop_head_drained. }
    split_and!.
    + pose proof (exec_weight evs _ s Hexec) as Hw.
      pose proof (weight_start plans) as Hs. unfold plans in Hs at 2.
      rewrite length_fmap in Hs. lia.
    + apply Permutation_length in Hperm. rewrite !length_app in Hperm. lia.
    + by apply (can_finish (weight s)).
    + intros Hstall. destruct (consumer s) eqn:Ec; [right|right|by left];
        (apply stalled_ends; [congruence|done]).
    + intros Hc. destruct Hdr as [Hs Hex]. destruct (Hex Hc) as [Hq Hset].
      rewrite Hq, (in_flight_settled _ Hset), !app_nil_r in Hperm.
      split_and!.
      * apply Permutation_length in Hperm. lia.
      * done.
      * intros n. rewrite <- Hnames. rewrite <- Hperm. rewrite !list_elem_of_fmap.
        split.
        -- intros (r & -> & Hr). by exists r.
        -- intros (r & [= ->] & Hr). by exists r.
      * intros ev. apply drained_no_step; [by split|done].
Qed.

(** C2 (where the generator ends early): with two targets, the first of which
    raises before it has a Result and the second of which succeeds later,
    the fault makes [requests.done()] true while the second probe is still
    running; the next expired wait finds the queue empty and ends the
    generator.  The Result of the second target is put in the queue
    afterwards and is never yielded. *)
Theorem fault_ends_dispatch_early (r : Result) :
  ∃ s,
    exec [Advance 0; Expire] (start_requests [mkPlan None Raises; mkPlan (Some r) Returns])
    = Some s ∧
    consumer s = Exhausted ∧ yielded s = [] ∧
    tasks s !! 1 = Some (Pending (Some r) Returns) ∧
    (∃ s', exec [Advance 1; Advance 1] s = Some s' ∧ queue s' = [r] ∧
           tasks s' = [Raised; Finished]) ∧
    (∀ evs s', exec evs s = Some s' → consumer s' = Exhausted ∧ yielded s' = []).
Proof.
  eexists. split; [reflexivity|]. split_and!; try reflexivity.
  - eexists. split_and!; reflexivity.
  - intros evs s' Hexec. by apply (exhausted_forever evs _ s') in Hexec.
Qed.

End Dispatch.

(** * A program and its store

    Three targets are built, the third with the name of the first; a probe
    leaves a Result on the second; a pool that rejects duplicates is built
    from the three.  The pool holds the first two. *)

Definition github : loc := 1%positive.
Definition gitlab : loc := 2%positive.
Definition github' : loc := 3%positive.
Definition devs : loc := 1%positive.

Definition gitlab_result : Result := mkResult "gitlab" NotFound None 7.

Definition program : list op :=
  [ OpWebsite "github"; OpWebsite "gitlab"; OpWebsite "github";
    OpResult gitlab gitlab_result;
    OpInit [VWebsite github; VWebsite gitlab; VWebsite github'] (VStr "dev") false ].

Definition sample : Heap := foldl (λ h o, after 0 o h) empty_heap program.

Definition devs_pool : PoolObj := mkPool 1%positive false (Some "dev").

Lemma sample_pool : pools sample !! devs = Some devs_pool.
Proof. vm_compute. reflexivity. Qed.

Lemma sample_list : lists sample !! p_sites devs_pool = Some [github; gitlab].
Proof. vm_compute. reflexivity. Qed.

Lemma sample_github : websites sample !! github = Some (mkWebsite "github" None None).
Proof. vm_compute. reflexivity. Qed.

Lemma sample_gitlab :
  websites sample !! gitlab = Some (mkWebsite "gitlab" None (Some 1%positive)).
Proof. vm_compute. reflexivity. Qed.

Lemma sample_github' : websites sample !! github' = Some (mkWebsite "github" None None).
Proof. vm_compute. reflexivity. Qed.

Lemma sample_present : all_present sample [github; gitlab].
Proof.
  intros w Hw. apply elem_of_cons in Hw as [->|Hw].
  - rewrite sample_github. by eexists.
  - apply list_elem_of_singleton in Hw as ->. rewrite sample_gitlab. by eexists.
Qed.

Lemma sample_reachable : reachable sample.
Proof.
  unfold sample, program. simpl.
  repeat (apply reachable_after; [|first [ exact I | by eexists
                                         | repeat constructor; by eexists ]]).
  apply reachable_empty.
Qed.

Lemma sample_wf : wf sample.
Proof. apply inv_wf, reachable_inv, sample_reachable. Qed.

(** ** The theorems at work on this store *)

Lemma sample_equal : equal_in sample github github'.
Proof.
  eexists _, _. split; [apply sample_github|]. split; [apply sample_github'|]. reflexivity.
Defined.

(** [github' in devs]: an equal target is a member, the object itself is not. *)
Lemma contains_membership_witness :
  pools sample !! devs = Some devs_pool ∧
  lists sample !! p_sites devs_pool = Some [github; gitlab] ∧
  contains devs (VWebsite github') sample = Ok true sample ∧
  (github' ∉ [github; gitlab]) ∧
  contains devs (VStr "github") sample = Ok false sample.
Proof.
  split; [vm_compute; reflexivity|]. split; [vm_compute; reflexivity|].
  split; [|split; [apply (bool_decide_unpack _); by vm_compute | reflexivity]].
  destruct (contains_membership sample devs devs_pool [github; gitlab] (VWebsite github')
              sample_pool sample_list sample_present)
    as (b & Hb & Hiff & _).
  - intros o [= <-]. rewrite sample_github'. by eexists.
  - rewrite Hb. f_equal. apply Hiff. exists github', github.
    split; [reflexivity|]. split; [by left|]. apply sample_equal.
Defined.

(** [devs.add(github')] is a silent no-op and the length stays 2. *)
Lemma add_spec_witness :
  pools sample !! devs = Some devs_pool ∧
  lists sample !! p_sites devs_pool = Some [github; gitlab] ∧
  add devs (VWebsite github') sample = Ok tt sample ∧
  len devs sample = Ok 2 sample.
Proof.
  split; [vm_compute; reflexivity|]. split; [vm_compute; reflexivity|].
  destruct (add_spec sample devs devs_pool [github; gitlab] (VWebsite github')
              sample_pool sample_list sample_present)
    as (_ & Hdup & _).
  - intros o [= <-]. rewrite sample_github'. by eexists.
  - apply (Hdup github' eq_refl eq_refl). exists github. split; [by left|].
    apply sample_equal.
Defined.

(** [devs.remove(lambda w: w.name == "github")] leaves gitlab. *)
Lemma remove_then_get_witness :
  pools sample !! devs = Some devs_pool ∧
  lists sample !! p_sites devs_pool = Some [github; gitlab] ∧
  ∃ h', remove devs (name_is (VStr "github")) sample = Ok tt h' ∧
        pool_items h' devs = Some [gitlab] ∧
        get devs (name_is (VStr "github")) h' = Ok [] h'.
Proof.
  split; [vm_compute; reflexivity|]. split; [vm_compute; reflexivity|].
  destruct (remove_then_get sample devs devs_pool [github; gitlab]
              (name_is (VStr "github")) sample_pool sample_list sample_present)
    as (h' & kept & Hrun & Hitems & Hkept & _ & _ & _ & _ & Hget).
  exists h'. split; [exact Hrun|]. split; [|exact Hget].
  rewrite Hitems, Hkept. vm_compute. reflexivity.
Defined.

(** The pool of the sample store holds no two equal targets. *)
Lemma reject_pools_witness :
  reachable sample ∧ no_equal_targets sample [github; gitlab].
Proof.
  split; [apply sample_reachable|].
  destruct (reject_pools_hold_no_equal_targets sample sample_reachable) as [Huniq _].
  apply (Huniq devs devs_pool); [apply sample_pool|reflexivity|apply sample_list].
Defined.

(** [devs.results] is the one Result there is, that of gitlab; [clear] on the
    tuple that [devs.sites] returns, and item assignment on the tuple that
    [devs.results] returns, raise and leave the pool with its two targets. *)
Lemma views_witness :
  wf sample ∧
  results_view devs sample = Ok [1%positive] sample ∧
  sites devs sample = Ok [github; gitlab] sample ∧
  (∃ v e, sites_property devs sample = Ok v sample ∧
          mutate v Clear sample = Raise e sample) ∧
  (∃ v e, results_property devs sample = Ok v sample ∧
          mutate v (SetItem 0 (VResult 1%positive)) sample = Raise e sample) ∧
  pool_items sample devs = Some [github; gitlab].
Proof.
  split; [apply sample_wf|].
  destruct (views_are_snapshots sample devs devs_pool [github; gitlab]
              sample_wf sample_pool sample_list)
    as (rs & Hrs & Heq & _ & Hsites & Hs & Hr & Hsnap).
  split; [rewrite Hrs, Heq; vm_compute; reflexivity|].
  split; [exact Hsites|]. split_and!.
  - destruct (Hsnap _ sample (or_introl Hs)) as [_ Hm].
    destruct (Hm Clear sample) as [e He]. eexists _, e. split; [exact Hs|exact He].
  - destruct (Hsnap _ sample (or_intror Hr)) as [_ Hm].
    destruct (Hm (SetItem 0 (VResult 1%positive)) sample) as [e He].
    eexists _, e. split; [exact Hr|exact He].
  - vm_compute. reflexivity.
Defined.

(** A deep and a shallow copy of [devs], and a username set through each. *)
Lemma copies_witness :
  wf sample ∧
  (∃ q h1 items' h2,
     deepcopy_pool devs sample = Ok q h1 ∧ pool_items h1 q = Some items' ∧
     length items' = 2 ∧
     set_username q (VStr "alice") h1 = Ok tt h2 ∧
     websites h2 !! github = websites sample !! github) ∧
  (∃ q h1 h2,
     copy_pool devs sample = Ok q h1 ∧
     set_username q (VStr "alice") h1 = Ok tt h2 ∧
     username_of h2 github = Some (Some "alice")).
Proof.
  split; [apply sample_wf|].
  destruct (copies_share_or_not sample devs devs_pool [github; gitlab] "alice"
              sample_wf sample_pool sample_list)
    as [(q & h1 & items' & Hrun & _ & Hitems & _ & _ & HF & _ & (h2 & Hset & Hsame) & _)
        (q' & h1' & Hrun' & _ & _ & _ & (h2' & Hset' & _ & Hu) & _)].
  split.
  - exists q, h1, items', h2. split_and!; try done.
    + by rewrite <- (Forall2_length _ _ _ HF).
    + apply Hsame. rewrite sample_github. by eexists.
  - exists q', h1', h2'. split_and!; try done. apply Hu. by left.
Defined.

(** Probes that succeed on every target of the sample store *)
Definition sample_probe (w : loc) : Dispatch.plan :=
  Dispatch.mkPlan
    (Some (mkResult (if decide (w = github) then "github" else "gitlab") Found None 0))
    Dispatch.Returns.

Lemma sample_probes_succeed : Dispatch.all_succeed sample_probe sample [github; gitlab].
Proof.
  intros w Hw. eexists. split; [reflexivity|].
  apply elem_of_cons in Hw as [->|Hw].
  - unfold name_of. by rewrite sample_github.
  - apply list_elem_of_singleton in Hw as ->. unfold name_of. by rewrite sample_gitlab.
Qed.

(** gitlab answers first, then github: two Results, and the generator ends. *)
Lemma dispatch_witness :
  pool_items sample devs = Some [github; gitlab] ∧
  Dispatch.all_succeed sample_probe sample [github; gitlab] ∧
  ∃ s0 s,
    Dispatch.dispatch sample_probe sample devs = Some s0 ∧
    Dispatch.exec [Dispatch.Advance 1; Dispatch.Deliver; Dispatch.Advance 0;
                   Dispatch.Next; Dispatch.Deliver; Dispatch.Advance 0;
                   Dispatch.Advance 1; Dispatch.Next] s0 = Some s ∧
    Dispatch.consumer s = Dispatch.Exhausted ∧
    r_identity <$> Dispatch.yielded s = ["gitlab"; "github"] ∧
    length (Dispatch.yielded s) = 2.
Proof.
  assert (pool_items sample devs = Some [github; gitlab]) as Hitems
    by (vm_compute; reflexivity).
  split; [exact Hitems|]. split; [exact sample_probes_succeed|].
  destruct (Dispatch.dispatch_all_succeed sample_probe sample devs [github; gitlab]
              Hitems sample_probes_succeed) as (s0 & Hs0 & _ & Hruns).
  assert (Dispatch.dispatch sample_probe sample devs
          = Some (Dispatch.start_requests (sample_probe <$> [github; gitlab]))) as Hstart
    by (unfold Dispatch.dispatch; by rewrite Hitems).
  rewrite Hstart in Hs0. injection Hs0 as <-.
  assert (∃ s,
            Dispatch.exec [Dispatch.Advance 1; Dispatch.Deliver; Dispatch.Advance 0;
                           Dispatch.Next; Dispatch.Deliver; Dispatch.Advance 0;
                           Dispatch.Advance 1; Dispatch.Next]
              (Dispatch.start_requests (sample_probe <$> [github; gitlab])) = Some s ∧
            Dispatch.consumer s = Dispatch.Exhausted ∧
            r_identity <$> Dispatch.yielded s = ["gitlab"; "github"])
    as (s & Hexec & Hc & Hids).
  { eexists. split; [vm_compute; reflexivity|]. split; reflexivity. }
  destruct (Hruns _ s Hexec) as (_ & _ & _ & _ & Hend).
  destruct (Hend Hc) as (Hlen & _).
  exists (Dispatch.start_requests (sample_probe <$> [github; gitlab])), s.
  split; [exact Hstart|]. split; [exact Hexec|]. split; [exact Hc|].
  split; [exact Hids|exact Hlen].
Defined.

(** * More of the pool: lookups, setters and how the methods compose *)

Lemma holds_name_is h n w :
  holds h (name_is n) w = true ↔ ∃ s, n = VStr s ∧ name_of h w = Some s.
Proof.
  unfold holds, name_is, name_of. destruct (websites h !! w) as [x|]; simpl.
  - destruct n; try (split; [done|by intros (? & ? & ?)]).
    rewrite bool_decide_eq_true. split.
    + intros <-. by eexists.
    + by intros (s' & [= <-] & [= ->]).
  - split; [done|]. by intros (? & _ & ?).
Qed.

Lemma get_by_name_Ok h self P items n :
  pools h !! self = Some P → lists h !! p_sites P = Some items →
  all_present h items →
  get_by_name self n h
  = Ok (head (filter (λ w, holds h (name_is n) w = true) items)) h.
Proof.
  intros HP HL Hall. unfold get_by_name.
  rewrite (bind_Ok _ _ _ _ _ (get_Ok h self P items (name_is n) HP HL Hall)).
  by destruct (filter _ items).
Qed.

(** X1: [get_by_name] returns the first target of the pool, in pool order, whose
    name is the given [str], and [None] when there is none or when the
    argument is no [str]; it leaves the store as it was. *)
Theorem get_by_name_first (h : Heap) (self : loc) (P : PoolObj) (items : list loc)
    (n : value) :
  pools h !! self = Some P → lists h !! p_sites P = Some items →
  all_present h items →
  ∃ o, get_by_name self n h = Ok o h ∧
    (∀ w, o = Some w →
       ∃ before rest s,
         items = before ++ w :: rest ∧ n = VStr s ∧ name_of h w = Some s ∧
         ∀ v, v ∈ before → name_of h v ≠ Some s) ∧
    (o = None → ∀ w s, w ∈ items → n = VStr s → name_of h w ≠ Some s) ∧
    ((∀ s, n ≠ VStr s) → o = None).
Proof.
  intros HP HL Hall.
  set (found := filter (λ w, holds h (name_is n) w = true) items).
  exists (head found). split; [by apply (get_by_name_Ok h self P)|]. split_and!.
  - intros w Hw.
    destruct (head_filter_Some (λ w, holds h (name_is n) w = true) _ _ Hw)
      as (before & rest & Hitems & Hbefore).
    assert (w ∈ found) as Hin.
    { apply head_Some in Hw as [l' Hl']. rewrite Hl'. by left. }
    apply list_elem_of_filter in Hin as [Hholds _].
    apply holds_name_is in Hholds as (s & -> & Hs).
    exists before, rest, s. split_and!; try done.
    intros v Hv Hn. rewrite Forall_forall in Hbefore. apply (Hbefore v Hv).
    apply holds_name_is. by exists s.
  - intros Hnone w s Hw -> Hn. apply head_None in Hnone.
    assert (w ∈ found) as Hin.
    { apply list_elem_of_filter. split; [|done]. apply holds_name_is. by exists s. }
    rewrite Hnone in Hin. by apply elem_of_nil in Hin.
  - intros Hn. apply head_None. apply filter_none. intros w _ Hholds.
    apply holds_name_is in Hholds as (s & -> & _). by apply (Hn s).
Qed.

(** X2: [get(f)] and [remove(f)] split the pool: the targets [get] returns and the
    targets [remove] keeps are, together, the targets of the pool; no target
    is in both; [get] leaves the store as it was. *)
Theorem get_and_remove_split (h : Heap) (self : loc) (P : PoolObj) (items : list loc)
    (f : predicate) :
  pools h !! self = Some P → lists h !! p_sites P = Some items →
  all_present h items →
  ∃ got kept h',
    get self f h = Ok got h ∧
    remove self f h = Ok tt h' ∧ pool_items h' self = Some kept ∧
    got ++ kept ≡ₚ items ∧
    length got + length kept = length items ∧
    got `sublist_of` items ∧
    (∀ w, w ∈ got → w ∉ kept).
Proof.
  intros HP HL Hall.
  exists (filter (λ w, holds h f w = true) items),
         (filter (λ w, holds h f w = false) items),
         (removed h self P (filter (λ w, holds h f w = false) items)).
  assert (filter (λ w, holds h f w = true) items
          ++ filter (λ w, holds h f w = false) items ≡ₚ items) as Hperm.
  { rewrite <- (filter_app_complement (λ w, holds h f w = true) items) at 3.
    f_equiv. rewrite (list_filter_iff (λ w, holds h f w = false)
                        (λ w, holds h f w ≠ true)); [done|].
    intros w. by destruct (holds h f w). }
  split_and!.
  - by apply (get_Ok h self P).
  - by apply remove_Ok.
  - unfold pool_items, removed. simpl. rewrite lookup_insert_eq. simpl.
    apply lookup_insert_eq.
  - done.
  - rewrite <- length_app. by rewrite Hperm.
  - apply sublist_filter.
  - intros w [Ht _]%list_elem_of_filter [Hf _]%list_elem_of_filter. congruence.
Qed.

(** X3: [set_name] with a [str] and then [name] gives that string back; the
    pool's list and policy, every other pool and every target stay as they
    were. *)
Theorem set_name_then_name (h : Heap) (self : loc) (P : PoolObj) (s : string) :
  pools h !! self = Some P →
  ∃ h',
    set_name self (VStr s) h = Ok tt h' ∧
    name self h' = Ok s h' ∧
    pools h' !! self = Some (mkPool (p_sites P) (p_allow_duplicates P) (Some s)) ∧
    (∀ q, q ≠ self → pools h' !! q = pools h !! q) ∧
    lists h' = lists h ∧ websites h' = websites h ∧ results h' = results h.
Proof.
  intros HP.
  exists (with_pools h (<[self := mkPool (p_sites P) (p_allow_duplicates P) (Some s)]>
                          (pools h))).
  assert (pools (with_pools h (<[self := mkPool (p_sites P) (p_allow_duplicates P) (Some s)]>
                                 (pools h))) !! self
          = Some (mkPool (p_sites P) (p_allow_duplicates P) (Some s))) as HP'
    by apply lookup_insert_eq.
  split_and!; try done.
  - unfold set_name. rewrite (bind_Ok _ _ _ _ _ (read_pool_Ok _ _ _ HP)).
    apply write_pool_Ok. by eexists.
  - unfold name. by rewrite (bind_Ok _ _ _ _ _ (read_pool_Ok _ _ _ HP')).
  - intros q Hq. simpl. by rewrite lookup_insert_ne.
Qed.

Lemma set_username_unique h self P items u h1 h2 :
  pools h !! self = Some P → lists h !! p_sites P = Some items →
  all_present h items →
  pools h1 = pools h → lists h1 = lists h → results h1 = results h →
  (∀ w, websites h1 !! w
        = if decide (w ∈ items) then with_username u <$> websites h !! w
          else websites h !! w) →
  pools h2 = pools h → lists h2 = lists h → results h2 = results h →
  (∀ w, websites h2 !! w
        = if decide (w ∈ items) then with_username u <$> websites h !! w
          else websites h !! w) →
  h1 = h2.
Proof.
  intros _ _ _ EP1 EL1 ER1 Hw1 EP2 EL2 ER2 Hw2.
  apply Heap_eq; try congruence. apply map_eq. intros w. by rewrite Hw1, Hw2.
Qed.

(** X4: [set_username] with a [str] sets the username of the targets of the pool
    and of no other target, and changes neither a name, a Result, a list nor
    a pool; of two calls in a row the second one alone decides the store. *)
Theorem set_username_sets_members (h : Heap) (self : loc) (P : PoolObj)
    (items : list loc) (u u0 : string) :
  pools h !! self = Some P → lists h !! p_sites P = Some items →
  all_present h items →
  ∃ h',
    set_username self (VStr u) h = Ok tt h' ∧
    pools h' = pools h ∧ lists h' = lists h ∧ results h' = results h ∧
    (∀ w, w ∈ items → username_of h' w = Some (Some u)) ∧
    (∀ w, w ∉ items → websites h' !! w = websites h !! w) ∧
    (∀ w, name_of h' w = name_of h w ∧ last_result h' w = last_result h w) ∧
    (∃ h0, set_username self (VStr u0) h = Ok tt h0 ∧
           set_username self (VStr u) h0 = Ok tt h').
Proof.
  intros HP HL Hall.
  destruct (set_username_Ok h self P items u HP HL Hall)
    as (h' & Hrun & ER & EL & EP & Hw).
  exists h'. split_and!; try done.
  - intros w Hin. unfold username_of. rewrite Hw, decide_True by done.
    destruct (Hall w Hin) as [x ->]. done.
  - intros w Hout. by rewrite Hw, decide_False.
  - intros w. unfold name_of, last_result. rewrite Hw.
    case_decide; [|done]. by destruct (websites h !! w).
  - destruct (set_username_Ok h self P items u0 HP HL Hall)
      as (h0 & Hrun0 & ER0 & EL0 & EP0 & Hw0).
    exists h0. split; [done|].
    assert (all_present h0 items) as Hall0.
    { intros w Hin. rewrite Hw0, decide_True by done.
      destruct (Hall w Hin) as [x ->]. by eexists. }
    destruct (set_username_Ok h0 self P items u) as (h1 & Hrun1 & ER1 & EL1 & EP1 & Hw1);
      [by rewrite EP0|by rewrite EL0|done|].
    rewrite Hrun1. f_equal.
    apply (set_username_unique h self P items u h1 h' HP HL Hall); try congruence; [|done].
    intros w. rewrite Hw1, Hw0. case_decide; [|done].
    by destruct (websites h !! w).
Qed.

(** X5: After [add(w)], [w in pool] is true and the targets held before are still
    the first targets of the pool.  A second [add(w)] changes nothing when
    the pool rejects duplicates and appends [w] once more when it allows
    them. *)
Theorem add_then_contains (h : Heap) (self : loc) (P : PoolObj) (items : list loc)
    (o : loc) :
  pools h !! self = Some P → lists h !! p_sites P = Some items →
  all_present h items → is_Some (websites h !! o) →
  ∃ h1 items1,
    add self (VWebsite o) h = Ok tt h1 ∧
    pool_items h1 self = Some items1 ∧ items `prefix_of` items1 ∧
    contains self (VWebsite o) h1 = Ok true h1 ∧
    (p_allow_duplicates P = false → add self (VWebsite o) h1 = Ok tt h1) ∧
    (p_allow_duplicates P = true →
       ∃ h2, add self (VWebsite o) h1 = Ok tt h2 ∧
             pool_items h2 self = Some (items ++ [o; o])).
Proof.
  intros HP HL Hall Ho.
  destruct (add_Ok h self P items o HP HL Hall Ho) as [Hdup Happ].
  destruct (contains_Ok h self P items o HP HL Hall Ho) as (b & Hb & Hiff).
  set (h1 := with_lists h (<[p_sites P := items ++ [o]]> (lists h))).
  assert (pools h1 !! self = Some P) as HP1 by done.
  assert (lists h1 !! p_sites P = Some (items ++ [o])) as HL1 by apply lookup_insert_eq.
  assert (all_present h1 (items ++ [o])) as Hall1.
  { intros w Hw. apply elem_of_app in Hw as [Hw|Hw]; [by apply Hall|].
    apply list_elem_of_singleton in Hw. by subst. }
  assert (∃ m, m ∈ items ++ [o] ∧ equal_in h1 m o) as Hmem1.
  { exists o. split; [apply elem_of_app; right; by left|]. by apply equal_in_refl. }
  destruct (contains_Ok h1 self P (items ++ [o]) o HP1 HL1 Hall1 Ho) as (b1 & Hb1 & Hiff1).
  assert (b1 = true) as -> by by apply Hiff1.
  destruct (add_Ok h1 self P (items ++ [o]) o HP1 HL1 Hall1 Ho) as [Hdup1 Happ1].
  assert (pool_items h1 self = Some (items ++ [o])) as Hitems1.
  { unfold pool_items. rewrite HP1. simpl. apply lookup_insert_eq. }
  destruct (p_allow_duplicates P) eqn:Ea;
    [|destruct b; [|assert (¬ ∃ m, m ∈ items ∧ equal_in h m o) as Hno
                      by (intros Hex; apply Hiff in Hex; done)]].
  - exists h1, (items ++ [o]). split_and!; try done.
    + apply Happ. by left.
    + by apply prefix_app_r.
    + intros _. eexists. split; [apply Happ1; by left|].
      unfold pool_items. simpl. rewrite HP. simpl. rewrite lookup_insert_eq.
      by rewrite <- app_assoc.
  - exists h, items. split_and!; try done.
    + apply Hdup; [done|]. by apply Hiff.
    + unfold pool_items. rewrite HP. done.
    + intros _. apply Hdup; [done|]. by apply Hiff.
  - exists h1, (items ++ [o]). split_and!; try done.
    + apply Happ. by right.
    + by apply prefix_app_r.
    + intros _. by apply Hdup1.
Qed.

(** X6: A shallow copy holds the list of the original: a target added through the
    copy is in the original too.  [remove] through the copy binds the copy
    to a new list and leaves the original with all its targets, and
    [set_name] on the copy leaves the name of the original alone. *)
Theorem shallow_copy_shares_the_list (h : Heap) (self : loc) (P : PoolObj)
    (items : list loc) (o : loc) (f : predicate) (s : string) :
  pools h !! self = Some P → lists h !! p_sites P = Some items →
  all_present h items → is_Some (websites h !! o) →
  p_allow_duplicates P = true ∨ ¬ (∃ m, m ∈ items ∧ equal_in h m o) →
  ∃ q h1,
    copy_pool self h = Ok q h1 ∧ q ≠ self ∧
    (∃ h2, add q (VWebsite o) h1 = Ok tt h2 ∧
           pool_items h2 q = Some (items ++ [o]) ∧
           pool_items h2 self = Some (items ++ [o])) ∧
    (∃ h2, remove q f h1 = Ok tt h2 ∧
           pool_items h2 q = Some (filter (λ w, holds h f w = false) items) ∧
           pool_items h2 self = Some items) ∧
    (∃ h2, set_name q (VStr s) h1 = Ok tt h2 ∧
           name q h2 = Ok s h2 ∧ pools h2 !! self = Some P).
Proof.
  intros HP HL Hall Ho Hcase.
  pose proof (fresh_pool_None h) as Hq. pose proof (fresh_list_None h) as Hl.
  set (q := fresh (dom (pools h))) in *.
  set (h1 := with_pools h (<[q := P]> (pools h))).
  assert (q ≠ self) as Hne by (intros E; congruence).
  assert (p_sites P ≠ fresh (dom (lists h))) as Hne_l by (intros E; congruence).
  assert (pools h1 !! q = Some P) as HQ1 by apply lookup_insert_eq.
  assert (pools h1 !! self = Some P) as HP1 by (simpl; by rewrite lookup_insert_ne).
  exists q, h1. split_and!; try done.
  - unfold copy_pool. by rewrite (bind_Ok _ _ _ _ _ (read_pool_Ok _ _ _ HP)).
  - destruct (add_Ok h1 q P items o HQ1 HL Hall Ho) as [_ Happ].
    eexists. split; [by apply Happ|].
    unfold pool_items. simpl. rewrite lookup_insert_eq, lookup_insert_ne by done.
    rewrite HP. simpl. by rewrite lookup_insert_eq.
  - exists (removed h1 q P (filter (λ w, holds h f w = false) items)).
    split; [by apply (remove_Ok h1 q P items f)|].
    unfold pool_items, removed. simpl.
    rewrite lookup_insert_eq, lookup_insert_ne, lookup_insert_ne by done.
    rewrite HP. simpl. rewrite lookup_insert_eq. by rewrite lookup_insert_ne.
  - eexists. split.
    + unfold set_name. rewrite (bind_Ok _ _ _ _ _ (read_pool_Ok _ _ _ HQ1)).
      apply write_pool_Ok. by eexists.
    + split.
      * unfold name, read_pool, lift, mbind, M_bind, bind. simpl.
        by rewrite lookup_insert_eq.
      * simpl. by rewrite !lookup_insert_ne.
Qed.

Lemma is_empty_Ok h self P items :
  pools h !! self = Some P → lists h !! p_sites P = Some items →
  is_empty self h = Ok (bool_decide (items = [])) h.
Proof.
  intros HP HL. unfold is_empty.
  rewrite (bind_Ok _ _ _ _ _ (len_Ok h self P items HP HL)). by destruct items.
Qed.

(** X7: [is_empty] is true exactly when the pool holds no target: it is false
    after [add] of a target, whatever the policy, and true after a [remove]
    whose predicate holds of every target. *)
Theorem is_empty_follows_the_pool (h : Heap) (self : loc) (P : PoolObj)
    (items : list loc) (o : loc) (f : predicate) :
  pools h !! self = Some P → lists h !! p_sites P = Some items →
  all_present h items → is_Some (websites h !! o) →
  (∀ w, w ∈ items → holds h f w = true) →
  (∃ b, is_empty self h = Ok b h ∧ (b = true ↔ items = [])) ∧
  (∃ h1, add self (VWebsite o) h = Ok tt h1 ∧ is_empty self h1 = Ok false h1) ∧
  (∃ h1, remove self f h = Ok tt h1 ∧ is_empty self h1 = Ok true h1 ∧
         len self h1 = Ok 0 h1).
Proof.
  intros HP HL Hall Ho Hf. split_and!.
  - exists (bool_decide (items = [])). split; [by apply (is_empty_Ok h self P)|].
    apply bool_decide_eq_true.
  - destruct (add_Ok h self P items o HP HL Hall Ho) as [Hdup Happ].
    destruct (contains_Ok h self P items o HP HL Hall Ho) as (b & Hb & Hiff).
    assert (∀ its, is_empty self (with_lists h (<[p_sites P := its ++ [o]]> (lists h)))
                   = Ok false (with_lists h (<[p_sites P := its ++ [o]]> (lists h))))
      as Hne.
    { intros its. rewrite (is_empty_Ok _ self P (its ++ [o])); [|done|apply lookup_insert_eq].
      by destruct its. }
    destruct (p_allow_duplicates P) eqn:Ea; [|destruct b].
    + eexists. split; [apply Happ; by left|]. apply Hne.
    + exists h. split; [apply Hdup; [done|by apply Hiff]|].
      rewrite (is_empty_Ok h self P items HP HL). f_equal.
      apply bool_decide_eq_false. intros ->.
      destruct (proj1 Hiff eq_refl) as (m & Hm & _). by apply elem_of_nil in Hm.
    + eexists. split; [apply Happ; right; intros Hex; by apply Hiff in Hex|]. apply Hne.
  - exists (removed h self P (filter (λ w, holds h f w = false) items)).
    assert (filter (λ w, holds h f w = false) items = []) as ->.
    { apply filter_none. intros w Hw. rewrite (Hf w Hw). done. }
    split; [|split].
    + rewrite (remove_Ok h self P items f HP HL Hall).
      f_equal. f_equal. apply filter_none. intros w Hw. rewrite (Hf w Hw). done.
    + rewrite (is_empty_Ok _ self (mkPool (fresh (dom (lists h)))
                                     (p_allow_duplicates P) (p_name P)) []); [done|..].
      * unfold removed. simpl. apply lookup_insert_eq.
      * unfold removed. simpl. apply lookup_insert_eq.
    + rewrite (len_Ok _ self (mkPool (fresh (dom (lists h)))
                                (p_allow_duplicates P) (p_name P)) []); [done|..].
      * unfold removed. simpl. apply lookup_insert_eq.
      * unfold removed. simpl. apply lookup_insert_eq.
Qed.

(** ** [extend] *)

(** X8: A pool extended by a pool on the same list, itself or a shallow copy:
    when it rejects duplicates every target is found already there and the
    pool keeps its targets; when it allows duplicates and holds a target, the
    loop appends to the list it walks and never ends, whatever the fuel; on
    an empty list there is nothing to do. *)
Theorem extend_on_its_own_list (h : Heap) (self q : loc) (P Q : PoolObj)
    (items : list loc) (_deepcopy : bool) :
  inv h → pools h !! self = Some P → pools h !! q = Some Q →
  p_sites Q = p_sites P → lists h !! p_sites P = Some items →
  (p_allow_duplicates P = false →
     ∃ h', extend (S (length items)) self (VPool q) _deepcopy h = Ok tt h' ∧
           pool_items h' self = Some items ∧ pools h' = pools h) ∧
  (p_allow_duplicates P = true → items ≠ [] →
     ∀ fuel, extend fuel self (VPool q) _deepcopy h = Diverge) ∧
  (items = [] → ∀ fuel, extend (S fuel) self (VPool q) _deepcopy h = Ok tt h).
Proof.
  intros Hinv HP HQ Esites HL.
  assert (∀ fuel, extend fuel self (VPool q) _deepcopy h
                  = extend_loop fuel self (p_sites P) _deepcopy 0 h) as Hext.
  { intros fuel. unfold extend.
    rewrite (bind_Ok _ _ _ _ _ (read_pool_Ok _ _ _ HQ)). by rewrite Esites. }
  split_and!.
  - intros Ha. rewrite Hext.
    destruct (extend_loop_Ok self P (p_sites P) items _deepcopy (S (length items)) 0 h
                Hinv HP HL (λ _, Ha) ltac:(lia)) as (h' & Hrun & HL').
    pose proof (extend_loop_inv self P (p_sites P) _deepcopy (S (length items)) 0 h
                  Hinv HP ltac:(by eexists)) as Hpost.
    rewrite Hrun in Hpost. destruct Hpost as [_ EP].
    exists h'. split_and!; try done. unfold pool_items. rewrite EP, HP. done.
  - intros Ha Hne fuel. rewrite Hext.
    apply (extend_self_diverges self P _deepcopy fuel 0 h items); try done.
    destruct items; [done|simpl; lia].
  - intros -> fuel. rewrite Hext. simpl.
    by rewrite (bind_Ok _ _ _ _ _ (read_list_Ok _ _ _ HL)).
Qed.

Lemma name_of_weaken h h' w :
  websites h ⊆ websites h' → is_Some (websites h !! w) → name_of h' w = name_of h w.
Proof.
  intros Hsub [x Hx]. unfold name_of.
  by rewrite Hx, (lookup_weaken _ _ _ _ Hx Hsub).
Qed.

Lemma equal_in_weaken h h' m o :
  websites h ⊆ websites h' → equal_in h m o → equal_in h' m o.
Proof.
  intros Hsub (x & y & Hx & Hy & E). exists x, y.
  split_and!; [by eapply lookup_weaken..|done].
Qed.

Lemma copy_if_new h _deepcopy site :
  inv h → is_Some (websites h !! site) →
  ∃ site' h1,
    copy_if _deepcopy site h = Ok site' h1 ∧ inv h1 ∧
    lists h1 = lists h ∧ pools h1 = pools h ∧
    websites h ⊆ websites h1 ∧
    is_Some (websites h1 !! site') ∧ name_of h1 site' = name_of h site ∧
    (if _deepcopy then websites h !! site' = None else site' = site).
Proof.
  intros Hinv Hs. destruct _deepcopy; simpl.
  - destruct (deepcopy_website_Ok h h empty_memo site (inv_wf h Hinv)
                (copying_start h ∅ ∅) Hs)
      as (site' & memo' & h1 & Hrun & Hcp & _ & Hm & EL & EP).
    exists site', h1. rewrite (bind_Ok _ _ _ _ _ Hrun).
    destruct (copying_copy_of h h1 memo' site site' Hcp Hm) as (Hfresh & Hn & Hsome & _).
    split_and!; try done.
    + by eapply copying_inv.
    + apply Hcp.
    + apply name_of_is_Some. by rewrite Hn.
  - exists site, h. by split_and!.
Qed.

(** The two ways of [add] on a target of the store *)
Lemma add_cases h self P items o :
  inv h → pools h !! self = Some P → lists h !! p_sites P = Some items →
  is_Some (websites h !! o) →
  (add self (VWebsite o) h = Ok tt h ∧ p_allow_duplicates P = false ∧
   ∃ m, m ∈ items ∧ equal_in h m o) ∨
  (add self (VWebsite o) h
   = Ok tt (with_lists h (<[p_sites P := items ++ [o]]> (lists h))) ∧
   inv (with_lists h (<[p_sites P := items ++ [o]]> (lists h))) ∧
   (p_allow_duplicates P = true ∨ ¬ (∃ m, m ∈ items ∧ equal_in h m o))).
Proof.
  intros Hinv HP HL Ho.
  assert (all_present h items) as Hall.
  { intros w Hw. eapply wf_list; [apply Hinv|done..]. }
  destruct (add_Ok h self P items o HP HL Hall Ho) as [Hdup Happ].
  destruct (contains_Ok h self P items o HP HL Hall Ho) as (b & _ & Hiff).
  destruct (p_allow_duplicates P) eqn:Ea; [|destruct b].
  - right. split_and!; [apply Happ; by left| |by left].
    eapply inv_add; eauto.
  - left. assert (∃ m, m ∈ items ∧ equal_in h m o) as Hex by by apply Hiff.
    split_and!; try done. by apply Hdup.
  - assert (¬ ∃ m, m ∈ items ∧ equal_in h m o) as Hno
      by (intros Hex; by apply Hiff in Hex).
    right. split_and!; [apply Happ; by right| |by right].
    eapply inv_add; eauto.
Qed.

(** What [extend] brought in: [w'] comes from a target among [from], which
    it is when nothing is copied, and whose new copy it is otherwise. *)
Definition imported (h h' : Heap) (_deepcopy : bool) (from : list loc) (w' : loc) : Prop :=
  ∃ s, s ∈ from ∧ name_of h' w' = name_of h s ∧
       if _deepcopy then websites h !! w' = None else w' = s.

Lemma extend_loop_imports self P source src _deepcopy : ∀ fuel i h items,
  inv h → pools h !! self = Some P → lists h !! p_sites P = Some items →
  lists h !! source = Some src → source ≠ p_sites P →
  length src - i < fuel →
  ∃ h' added,
    extend_loop fuel self source _deepcopy i h = Ok tt h' ∧
    inv h' ∧ pools h' = pools h ∧
    lists h' = <[p_sites P := items ++ added]> (lists h) ∧
    websites h ⊆ websites h' ∧
    (∀ s, s ∈ drop i src → ∃ m, m ∈ items ++ added ∧ equal_in h' m s) ∧
    Forall (imported h h' _deepcopy (drop i src)) added ∧
    (p_allow_duplicates P = true → length added = length (drop i src)).
Proof.
  induction fuel as [|fuel IH]; intros i h items Hinv HP HL Hsrc Hne Hfuel; [lia|].
  simpl. rewrite (bind_Ok _ _ _ _ _ (read_list_Ok _ _ _ Hsrc)).
  destruct (src !! i) as [site|] eqn:Hi.
  - assert (drop i src = site :: drop (S i) src) as Hdrop by by apply drop_S.
    assert (site ∈ src) as Hin by (apply list_elem_of_lookup; by exists i).
    assert (∀ s, s ∈ src → is_Some (websites h !! s)) as Hsrc_present.
    { intros s Hs. eapply wf_list; [apply Hinv|done..]. }
    destruct (copy_if_new h _deepcopy site Hinv (Hsrc_present site Hin))
      as (site' & h1 & Hcopy & Hinv1 & EL1 & EP1 & Hsub1 & Hs' & Hn' & Hkind).
    rewrite (bind_Ok _ _ _ _ _ Hcopy).
    assert (pools h1 !! self = Some P) as HP1 by by rewrite EP1.
    assert (lists h1 !! p_sites P = Some items) as HL1 by by rewrite EL1.
    assert (lists h1 !! source = Some src) as Hsrc1 by by rewrite EL1.
    assert (length src - S i < fuel) as Hfuel'
      by (apply lookup_lt_Some in Hi; lia).
    assert (∀ s, s ∈ drop (S i) src → s ∈ src) as Hdrop_in.
    { intros s Hs. apply list_elem_of_lookup in Hs as [j Hj].
      rewrite lookup_drop in Hj. apply list_elem_of_lookup. by eexists. }
    destruct (add_cases h1 self P items site' Hinv1 HP1 HL1 Hs')
      as [(Hadd & Ha & m & Hm & Hem)|(Hadd & Hinv2 & Hcase)];
      rewrite (bind_Ok _ _ _ _ _ Hadd).
    + destruct (IH (S i) h1 items Hinv1 HP1 HL1 Hsrc1 Hne Hfuel')
        as (h' & added & Hrun & Hinv' & EP' & EL' & Hsub' & Hmem & Himp & Hlen).
      exists h', added. rewrite Hdrop. split_and!; try done.
      * by rewrite EP', EP1.
      * by rewrite EL', EL1.
      * by etrans.
      * intros s Hs. apply elem_of_cons in Hs as [->|Hs]; [|by apply Hmem].
        exists m. split; [apply elem_of_app; by left|].
        apply (equal_in_weaken h1 h' _ _ Hsub').
        apply equal_in_names. apply equal_in_names in Hem as [Hsome Hem].
        split; [done|]. rewrite Hem, Hn'. symmetry.
        by apply name_of_weaken, Hsrc_present.
      * eapply Forall_impl; [exact Himp|]. intros w' (s & Hs & Hn & Hk).
        exists s. split; [by right|]. split.
        -- rewrite Hn. by apply name_of_weaken, Hsrc_present, Hdrop_in.
        -- destruct _deepcopy; [|done]. by eapply lookup_weaken_None.
      * intros Ht. congruence.
    + set (h2 := with_lists h1 (<[p_sites P := items ++ [site']]> (lists h1))) in *.
      assert (lists h2 !! p_sites P = Some (items ++ [site'])) as HL2
        by apply lookup_insert_eq.
      assert (lists h2 !! source = Some src) as Hsrc2
        by (simpl; by rewrite lookup_insert_ne).
      destruct (IH (S i) h2 (items ++ [site']) Hinv2 HP1 HL2 Hsrc2 Hne Hfuel')
        as (h' & added & Hrun & Hinv' & EP' & EL' & Hsub' & Hmem & Himp & Hlen).
      exists h', (site' :: added). rewrite Hdrop.
      assert (websites h ⊆ websites h') as Hsub by by etrans.
      assert (name_of h' site' = name_of h site) as Hn.
      { rewrite <- Hn'. by apply (name_of_weaken h2 h'). }
      split_and!; try done.
      * by rewrite EP'.
      * rewrite EL'. simpl. rewrite insert_insert_eq, EL1.
        by rewrite <- app_assoc.
      * intros s Hs. rewrite (assoc_L (++) items [site'] added : items ++ site' :: added
                                = (items ++ [site']) ++ added).
        apply elem_of_cons in Hs as [->|Hs]; [|by apply Hmem].
        exists site'. split; [apply elem_of_app; left; apply elem_of_app; right; by left|].
        apply equal_in_names. split.
        -- apply name_of_is_Some. destruct Hs' as [x Hx]. exists x.
           by apply (lookup_weaken _ _ _ _ Hx Hsub').
        -- rewrite Hn. symmetry. by apply name_of_weaken, Hsrc_present.
      * constructor.
        -- exists site. split; [by left|]. split; [done|].
           destruct _deepcopy; done.
        -- eapply Forall_impl; [exact Himp|]. intros w' (s & Hs & Hn2 & Hk).
           exists s. split; [by right|]. split.
           ++ rewrite Hn2. by apply (name_of_weaken h h2), Hsrc_present, Hdrop_in.
           ++ destruct _deepcopy; [|done]. by eapply (lookup_weaken_None (websites h) (websites h2)).
      * intros Ht. simpl. by rewrite (Hlen Ht).
  - exists h, []. rewrite (drop_ge src i) by by apply lookup_ge_None.
    rewrite app_nil_r. split_and!; try done.
    + by rewrite insert_id.
    + intros s Hs. by apply elem_of_nil in Hs.
Qed.

(** X9: [extend] from a pool on another list goes once through that pool and
    ends.  The targets held before stay first and in place; what is appended
    comes from the other pool, the targets themselves or new copies of
    them; afterwards every target of the other pool is [in] the pool; a pool
    that allows duplicates takes all of them; the other pool and the targets
    that existed are as they were. *)
Theorem extend_imports (h : Heap) (self q : loc) (P Q : PoolObj)
    (items src : list loc) (_deepcopy : bool) :
  inv h → pools h !! self = Some P → pools h !! q = Some Q →
  p_sites Q ≠ p_sites P →
  lists h !! p_sites P = Some items → lists h !! p_sites Q = Some src →
  ∃ h' added,
    extend (S (length src)) self (VPool q) _deepcopy h = Ok tt h' ∧
    pool_items h' self = Some (items ++ added) ∧
    pool_items h' q = Some src ∧
    Forall (imported h h' _deepcopy src) added ∧
    (∀ s, s ∈ src → contains self (VWebsite s) h' = Ok true h') ∧
    (p_allow_duplicates P = true → length added = length src) ∧
    (p_allow_duplicates P = false → no_equal_targets h' (items ++ added)) ∧
    (∀ w x, websites h !! w = Some x → websites h' !! w = Some x).
Proof.
  intros Hinv HP HQ Hne HL Hsrc.
  destruct (extend_loop_imports self P (p_sites Q) src _deepcopy (S (length src)) 0 h items
              Hinv HP HL Hsrc Hne ltac:(lia))
    as (h' & added & Hrun & Hinv' & EP & EL & Hsub & Hmem & Himp & Hlen).
  rewrite drop_0 in Hmem, Himp, Hlen.
  assert (pools h' !! self = Some P) as HP' by by rewrite EP.
  assert (lists h' !! p_sites P = Some (items ++ added)) as HL'
    by (rewrite EL; apply lookup_insert_eq).
  exists h', added. split_and!; try done.
  - unfold extend. by rewrite (bind_Ok _ _ _ _ _ (read_pool_Ok _ _ _ HQ)).
  - unfold pool_items. by rewrite HP'.
  - unfold pool_items. rewrite EP, HQ. simpl. by rewrite EL, lookup_insert_ne.
  - intros s Hs.
    assert (all_present h' (items ++ added)) as Hall'.
    { intros w Hw. eapply wf_list; [apply Hinv'|done..]. }
    assert (is_Some (websites h' !! s)) as Hs'.
    { destruct (wf_list h (inv_wf h Hinv) _ _ s Hsrc Hs) as [x Hx]. exists x.
      by eapply lookup_weaken. }
    destruct (contains_Ok h' self P (items ++ added) s HP' HL' Hall' Hs')
      as (b & Hb & Hiff).
    rewrite Hb. f_equal. apply Hiff. by apply Hmem.
  - intros Ha. apply NoDup_names_no_equal. by eapply (inv_unique h' Hinv' self P).
  - intros w x Hx. by eapply lookup_weaken.
Qed.

(** ** The constructor *)

Lemma add_all_imports self P : ∀ (ws : list loc) h items,
  inv h → pools h !! self = Some P → lists h !! p_sites P = Some items →
  all_present h ws →
  ∃ added,
    forM_ (VWebsite <$> ws) (add self) h
    = Ok tt (with_lists h (<[p_sites P := items ++ added]> (lists h))) ∧
    inv (with_lists h (<[p_sites P := items ++ added]> (lists h))) ∧
    added `sublist_of` ws ∧
    (∀ s, s ∈ ws → ∃ m, m ∈ items ++ added ∧ equal_in h m s) ∧
    (p_allow_duplicates P = true → added = ws).
Proof.
  induction ws as [|w ws IH]; intros h items Hinv HP HL Hall.
  - exists []. rewrite app_nil_r.
    assert (with_lists h (<[p_sites P := items]> (lists h)) = h) as ->.
    { apply Heap_eq; try done. simpl. by apply insert_id. }
    split_and!; try done. intros s Hs. by apply elem_of_nil in Hs.
  - csimpl.
    assert (all_present h ws) as Hall' by (intros s Hs; apply Hall; by right).
    destruct (add_cases h self P items w Hinv HP HL (Hall w ltac:(by left)))
      as [(Hadd & Ha & m & Hm & Hem)|(Hadd & Hinv2 & Hcase)];
      rewrite (bind_Ok _ _ _ _ _ Hadd).
    + destruct (IH h items Hinv HP HL Hall') as (added & Hrun & Hinv' & Hsub & Hmem & Hlen).
      exists added. split_and!; try done.
      * by apply sublist_cons.
      * intros s Hs. apply elem_of_cons in Hs as [->|Hs]; [|by apply Hmem].
        exists m. split; [apply elem_of_app; by left|done].
      * intros Ht. congruence.
    + set (h2 := with_lists h (<[p_sites P := items ++ [w]]> (lists h))) in *.
      destruct (IH h2 (items ++ [w]) Hinv2 HP ltac:(apply lookup_insert_eq) Hall')
        as (added & Hrun & Hinv' & Hsub & Hmem & Hlen).
      assert (with_lists h2 (<[p_sites P := (items ++ [w]) ++ added]> (lists h2))
              = with_lists h (<[p_sites P := items ++ w :: added]> (lists h))) as Eh.
      { apply Heap_eq; try done. simpl. rewrite insert_insert_eq.
        by rewrite <- app_assoc. }
      rewrite Eh in Hrun, Hinv'.
      exists (w :: added). split_and!; try done.
      * by apply sublist_skip.
      * intros s Hs. rewrite (assoc_L (++) items [w] added : items ++ w :: added
                                = (items ++ [w]) ++ added).
        apply elem_of_cons in Hs as [->|Hs]; [|by apply Hmem].
        exists w. split; [apply elem_of_app; left; apply elem_of_app; right; by left|].
        by apply equal_in_refl, Hall; left.
      * intros Ht. by rewrite (Hlen Ht).
Qed.

(** X10: [WebsitePool] called with the targets [ws], a [str] [name=s] and
    [allow_duplicates=a] returns a new pool on a new list, named [s]: its targets are
    targets of [ws] in the order given, all of them when duplicates are
    allowed, pairwise unequal when they are not, and every target of [ws]
    is [in] the pool; the targets and the objects that existed are
    unchanged. *)
Theorem init_builds_the_pool (h : Heap) (ws : list loc) (s : string)
    (allow_duplicates : bool) :
  inv h → all_present h ws →
  ∃ self h' items,
    init (VWebsite <$> ws) (VStr s) allow_duplicates h = Ok self h' ∧
    pools h !! self = None ∧
    pools h' = <[self := mkPool (fresh (dom (lists h))) allow_duplicates (Some s)]>
                 (pools h) ∧
    lists h' = <[fresh (dom (lists h)) := items]> (lists h) ∧
    websites h' = websites h ∧ results h' = results h ∧
    name self h' = Ok s h' ∧
    items `sublist_of` ws ∧
    (allow_duplicates = true → items = ws) ∧
    (allow_duplicates = false → no_equal_targets h' items) ∧
    (∀ w, w ∈ ws → contains self (VWebsite w) h' = Ok true h').
Proof.
  intros Hinv Hall. unfold init.
  unfold mbind at 1, M_bind at 1, bind at 1, alloc_list.
  unfold mbind at 1, M_bind at 1, bind at 1, alloc_pool. cbn [lists pools with_lists].
  pose proof (fresh_list_None h) as Hl. pose proof (fresh_pool_None h) as Hp.
  set (l := fresh (dom (lists h))) in *. set (p := fresh (dom (pools h))) in *.
  set (h2 := with_pools (with_lists h (<[l:=[]]> (lists h)))
               (<[p:=mkPool l allow_duplicates None]> (pools h))).
  assert (inv h2) as Hinv2.
  { apply inv_rebind; [done|done| |].
    - intros w Hw. by apply elem_of_nil in Hw.
    - intros _. apply NoDup_nil_2. }
  set (P := mkPool l allow_duplicates (Some s)).
  set (h3 := with_pools h2 (<[p:=P]> (pools h2))).
  assert (set_name p (VStr s) h2 = Ok tt h3) as Hset.
  { unfold set_name.
    rewrite (bind_Ok _ _ _ _ _ (read_pool_Ok h2 p (mkPool l allow_duplicates None)
                                  ltac:(apply lookup_insert_eq))).
    apply write_pool_Ok. eexists. apply lookup_insert_eq. }
  rewrite (bind_Ok _ _ _ _ _ Hset).
  assert (inv h3) as Hinv3.
  { apply (inv_pool_like h2 p p (mkPool l allow_duplicates None));
      [done|apply lookup_insert_eq|done|done]. }
  assert (pools h3 !! p = Some P) as HP3 by apply lookup_insert_eq.
  assert (lists h3 !! p_sites P = Some []) as HL3 by apply lookup_insert_eq.
  destruct (add_all_imports p P ws h3 [] Hinv3 HP3 HL3 Hall)
    as (items & Hrun & Hinv4 & Hsub & Hmem & Hlen).
  rewrite (bind_Ok _ _ _ _ _ Hrun). simpl in Hrun. simpl.
  set (h4 := with_lists h3 (<[l:=items]> (lists h3))) in *.
  assert (pools h4 !! p = Some P) as HP4 by apply lookup_insert_eq.
  assert (lists h4 !! p_sites P = Some items) as HL4 by apply lookup_insert_eq.
  exists p, h4, items. split_and!; try done.
  - simpl. apply insert_insert_eq.
  - simpl. apply insert_insert_eq.
  - unfold name. by rewrite (bind_Ok _ _ _ _ _ (read_pool_Ok _ _ _ HP4)).
  - intros Ha. apply NoDup_names_no_equal. by eapply (inv_unique h4 Hinv4 p P).
  - intros w Hw.
    assert (all_present h4 items) as Hall4.
    { intros m Hm. eapply wf_list; [apply Hinv4|done..]. }
    destruct (contains_Ok h4 p P items w HP4 HL4 Hall4 (Hall w Hw)) as (b & Hb & Hiff).
    assert (b = true) as ->.
    { apply Hiff. destruct (Hmem w Hw) as (m & Hm & He). by exists m. }
    exact Hb.
Qed.

Lemma add_all_raises self P : ∀ (vs : list value) h items,
  inv h → pools h !! self = Some P → lists h !! p_sites P = Some items →
  targets_exist h vs → (∃ v, v ∈ vs ∧ is_Website v = false) →
  ∃ v0 added,
    v0 ∈ vs ∧ is_Website v0 = false ∧
    forM_ vs (add self) h
    = Raise (TypeError ("Expected type 'tracer.Website' instead of type '"
                          +:+ qualname v0 +:+ "'"))
            (with_lists h (<[p_sites P := items ++ added]> (lists h))).
Proof.
  induction vs as [|v vs IH]; intros h items Hinv HP HL Hval (vbad & Hin & Hbad).
  - by apply elem_of_nil in Hin.
  - assert (targets_exist h vs) as Hval' by (intros o Ho; apply Hval; by right).
    destruct (is_Website v) eqn:Hv.
    + destruct v as [| | | | |o| | | |]; try discriminate Hv.
      assert (∃ v, v ∈ vs ∧ is_Website v = false) as Hex.
      { exists vbad. split; [|done]. apply elem_of_cons in Hin as [->|?]; done. }
      simpl.
      destruct (add_cases h self P items o Hinv HP HL (Hval o ltac:(by left)))
        as [(Hadd & _)|(Hadd & Hinv2 & _)]; rewrite (bind_Ok _ _ _ _ _ Hadd).
      * destruct (IH h items Hinv HP HL Hval' Hex) as (v0 & added & Hv0 & Hb0 & Hrun).
        exists v0, added. split_and!; [by right|done|done].
      * destruct (IH _ (items ++ [o]) Hinv2 HP ltac:(apply lookup_insert_eq) Hval' Hex)
          as (v0 & added & Hv0 & Hb0 & Hrun).
        exists v0, (o :: added). split_and!; [by right|done|].
        rewrite Hrun. f_equal. apply Heap_eq; try done. simpl.
        rewrite insert_insert_eq. by rewrite <- app_assoc.
    + exists v, []. split_and!; [by left|done|].
      rewrite app_nil_r.
      assert (with_lists h (<[p_sites P := items]> (lists h)) = h) as ->.
      { apply Heap_eq; try done. simpl. by apply insert_id. }
      by destruct v.
Qed.

(** X11: [WebsitePool] called with a [str] name and a value that is no Website
    among its targets raises the [TypeError] of [add] for the first such
    value and returns no pool; the targets, pools and lists that existed are
    unchanged. *)
Theorem init_rejects_other_values (h : Heap) (sites_ : list value) (s : string)
    (allow_duplicates : bool) (v : value) :
  inv h → targets_exist h sites_ → v ∈ sites_ → is_Website v = false →
  ∃ v0 h',
    v0 ∈ sites_ ∧ is_Website v0 = false ∧
    init sites_ (VStr s) allow_duplicates h
    = Raise (TypeError ("Expected type 'tracer.Website' instead of type '"
                          +:+ qualname v0 +:+ "'")) h' ∧
    websites h' = websites h ∧ results h' = results h ∧
    pools h ⊆ pools h' ∧ lists h ⊆ lists h'.
Proof.
  intros Hinv Hval Hin Hbad. unfold init.
  unfold mbind at 1, M_bind at 1, bind at 1, alloc_list.
  unfold mbind at 1, M_bind at 1, bind at 1, alloc_pool. cbn [lists pools with_lists].
  pose proof (fresh_list_None h) as Hl. pose proof (fresh_pool_None h) as Hp.
  set (l := fresh (dom (lists h))) in *. set (p := fresh (dom (pools h))) in *.
  set (h2 := with_pools (with_lists h (<[l:=[]]> (lists h)))
               (<[p:=mkPool l allow_duplicates None]> (pools h))).
  assert (inv h2) as Hinv2.
  { apply inv_rebind; [done|done| |].
    - intros w Hw. by apply elem_of_nil in Hw.
    - intros _. apply NoDup_nil_2. }
  set (P := mkPool l allow_duplicates (Some s)).
  set (h3 := with_pools h2 (<[p:=P]> (pools h2))).
  assert (set_name p (VStr s) h2 = Ok tt h3) as Hset.
  { unfold set_name.
    rewrite (bind_Ok _ _ _ _ _ (read_pool_Ok h2 p (mkPool l allow_duplicates None)
                                  ltac:(apply lookup_insert_eq))).
    apply write_pool_Ok. eexists. apply lookup_insert_eq. }
  rewrite (bind_Ok _ _ _ _ _ Hset).
  assert (inv h3) as Hinv3.
  { apply (inv_pool_like h2 p p (mkPool l allow_duplicates None));
      [done|apply lookup_insert_eq|done|done]. }
  destruct (add_all_raises p P sites_ h3 [] Hinv3 ltac:(apply lookup_insert_eq)
              ltac:(apply lookup_insert_eq) Hval ltac:(by exists v))
    as (v0 & added & Hv0 & Hb0 & Hrun).
  exists v0. eexists. split; [done|]. split; [done|].
  split; [unfold mbind, M_bind, bind; by rewrite Hrun|].
  simpl. split_and!; try done.
  - rewrite insert_insert_eq. by apply insert_subseteq.
  - rewrite insert_insert_eq. by apply insert_subseteq.
Qed.

(** * More of [start_requests]: order, and what an exhausted generator means *)
Module DispatchOrder.

Import Dispatch.
#[local] Open Scope nat_scope.

(** The Result an event puts in the queue, if it puts one *)
Definition put_by (ev : event) (s : state) : list Result :=
  match ev with
  | Advance i =>
      match tasks s !! i with
      | Some (Pending (Some r) _) => [r]
      | _ => []
      end
  | _ => []
  end.

(** The Results put in the queue along a schedule, in the order of the puts *)
Fixpoint puts (evs : list event) (s : state) : list Result :=
  match evs with
  | [] => []
  | ev :: rest =>
      put_by ev s ++ match step ev s with Some s' => puts rest s' | None => [] end
  end.

Lemma step_fifo ev s s' :
  step ev s = Some s' → yielded s' ++ queue s' = yielded s ++ queue s ++ put_by ev s.
Proof.
  destruct ev as [i| | |]; simpl.
  - unfold advance.
    destruct (tasks s !! i) as [[[r|] []| |]|]; intros [= <-]; simpl;
      by rewrite ?app_nil_r.
  - destruct (consumer s), (queue s) as [|r q] eqn:Hq; intros [= <-]; simpl.
    by rewrite app_nil_r, <- app_assoc.
  - destruct (consumer s), (queue s) eqn:Hq; intros [= <-]; simpl.
    by rewrite Hq.
  - destruct (consumer s); intros [= <-]. simpl. by rewrite app_nil_r.
Qed.

Lemma exec_fifo evs : ∀ s s',
  exec evs s = Some s' → yielded s' ++ queue s' = yielded s ++ queue s ++ puts evs s.
Proof.
  induction evs as [|ev evs IH]; intros s s'; simpl.
  - intros [= <-]. by rewrite app_nil_r.
  - destruct (step ev s) as [s1|] eqn:Hstep; [|done]. intros Hexec.
    rewrite (IH s1 s' Hexec), (app_assoc (yielded s1)), (step_fifo ev s s1 Hstep).
    by rewrite <- !app_assoc.
Qed.

(** X12: Results reach the caller in the order in which the probes put them in the
    queue, whatever the order of the targets in the pool: what has been
    yielded, followed by what waits in the queue, is the sequence of the
    puts. *)
Theorem yielded_in_completion_order (plans : list plan) (evs : list event) (s : state) :
  exec evs (start_requests plans) = Some s →
  yielded s ++ queue s = puts evs (start_requests plans) ∧
  yielded s `prefix_of` puts evs (start_requests plans).
Proof.
  intros Hexec. pose proof (exec_fifo evs _ s Hexec) as Hfifo. simpl in Hfifo.
  split; [done|]. exists (queue s). by rewrite <- Hfifo.
Qed.

(** The generator is exhausted only if a task has raised or if every task is
    over and the queue is empty *)
Definition ended_well (s : state) : Prop :=
  consumer s = Exhausted →
  existsb raised (tasks s) = true ∨
  (forallb settled (tasks s) = true ∧ queue s = []).

Lemma loop_head_ended_well s : ended_well (loop_head s).
Proof.
  unfold ended_well, loop_head, done. simpl.
  destruct (queue s); simpl; [|done].
  destruct (existsb raised (tasks s)); simpl; [by left|].
  destruct (forallb settled (tasks s)); simpl; [by right|done].
Qed.

Lemma raised_stays (ts : list task) i t t' :
  ts !! i = Some t → raised t = false →
  existsb raised ts = true → existsb raised (<[i := t']> ts) = true.
Proof.
  revert i. induction ts as [|t0 ts IH]; intros [|i] Hi Ht; simplify_eq/=.
  - rewrite Ht. simpl. intros ->. apply orb_true_r.
  - intros [->|Hex]%orb_prop; [done|]. rewrite (IH i Hi Ht Hex). apply orb_true_r.
Qed.

Lemma step_ended_well ev s s' : ended_well s → step ev s = Some s' → ended_well s'.
Proof.
  intros Hs. destruct ev as [i| | |]; simpl.
  - unfold advance.
    destruct (tasks s !! i) as [t|] eqn:Hi; [|done]. intros Hstep.
    assert (raised t = false ∧ settled t = false ∧ consumer s' = consumer s ∧
            ∃ t', tasks s' = <[i := t']> (tasks s)) as (Hr & Hst & Hc & t' & Ht').
    { destruct t as [[r|] []| |]; simplify_eq/=; (split_and!; [done..|by eexists]). }
    intros Hex. rewrite Hc in Hex. destruct (Hs Hex) as [Hraised|[Hall _]].
    + left. rewrite Ht'. by eapply raised_stays.
    + exfalso. rewrite forallb_forall in Hall.
      assert (settled t = true) as Habs.
      { apply Hall, list_elem_of_In, list_elem_of_lookup. by exists i. }
      congruence.
  - destruct (consumer s), (queue s); by intros [= <-].
  - destruct (consumer s), (queue s); intros [= <-]. apply loop_head_ended_well.
  - destruct (consumer s); intros [= <-]. apply loop_head_ended_well.
Qed.

Lemma exec_ended_well evs : ∀ s s', ended_well s → exec evs s = Some s' → ended_well s'.
Proof.
  induction evs as [|ev evs IH]; intros s s' Hs; simpl; [by intros [= <-]|].
  destruct (step ev s) as [s1|] eqn:Hstep; [|done].
  apply IH. by eapply step_ended_well.
Qed.

Lemma sound_start (plans : list plan) :
  Forall (λ p, ends p = Returns) plans →
  Forall sound ((λ p, Pending (emits p) (ends p)) <$> plans).
Proof.
  intros HF. apply Forall_fmap. eapply Forall_impl; [exact HF|].
  intros p Hp. simpl. by rewrite Hp.
Qed.

Lemma sound_not_raised (ts : list task) : Forall sound ts → existsb raised ts = false.
Proof.
  induction 1 as [|t ts Ht _ IH]; [done|]. simpl. rewrite IH.
  by destruct t as [? []| |].
Qed.

(** X14: An exhausted generator means one of two things: a probe has raised, or
    every probe is over, the queue is empty and every Result handed over by
    a probe has been yielded.  When no probe raises, also when some return
    without a Result, it is the second. *)
Theorem exhausted_means_fault_or_complete (plans : list plan) (evs : list event)
    (s : state) :
  exec evs (start_requests plans) = Some s → consumer s = Exhausted →
  (existsb raised (tasks s) = true ∨
   (forallb settled (tasks s) = true ∧ queue s = [] ∧
    yielded s ≡ₚ omap emits plans)) ∧
  (Forall (λ p, ends p = Returns) plans →
     yielded s ≡ₚ omap emits plans ∧ ∀ ev, step ev s = None).
Proof.
  intros Hexec Hc.
  pose proof (exec_conserves evs _ s Hexec) as Hperm. simpl in Hperm.
  rewrite in_flight_start in Hperm.
  pose proof (exec_ended_well evs _ s (loop_head_ended_well _) Hexec Hc) as Hend.
  assert (forallb settled (tasks s) = true → queue s = [] →
          yielded s ≡ₚ omap emits plans) as Hall.
  { intros Hset Hq. by rewrite Hq, (in_flight_settled _ Hset), !app_nil_r in Hperm. }
  split.
  - destruct Hend as [?|[Hset Hq]]; [by left|right]. split_and!; try done. by apply Hall.
  - intros Hret.
    assert (drained s) as Hdr.
    { eapply exec_drained; [|exact Hexec]. by apply loop_head_drained, sound_start. }
    destruct Hdr as [Hsound Hex]. destruct (Hex Hc) as [Hq Hset].
    split; [by apply Hall|]. intros ev. apply drained_no_step; [by split|done].
Qed.

End DispatchOrder.

(** * [start_requests] and probes that call the callback as they like

    [start_requests] gives [results.put] to every probe and yields what it
    takes out of the queue.  Nothing in it counts the calls of a probe, so a
    probe is here a coroutine that awaits the callback any number of times
    and then returns or raises, if the loop runs it that far.  The
    generator, the queue, the tasks and the events are those of [Dispatch]. *)
Module DispatchCalls.

#[local] Open Scope nat_scope.

(** Modelled from the spec: [Website.send_request(session, timeout, callback)],
    which is not part of the sources at hand, as any coroutine that has the
    callback: the Results it passes to it, in the order of the calls, and how
    it ends.  A run is a finite schedule, and sees of a probe the calls made
    so far; a probe that the loop never runs to its end stays [Pending]. *)
Record probe := mkProbe {
  calls   : list Result;
  outcome : Dispatch.ending
}.

(** A child of [asyncio.gather] *)
Inductive task :=
| Pending (rest : list Result) (e : Dispatch.ending)
| Finished
| Raised.

Record state := mkState {
  queue    : list Result;
  tasks    : list task;
  consumer : Dispatch.consumer_state;
  yielded  : list Result
}.

Definition settled (t : task) : bool :=
  match t with Pending _ _ => false | Finished | Raised => true end.

Definition raised (t : task) : bool :=
  match t with Raised => true | Pending _ _ | Finished => false end.

(** [requests.done()] *)
Definition done (ts : list task) : bool :=
  existsb raised ts || forallb settled ts.

(** The head of [while not (results.empty() and requests.done())] *)
Definition loop_head (s : state) : state :=
  mkState (queue s) (tasks s)
          (if negb (Dispatch.empty (queue s) && done (tasks s))
           then Dispatch.Polling else Dispatch.Exhausted)
          (yielded s).

Definition start_requests (probes : list probe) : state :=
  loop_head (mkState [] ((λ p, Pending (calls p) (outcome p)) <$> probes)
                     Dispatch.Suspended []).

(** The next step of a task: its next [await callback(result)], which puts
    the result in the unbounded queue, or, after the last call, its end. *)
Definition advance (i : nat) (s : state) : option state :=
  match tasks s !! i with
  | Some (Pending (r :: rest) e) =>
      Some (mkState (queue s ++ [r]) (<[i := Pending rest e]> (tasks s))
                    (consumer s) (yielded s))
  | Some (Pending [] Dispatch.Returns) =>
      Some (mkState (queue s) (<[i := Finished]> (tasks s)) (consumer s) (yielded s))
  | Some (Pending [] Dispatch.Raises) =>
      Some (mkState (queue s) (<[i := Raised]> (tasks s)) (consumer s) (yielded s))
  | Some Finished | Some Raised | None => None
  end.

Definition step (ev : Dispatch.event) (s : state) : option state :=
  match ev with
  | Dispatch.Advance i => advance i s
  | Dispatch.Deliver =>
      match consumer s, queue s with
      | Dispatch.Polling, r :: q =>
          Some (mkState q (tasks s) Dispatch.Suspended (yielded s ++ [r]))
      | _, _ => None
      end
  | Dispatch.Expire =>
      match consumer s, queue s with
      | Dispatch.Polling, [] => Some (loop_head s)
      | _, _ => None
      end
  | Dispatch.Next =>
      match consumer s with
      | Dispatch.Suspended => Some (loop_head s)
      | _ => None
      end
  end.

Fixpoint exec (evs : list Dispatch.event) (s : state) : option state :=
  match evs with
  | [] => Some s
  | ev :: rest =>
      match step ev s with
      | Some s' => exec rest s'
      | None => None
      end
  end.

(** The Results that tasks have still to pass to the callback *)
Definition in_flight (ts : list task) : list Result :=
  concat ((λ t, match t with Pending rest _ => rest | _ => [] end) <$> ts).

(** ** The probes of [Dispatch] are the probes with one call at most *)

Definition of_plan (p : Dispatch.plan) : probe :=
  mkProbe (option_list (Dispatch.emits p)) (Dispatch.ends p).

Definition of_task (t : Dispatch.task) : task :=
  match t with
  | Dispatch.Pending o e => Pending (option_list o) e
  | Dispatch.Finished => Finished
  | Dispatch.Raised => Raised
  end.

Definition of_state (s : Dispatch.state) : state :=
  mkState (Dispatch.queue s) (of_task <$> Dispatch.tasks s)
          (Dispatch.consumer s) (Dispatch.yielded s).

Lemma done_of_task (ts : list Dispatch.task) :
  done (of_task <$> ts) = Dispatch.done ts.
Proof.
  unfold done, Dispatch.done. f_equal.
  - induction ts as [|t ts IH]; [done|]. csimpl. rewrite IH. by destruct t.
  - induction ts as [|t ts IH]; [done|]. csimpl. rewrite IH. by destruct t.
Qed.

Lemma loop_head_of_state (s : Dispatch.state) :
  loop_head (of_state s) = of_state (Dispatch.loop_head s).
Proof. unfold loop_head, Dispatch.loop_head, of_state. simpl. by rewrite done_of_task. Qed.

Lemma start_of_plans (plans : list Dispatch.plan) :
  start_requests (of_plan <$> plans) = of_state (Dispatch.start_requests plans).
Proof.
  unfold start_requests, Dispatch.start_requests. rewrite <- loop_head_of_state.
  unfold of_state. simpl. f_equal. f_equal. rewrite <- !list_fmap_compose.
  by apply list_fmap_ext.
Qed.

Lemma step_of_state ev (s : Dispatch.state) :
  step ev (of_state s) = of_state <$> Dispatch.step ev s.
Proof.
  destruct ev as [i| | |]; simpl.
  - unfold advance, Dispatch.advance. simpl. rewrite list_lookup_fmap.
    destruct (Dispatch.tasks s !! i) as [[[r|] []| |]|]; simpl; try done;
      unfold of_state; simpl; by rewrite list_fmap_insert.
  - by destruct (Dispatch.consumer s), (Dispatch.queue s).
  - destruct (Dispatch.consumer s), (Dispatch.queue s) eqn:Hq; try done.
    simpl. by rewrite loop_head_of_state.
  - destruct (Dispatch.consumer s); try done. simpl. by rewrite loop_head_of_state.
Qed.

(** On probes that call the callback once or not at all, a schedule runs here
    as it runs in [Dispatch]. *)
Lemma exec_of_state evs : ∀ s : Dispatch.state,
  exec evs (of_state s) = of_state <$> Dispatch.exec evs s.
Proof.
  induction evs as [|ev evs IH]; intros s; simpl; [done|].
  rewrite step_of_state. destruct (Dispatch.step ev s) as [s1|]; simpl; [apply IH|done].
Qed.

(** ** What the caller receives *)

Lemma calls_in_flight_put (ts : list task) i r rest e :
  ts !! i = Some (Pending (r :: rest) e) →
  in_flight ts ≡ₚ r :: in_flight (<[i := Pending rest e]> ts).
Proof.
  unfold in_flight. revert i.
  induction ts as [|t ts IH]; intros [|i] Hi; simplify_eq/=; [done|].
  rewrite (IH i Hi). by rewrite Permutation_middle.
Qed.

Lemma calls_in_flight_end (ts : list task) i e t' :
  ts !! i = Some (Pending [] e) → settled t' = true →
  in_flight (<[i := t']> ts) = in_flight ts.
Proof.
  unfold in_flight. revert i.
  induction ts as [|t ts IH]; intros [|i] Hi Ht'; simplify_eq/=.
  - by destruct t'.
  - by rewrite (IH i Hi Ht').
Qed.

Lemma calls_step_conserves ev s s' :
  step ev s = Some s' →
  yielded s' ++ queue s' ++ in_flight (tasks s')
  ≡ₚ yielded s ++ queue s ++ in_flight (tasks s).
Proof.
  destruct ev as [i| | |]; simpl.
  - unfold advance.
    destruct (tasks s !! i) as [[[|r rest] []| |]|] eqn:Hi; intros [= <-]; simpl.
    + by rewrite (calls_in_flight_end _ _ _ _ Hi).
    + by rewrite (calls_in_flight_end _ _ _ _ Hi).
    + rewrite (calls_in_flight_put _ _ _ _ _ Hi). rewrite <- app_assoc. simpl.
      done.
    + rewrite (calls_in_flight_put _ _ _ _ _ Hi). rewrite <- app_assoc. simpl.
      done.
  - destruct (consumer s), (queue s) as [|r q] eqn:Hq; intros [= <-]; simpl.
    by rewrite <- app_assoc.
  - destruct (consumer s), (queue s) eqn:Hq; intros [= <-]; simpl. by rewrite Hq.
  - by destruct (consumer s); intros [= <-].
Qed.

Lemma calls_exec_conserves evs : ∀ s s',
  exec evs s = Some s' →
  yielded s' ++ queue s' ++ in_flight (tasks s')
  ≡ₚ yielded s ++ queue s ++ in_flight (tasks s).
Proof.
  induction evs as [|ev evs IH]; intros s s'; simpl; [by intros [= <-]|].
  destruct (step ev s) as [s1|] eqn:Hstep; [|done].
  intros Hexec. rewrite (IH s1 s' Hexec). by apply (calls_step_conserves ev).
Qed.

Lemma calls_in_flight_start (probes : list probe) :
  in_flight ((λ p, Pending (calls p) (outcome p)) <$> probes) = concat (calls <$> probes).
Proof.
  unfold in_flight. induction probes as [|p probes IH]; [done|]. csimpl. by rewrite IH.
Qed.

Lemma calls_exhausted_stays evs : ∀ s s',
  consumer s = Dispatch.Exhausted → exec evs s = Some s' →
  consumer s' = Dispatch.Exhausted ∧ yielded s' = yielded s.
Proof.
  induction evs as [|ev evs IH]; intros s s' Hc; simpl; [by intros [= <-]|].
  destruct (step ev s) as [s1|] eqn:Hstep; [|done]. intros Hexec.
  assert (consumer s1 = Dispatch.Exhausted ∧ yielded s1 = yielded s) as [Hc1 Hy1].
  { destruct ev as [i| | |]; simpl in Hstep; rewrite ?Hc in Hstep; try done.
    unfold advance in Hstep.
    destruct (tasks s !! i) as [[[|r rest] []| |]|]; by simplify_eq/=. }
  destruct (IH s1 s' Hc1 Hexec) as [? ?]. split; [done|congruence].
Qed.

Lemma one_call_each (probes : list probe) :
  Forall (λ p, length (calls p) ≤ 1) probes →
  length (concat (calls <$> probes)) ≤ length probes.
Proof.
  induction 1 as [|p probes Hp _ IH]; csimpl; [lia|].
  rewrite length_app. lia.
Qed.

(** X13: However often each probe calls the callback, what [start_requests]
    yields was passed to the callback by a probe, and no more often than it
    was passed: the Results yielded, those in the queue and those not yet
    passed are, together, all the Results of all the calls.  The number of
    Results yielded is at most the number of targets when every probe calls
    at most once; an exhausted generator yields nothing more. *)
Theorem only_put_results_are_yielded (probes : list probe)
    (evs : list Dispatch.event) (s : state) :
  exec evs (start_requests probes) = Some s →
  yielded s ++ queue s ++ in_flight (tasks s) ≡ₚ concat (calls <$> probes) ∧
  yielded s ⊆+ concat (calls <$> probes) ∧
  (Forall (λ p, length (calls p) ≤ 1) probes → length (yielded s) ≤ length probes) ∧
  (consumer s = Dispatch.Exhausted →
     ∀ evs' s', exec evs' s = Some s' →
       consumer s' = Dispatch.Exhausted ∧ yielded s' = yielded s).
Proof.
  intros Hexec. pose proof (calls_exec_conserves evs _ s Hexec) as Hperm.
  simpl in Hperm. rewrite calls_in_flight_start in Hperm.
  assert (yielded s ⊆+ concat (calls <$> probes)) as Hsub.
  { rewrite <- Hperm. by apply submseteq_inserts_r. }
  split_and!; [done|done| |].
  - intros Hone. apply submseteq_length in Hsub.
    pose proof (one_call_each probes Hone). lia.
  - intros Hc evs' s' Hexec'. by apply (calls_exhausted_stays evs' s s').
Qed.

End DispatchCalls.

(** * The sample store again, with a second pool

    [ops] allows duplicates and is built from the third and the second
    target. *)

Definition ops : loc := 2%positive.
Definition ops_pool : PoolObj := mkPool 2%positive true (Some "ops").

Definition sample2 : Heap :=
  after 0 (OpInit [VWebsite github'; VWebsite gitlab] (VStr "ops") true) sample.

Lemma sample_inv : inv sample.
Proof. apply reachable_inv, sample_reachable. Qed.

Lemma sample2_inv : inv sample2.
Proof.
  apply reachable_inv, reachable_after; [apply sample_reachable|].
  repeat constructor; by eexists.
Qed.

Lemma sample2_devs : pools sample2 !! devs = Some devs_pool.
Proof. vm_compute. reflexivity. Qed.

Lemma sample2_ops : pools sample2 !! ops = Some ops_pool.
Proof. vm_compute. reflexivity. Qed.

Lemma sample2_devs_list : lists sample2 !! p_sites devs_pool = Some [github; gitlab].
Proof. vm_compute. reflexivity. Qed.

Lemma sample2_ops_list : lists sample2 !! p_sites ops_pool = Some [github'; gitlab].
Proof. vm_compute. reflexivity. Qed.

Lemma sample_present3 : all_present sample [github; gitlab; github'].
Proof.
  intros w Hw. apply elem_of_cons in Hw as [->|Hw]; [rewrite sample_github; by eexists|].
  apply elem_of_cons in Hw as [->|Hw]; [rewrite sample_gitlab; by eexists|].
  apply list_elem_of_singleton in Hw as ->. rewrite sample_github'. by eexists.
Qed.

Lemma get_by_name_first_witness :
  pools sample !! devs = Some devs_pool ∧
  lists sample !! p_sites devs_pool = Some [github; gitlab] ∧
  get_by_name devs (VStr "gitlab") sample = Ok (Some gitlab) sample ∧
  ∃ o, get_by_name devs (VStr "sourcehut") sample = Ok o sample.
Proof.
  split; [vm_compute; reflexivity|]. split; [vm_compute; reflexivity|].
  split; [vm_compute; reflexivity|].
  destruct (get_by_name_first sample devs devs_pool [github; gitlab] (VStr "sourcehut")
              sample_pool sample_list sample_present) as (o & Hrun & _).
  by exists o.
Defined.

Lemma get_and_remove_split_witness :
  pools sample !! devs = Some devs_pool ∧
  lists sample !! p_sites devs_pool = Some [github; gitlab] ∧
  ∃ got kept h',
    get devs (name_is (VStr "github")) sample = Ok got sample ∧
    remove devs (name_is (VStr "github")) sample = Ok tt h' ∧
    pool_items h' devs = Some kept ∧ length got + length kept = 2.
Proof.
  split; [vm_compute; reflexivity|]. split; [vm_compute; reflexivity|].
  destruct (get_and_remove_split sample devs devs_pool [github; gitlab]
              (name_is (VStr "github")) sample_pool sample_list sample_present)
    as (got & kept & h' & Hget & Hrem & Hitems & _ & Hlen & _).
  exists got, kept, h'. split; [exact Hget|]. split; [exact Hrem|].
  split; [exact Hitems|exact Hlen].
Defined.

Lemma set_name_then_name_witness :
  pools sample !! devs = Some devs_pool ∧
  ∃ h', set_name devs (VStr "developers") sample = Ok tt h' ∧
        name devs h' = Ok "developers" h'.
Proof.
  split; [vm_compute; reflexivity|].
  destruct (set_name_then_name sample devs devs_pool "developers" sample_pool)
    as (h' & Hset & Hname & _).
  exists h'. split; [exact Hset|exact Hname].
Defined.

Lemma set_username_sets_members_witness :
  pools sample !! devs = Some devs_pool ∧
  lists sample !! p_sites devs_pool = Some [github; gitlab] ∧
  ∃ h', set_username devs (VStr "alice") sample = Ok tt h' ∧
        username_of h' gitlab = Some (Some "alice") ∧
        websites h' !! github' = websites sample !! github'.
Proof.
  split; [vm_compute; reflexivity|]. split; [vm_compute; reflexivity|].
  destruct (set_username_sets_members sample devs devs_pool [github; gitlab] "alice" "bob"
              sample_pool sample_list sample_present)
    as (h' & Hset & _ & _ & _ & Hin & Hout & _).
  exists h'. split; [exact Hset|]. split.
  - apply Hin. right. by left.
  - apply Hout. apply (bool_decide_unpack _). by vm_compute.
Defined.

Lemma add_then_contains_witness :
  pools sample !! devs = Some devs_pool ∧
  lists sample !! p_sites devs_pool = Some [github; gitlab] ∧
  ∃ h1, add devs (VWebsite github') sample = Ok tt h1 ∧
        contains devs (VWebsite github') h1 = Ok true h1.
Proof.
  split; [vm_compute; reflexivity|]. split; [vm_compute; reflexivity|].
  destruct (add_then_contains sample devs devs_pool [github; gitlab] github'
              sample_pool sample_list sample_present)
    as (h1 & items1 & Hadd & _ & _ & Hin & _).
  - rewrite sample_github'. by eexists.
  - exists h1. split; [exact Hadd|exact Hin].
Defined.

Lemma shallow_copy_witness :
  pools sample2 !! ops = Some ops_pool ∧
  lists sample2 !! p_sites ops_pool = Some [github'; gitlab] ∧
  ∃ q h1 h2 h3,
    copy_pool ops sample2 = Ok q h1 ∧
    add q (VWebsite github) h1 = Ok tt h2 ∧
    pool_items h2 ops = Some [github'; gitlab; github] ∧
    remove q (name_is (VStr "gitlab")) h1 = Ok tt h3 ∧
    pool_items h3 ops = Some [github'; gitlab].
Proof.
  split; [vm_compute; reflexivity|]. split; [vm_compute; reflexivity|].
  destruct (shallow_copy_shares_the_list sample2 ops ops_pool [github'; gitlab] github
              (name_is (VStr "gitlab")) "copy" sample2_ops sample2_ops_list)
    as (q & h1 & Hcopy & _ & (h2 & Hadd & _ & Hself) & (h3 & Hrem & _ & Hkeep) & _).
  - intros w Hw. eapply wf_list; [apply sample2_inv|apply sample2_ops_list|done].
  - by eexists.
  - by left.
  - exists q, h1, h2, h3. split; [exact Hcopy|]. split; [exact Hadd|].
    split; [exact Hself|]. split; [exact Hrem|exact Hkeep].
Defined.

Lemma is_empty_witness :
  pools sample !! devs = Some devs_pool ∧
  lists sample !! p_sites devs_pool = Some [github; gitlab] ∧
  is_empty devs sample = Ok false sample ∧
  ∃ h1, remove devs (λ _ _, true) sample = Ok tt h1 ∧ is_empty devs h1 = Ok true h1.
Proof.
  split; [vm_compute; reflexivity|]. split; [vm_compute; reflexivity|].
  split; [vm_compute; reflexivity|].
  destruct (is_empty_follows_the_pool sample devs devs_pool [github; gitlab] github'
              (λ _ _, true) sample_pool sample_list sample_present)
    as (_ & _ & (h1 & Hrem & Hemp & _)).
  - rewrite sample_github'. by eexists.
  - intros w Hw. unfold holds. by destruct (sample_present w Hw) as [x ->].
  - exists h1. split; [exact Hrem|exact Hemp].
Defined.

Lemma extend_on_its_own_list_witness :
  inv sample2 ∧ pools sample2 !! ops = Some ops_pool ∧
  lists sample2 !! p_sites ops_pool = Some [github'; gitlab] ∧
  extend 1000 ops (VPool ops) false sample2 = Diverge ∧
  ∃ h', extend 3 devs (VPool devs) true sample2 = Ok tt h' ∧
        pool_items h' devs = Some [github; gitlab].
Proof.
  split; [apply sample2_inv|]. split; [vm_compute; reflexivity|].
  split; [vm_compute; reflexivity|]. split.
  - destruct (extend_on_its_own_list sample2 ops ops ops_pool ops_pool [github'; gitlab]
                false sample2_inv sample2_ops sample2_ops eq_refl sample2_ops_list)
      as (_ & Hdiv & _).
    by apply Hdiv.
  - destruct (extend_on_its_own_list sample2 devs devs devs_pool devs_pool
                [github; gitlab] true sample2_inv sample2_devs sample2_devs eq_refl
                sample2_devs_list)
      as (Hrej & _ & _).
    destruct (Hrej eq_refl) as (h' & Hrun & Hitems & _).
    exists h'. split; [exact Hrun|exact Hitems].
Defined.

Lemma extend_imports_witness :
  inv sample2 ∧ pools sample2 !! devs = Some devs_pool ∧
  pools sample2 !! ops = Some ops_pool ∧
  ∃ h' added,
    extend 3 ops (VPool devs) true sample2 = Ok tt h' ∧
    pool_items h' ops = Some ([github'; gitlab] ++ added) ∧
    length added = 2 ∧
    contains ops (VWebsite github) h' = Ok true h'.
Proof.
  split; [apply sample2_inv|]. split; [vm_compute; reflexivity|].
  split; [vm_compute; reflexivity|].
  destruct (extend_imports sample2 ops devs ops_pool devs_pool [github'; gitlab]
              [github; gitlab] true sample2_inv sample2_ops sample2_devs)
    as (h' & added & Hrun & Hitems & _ & _ & Hin & Hlen & _).
  - discriminate.
  - apply sample2_ops_list.
  - apply sample2_devs_list.
  - exists h', added. split_and!.
    + exact Hrun.
    + exact Hitems.
    + by apply Hlen.
    + apply Hin. by left.
Defined.

Lemma init_builds_the_pool_witness :
  inv sample ∧ all_present sample [github; gitlab; github'] ∧
  ∃ self h' items,
    init [VWebsite github; VWebsite gitlab; VWebsite github'] (VStr "all") false sample
    = Ok self h' ∧
    pool_items h' self = Some items ∧ no_equal_targets h' items ∧
    contains self (VWebsite github') h' = Ok true h'.
Proof.
  split; [apply sample_inv|]. split; [apply sample_present3|].
  destruct (init_builds_the_pool sample [github; gitlab; github'] "all" false
              sample_inv sample_present3)
    as (self & h' & items & Hrun & _ & HP & HL & _ & _ & _ & _ & _ & Huniq & Hin).
  exists self, h', items. split_and!.
  - exact Hrun.
  - unfold pool_items. rewrite HP, lookup_insert_eq. simpl. rewrite HL.
    apply lookup_insert_eq.
  - by apply Huniq.
  - apply Hin. right. right. by left.
Defined.

Lemma init_rejects_other_values_witness :
  inv sample ∧ targets_exist sample [VWebsite github; VStr "gitlab"] ∧
  ∃ h', init [VWebsite github; VStr "gitlab"] (VStr "all") false sample
        = Raise (TypeError "Expected type 'tracer.Website' instead of type 'str'") h'.
Proof.
  assert (targets_exist sample [VWebsite github; VStr "gitlab"]) as Hval.
  { intros o Ho. apply elem_of_cons in Ho as [[= ->]|Ho].
    - rewrite sample_github. by eexists.
    - apply list_elem_of_singleton in Ho. discriminate Ho. }
  split; [apply sample_inv|]. split; [exact Hval|].
  destruct (init_rejects_other_values sample [VWebsite github; VStr "gitlab"] "all" false
              (VStr "gitlab") sample_inv Hval)
    as (v0 & h' & Hv0 & Hbad & Hrun & _).
  - right. by left.
  - reflexivity.
  - exists h'. rewrite Hrun. do 2 f_equal.
    apply elem_of_cons in Hv0 as [->|Hv0]; [discriminate Hbad|].
    apply list_elem_of_singleton in Hv0 as ->. reflexivity.
Defined.

(** A probe that raises at once and one that succeeds: the schedule of the
    early end, and one in which the second probe is faster *)
Definition faulty_plans : list Dispatch.plan :=
  [Dispatch.mkPlan None Dispatch.Raises; Dispatch.mkPlan (Some gitlab_result) Dispatch.Returns].

Lemma completion_order_witness :
  ∃ s,
    Dispatch.exec [Dispatch.Advance 1; Dispatch.Advance 0; Dispatch.Deliver]
      (Dispatch.start_requests (sample_probe <$> [github; gitlab])) = Some s ∧
    r_identity <$> Dispatch.yielded s = ["gitlab"] ∧
    Dispatch.yielded s ++ Dispatch.queue s
    = DispatchOrder.puts [Dispatch.Advance 1; Dispatch.Advance 0; Dispatch.Deliver]
        (Dispatch.start_requests (sample_probe <$> [github; gitlab])).
Proof.
  eexists. split; [vm_compute; reflexivity|]. split; [reflexivity|].
  apply (DispatchOrder.yielded_in_completion_order (sample_probe <$> [github; gitlab])).
  reflexivity.
Defined.

(** One target whose probe calls the callback twice: both Results are
    yielded. *)
Definition eager_probe : DispatchCalls.probe :=
  DispatchCalls.mkProbe
    [gitlab_result; mkResult "gitlab" Found None 8] Dispatch.Returns.

Lemma only_put_witness :
  ∃ s,
    DispatchCalls.exec
      [Dispatch.Advance 0; Dispatch.Advance 0; Dispatch.Deliver; Dispatch.Next;
       Dispatch.Deliver]
      (DispatchCalls.start_requests [eager_probe]) = Some s ∧
    length (DispatchCalls.yielded s) = 2 ∧
    DispatchCalls.yielded s ⊆+ DispatchCalls.calls eager_probe.
Proof.
  eexists. split; [vm_compute; reflexivity|]. split; [reflexivity|].
  destruct (DispatchCalls.only_put_results_are_yielded [eager_probe]
              [Dispatch.Advance 0; Dispatch.Advance 0; Dispatch.Deliver; Dispatch.Next;
               Dispatch.Deliver] _ eq_refl)
    as (_ & Hsub & _).
  exact Hsub.
Defined.

Lemma exhausted_witness :
  ∃ s,
    Dispatch.exec [Dispatch.Advance 0; Dispatch.Expire]
      (Dispatch.start_requests faulty_plans) = Some s ∧
    Dispatch.consumer s = Dispatch.Exhausted ∧
    (existsb Dispatch.raised (Dispatch.tasks s) = true ∨
     (forallb Dispatch.settled (Dispatch.tasks s) = true ∧ Dispatch.queue s = [] ∧
      Dispatch.yielded s ≡ₚ omap Dispatch.emits faulty_plans)).
Proof.
  eexists. split; [vm_compute; reflexivity|]. split; [reflexivity|].
  apply (DispatchOrder.exhausted_means_fault_or_complete faulty_plans
           [Dispatch.Advance 0; Dispatch.Expire] _ eq_refl eq_refl).
Defined.
